(** * SO-Lab3: Fibonacci worker, sequential and parallel midpoint rule

    A shallow embedding of [fibonacci.c], [pi.c] and [pi_p.c].

    - C [int] values are integers of [Z] kept in the 32-bit signed range,
      the wrap-around of every addition being written out ([C.a_int]);
      [unsigned long long] values are integers modulo [2^64].
    - C [double] values are the primitive binary64 floats of Rocq, so the
      arithmetic of the model rounds as the hardware does.
    - Arrays are lists read with [!!] and written with [<[i:=x]>].
    - A [for] loop is a function with a fuel argument that tests the loop
      condition before every iteration, as the source does.
    - What the operating system decides (whether a [malloc] or a
      [pthread_create] succeeds, what [pthread_join] reports, what the clock
      reads) is an [entorno] the program is run in.  What the program does to
      the outside (lines written, threads created and joined) is recorded in
      a trace of [evento]s. *)

From Stdlib Require Import ZArith Floats Lia Ascii String.
From stdpp Require Import base list list_numbers.

Local Open Scope Z_scope.

(* The decimal constants of the sources are kept as written; each denotes
   the nearest binary64 value, as in C. *)
#[local] Set Warnings "-inexact-float".

(** ** Machine integers *)

Module C.

Definition INT_MAX : Z := 2147483647.
Definition INT_MIN : Z := -2147483648.
Definition LONG_MAX : Z := 9223372036854775807.
Definition LONG_MIN : Z := -9223372036854775808.

Definition EXIT_SUCCESS : Z := 0.
Definition EXIT_FAILURE : Z := 1.

(** Conversion to a 32-bit [int]: the value modulo [2^32] that lies in
    [INT_MIN .. INT_MAX]. *)
Definition a_int (z : Z) : Z := (z - INT_MIN) mod 2 ^ 32 + INT_MIN.

(** Conversion to [unsigned long long]. *)
Definition a_ull (z : Z) : Z := z mod 2 ^ 64.

Definition es_int (z : Z) : Prop := INT_MIN <= z <= INT_MAX.

Definition suma_int (a b : Z) : Z := a_int (a + b).
(** [/] and [%] of C truncate towards zero. *)
Definition div_int (a b : Z) : Z := a_int (Z.quot a b).
Definition resto_int (a b : Z) : Z := a_int (Z.rem a b).

Definition suma_ull (a b : Z) : Z := a_ull (a + b).

(** [(double)i] for an [int] [i]; every [int] is a binary64 value. *)
Definition double_de_int (z : Z) : float :=
  if z <? 0 then PrimFloat.opp (PrimFloat.of_uint63 (Uint63.of_Z (- z)))
  else PrimFloat.of_uint63 (Uint63.of_Z z).

(** [(double)t] for a [long] [t] (the fields of a [struct timespec]);
    the conversion rounds to the nearest binary64 value. *)
Definition double_de_long (z : Z) : float :=
  if z <? 0 then PrimFloat.opp (PrimFloat.of_uint63 (Uint63.of_Z (- z)))
  else PrimFloat.of_uint63 (Uint63.of_Z z).

(** [for (int i = i0; i < fin; ++i) s = cuerpo i s;] *)
Fixpoint para_int {S : Type} (combustible : nat) (i fin : Z)
         (cuerpo : Z -> S -> S) (s : S) : option S :=
  match combustible with
  | O => None
  | Datatypes.S c =>
      if i <? fin then para_int c (suma_int i 1) fin cuerpo (cuerpo i s)
      else Some s
  end.

End C.

(** ** fibonacci.c *)

Module Fibonacci.

(** [tipo_fibonacci] is [unsigned long long]; [arreglo] is the shared
    array.  A read or a write past the end of the array is undefined in C;
    here the read gives 0 and the write does nothing. *)
Definition leer (arreglo : list Z) (i : Z) : Z :=
  default 0 (arreglo !! Z.to_nat i).

Definition escribir (arreglo : list Z) (i : Z) (v : Z) : list Z :=
  <[Z.to_nat i := v]> arreglo.

Record ArgumentosFibonacci := {
  arreglo : list Z;
  cantidad : Z
}.

(** The value is the array as the thread leaves it; [None] is a loop that
    ran out of fuel. *)
Definition trabajador_fibonacci (combustible : nat)
           (argumentos : ArgumentosFibonacci) : option (list Z) :=
  let arreglo := arreglo argumentos in
  let cantidad := cantidad argumentos in
  if cantidad <=? 0 then Some arreglo
  else
    let arreglo := if cantidad >=? 1 then escribir arreglo 0 0 else arreglo in
    let arreglo := if cantidad >=? 2 then escribir arreglo 1 1 else arreglo in
    C.para_int combustible 2 cantidad
      (fun i arreglo =>
         escribir arreglo i
           (C.suma_ull (leer arreglo (i - 1)) (leer arreglo (i - 2))))
      arreglo.

End Fibonacci.

(** ** The C library's [atoi]

    [atoi] belongs to the C library, not to the repository.  It is modelled
    as the C library of the platform of these programs (POSIX threads and
    [clock_gettime] on 64-bit Linux) defines it: [atoi(s)] is
    [(int) strtol(s, NULL, 10)], where [strtol] skips white space, reads an
    optional sign and the longest run of decimal digits (none gives 0), and
    clamps the value to [LONG_MIN .. LONG_MAX]; the conversion to [int]
    keeps the low 32 bits. *)

Module Libc.

Definition es_espacio (c : ascii) : bool :=
  let n := Z.of_nat (nat_of_ascii c) in
  (n =? 32) || ((9 <=? n) && (n <=? 13)).

Definition valor_digito (c : ascii) : option Z :=
  let n := Z.of_nat (nat_of_ascii c) in
  if (48 <=? n) && (n <=? 57) then Some (n - 48) else None.

Fixpoint saltar_espacios (s : string) : string :=
  match s with
  | String c r => if es_espacio c then saltar_espacios r else s
  | EmptyString => s
  end.

Fixpoint leer_digitos (s : string) (acumulado : Z) : Z :=
  match s with
  | String c r =>
      match valor_digito c with
      | Some d => leer_digitos r (10 * acumulado + d)
      | None => acumulado
      end
  | EmptyString => acumulado
  end.

Definition strtol (s : string) : Z :=
  let s := saltar_espacios s in
  let '(negativo, s) :=
    match s with
    | String "-" r => (true, r)
    | String "+" r => (false, r)
    | _ => (false, s)
    end in
  let v := leer_digitos s 0 in
  let v := if negativo then - v else v in
  Z.max C.LONG_MIN (Z.min C.LONG_MAX v).

Definition atoi (s : string) : Z := C.a_int (strtol s).

End Libc.

(** ** pi.c *)

Module Pi.

Definition funcion_integrando (x : float) : float := (4 / (1 + x * x))%float.

(** [None] is a loop that ran out of fuel. *)
Definition calcular_pi_secuencial (combustible : nat)
           (numero_intervalos : Z) : option float :=
  let paso := (1 / C.double_de_int numero_intervalos)%float in
  match
    C.para_int combustible 0 numero_intervalos
      (fun i suma =>
         let x_punto_medio := (paso * (C.double_de_int i + 0.5))%float in
         (suma + funcion_integrando x_punto_medio)%float)
      0%float
  with
  | Some suma => Some (paso * suma)%float
  | None => None
  end.

End Pi.

(** ** pi_p.c *)

Module PiP.

Definition N_INTERVALOS_POR_DEFECTO : Z := 2000000000.
Definition HILOS_POR_DEFECTO : Z := 4.
Definition PI_REFERENCIA : float := 3.141592653589793238462643%float.

Record DatosHilo := {
  indice_inicio : Z;
  indice_fin : Z;
  paso : float
}.

(** What a thread hands to [pthread_exit]: [NULL], or a pointer to the
    [double] it allocated. *)
Definition retorno : Type := option float.

(** A reading of [CLOCK_MONOTONIC]. *)
Record timespec := {
  tv_sec : Z;
  tv_nsec : Z
}.

Record entorno := {
  (** does [malloc] of the array [hilos] succeed? of [datos_hilos]? *)
  reserva_hilos : bool;
  reserva_datos : bool;
  (** the contents of an element of [datos_hilos] before it is written *)
  basura : DatosHilo;
  (** the code [pthread_create] returns for thread [h] *)
  codigo_crear : Z -> Z;
  (** does [malloc] of the result succeed in thread [h]? *)
  reserva_resultado : Z -> bool;
  (** the code [pthread_join] returns for thread [h] when its result is
      collected *)
  codigo_unir : Z -> Z;
  (** the clock before and after the computation *)
  instante_inicio : timespec;
  instante_fin : timespec
}.

Inductive evento : Type :=
| Stderr_hilos_invalido (numero_hilos : Z)
| Stderr_n_fuera_de_rango
| Stderr_uso (nombre_programa : string)
| Stderr_fallo_reserva
| Stderr_error_crear (h codigo : Z)
| Stderr_error_join (h codigo : Z)
| Stderr_retorno_null (h : Z)
| Stdout_n (numero_intervalos : Z)
| Stdout_H (numero_hilos : Z)
| Stdout_pi (pi_aproximado : float)
| Stdout_error_absoluto (error : float)
| Stdout_tiempo (segundos : float)
| Crear (h codigo : Z)
| Unir (h : Z).

(** A computation returns a value, or ends the process with [exit], or
    runs out of fuel; in each case it has extended the trace. *)
Inductive resultado (A : Type) : Type :=
| Retorna (a : A)
| Sale (codigo : Z)
| Agotado.
Arguments Retorna {A} a.
Arguments Sale {A} codigo.
Arguments Agotado {A}.

Definition M (A : Type) : Type := list evento -> resultado A * list evento.

Definition ret {A} (a : A) : M A := fun t => (Retorna a, t).
Definition ligar {A B} (m : M A) (k : A -> M B) : M B :=
  fun t =>
    match m t with
    | (Retorna a, t') => k a t'
    | (Sale c, t') => (Sale c, t')
    | (Agotado, t') => (Agotado, t')
    end.
Definition emitir (ev : evento) : M unit := fun t => (Retorna tt, t ++ [ev]).
Definition salir {A} (codigo : Z) : M A := fun t => (Sale codigo, t).
Definition agotado {A} : M A := fun t => (Agotado, t).

Notation "x <- m ;; k" := (ligar m (fun x => k))
  (at level 100, m at next level, right associativity).
Notation "m ;; k" := (ligar m (fun _ => k))
  (at level 100, right associativity).

(** [for (int i = i0; i < fin; ++i)] around a body with effects. *)
Fixpoint para_M {S : Type} (combustible : nat) (i fin : Z)
         (cuerpo : Z -> S -> M S) (s : S) : M S :=
  match combustible with
  | O => agotado
  | Datatypes.S c =>
      if i <? fin then
        s' <- cuerpo i s ;; para_M c (C.suma_int i 1) fin cuerpo s'
      else ret s
  end.

(** The thread function.  [reserva] tells whether its [malloc] succeeds.
    [None] is a loop that ran out of fuel. *)
Definition trabajo_suma_parcial (combustible : nat) (reserva : bool)
           (datos : DatosHilo) : option retorno :=
  match
    C.para_int combustible (indice_inicio datos) (indice_fin datos)
      (fun i suma_local =>
         let x := (paso datos * (C.double_de_int i + 0.5))%float in
         (suma_local + 4 / (1 + x * x))%float)
      0%float
  with
  | Some suma_local => Some (if reserva then Some suma_local else None)
  | None => None
  end.

(** The arrays and the running start index of [calcular_pi_paralelo].
    An element of [hilos] is [None] until [pthread_create] has written
    it; then it stands for a thread, named by what the thread returns.
    A thread reads only its own element of [datos_hilos], which is not
    written again once the thread exists, and touches nothing else that is
    shared: what it returns is the value of [trabajo_suma_parcial] on that
    element. *)
Record arreglos := {
  inicio_actual : Z;
  hilos : list (option retorno);
  datos_hilos : list DatosHilo
}.

Definition leer_datos (e : entorno) (datos : list DatosHilo) (h : Z)
  : DatosHilo := default (basura e) (datos !! Z.to_nat h).

(** [pthread_join] on [hilos[h]] gives what that thread returned. *)
Definition leer_retorno (hs : list (option retorno)) (h : Z) : retorno :=
  match hs !! Z.to_nat h with
  | Some (Some r) => r
  | _ => None
  end.

(** The body of the first loop: the partition and the launch of
    thread [h]. *)
Definition lanzar_hilo (combustible : nat) (e : entorno)
           (tam_bloque resto : Z) (paso : float)
           (h : Z) (a : arreglos) : M arreglos :=
  let extra := if h <? resto then 1 else 0 in
  let datos :=
    <[Z.to_nat h :=
        {| indice_inicio := inicio_actual a;
           indice_fin :=
             C.suma_int (C.suma_int (inicio_actual a) tam_bloque) extra;
           paso := paso |}]> (datos_hilos a) in
  let inicio := indice_fin (leer_datos e datos h) in
  let codigo := codigo_crear e h in
  emitir (Crear h codigo) ;;
  if negb (codigo =? 0) then
    emitir (Stderr_error_crear h codigo) ;;
    para_M combustible 0 h (fun j _ => emitir (Unir j)) tt ;;
    salir C.EXIT_FAILURE
  else
    match
      trabajo_suma_parcial combustible (reserva_resultado e h)
        (leer_datos e datos h)
    with
    | Some r =>
        ret {| inicio_actual := inicio;
               hilos := <[Z.to_nat h := Some r]> (hilos a);
               datos_hilos := datos |}
    | None => agotado
    end.

(** The first loop, from freshly allocated arrays. *)
Definition lanzar (combustible : nat) (e : entorno)
           (numero_intervalos numero_hilos : Z) : M arreglos :=
  let paso := (1 / C.double_de_int numero_intervalos)%float in
  let tam_bloque := C.div_int numero_intervalos numero_hilos in
  let resto := C.resto_int numero_intervalos numero_hilos in
  para_M combustible 0 numero_hilos
    (lanzar_hilo combustible e tam_bloque resto paso)
    {| inicio_actual := 0;
       hilos := replicate (Z.to_nat numero_hilos) None;
       datos_hilos := replicate (Z.to_nat numero_hilos) (basura e) |}.

(** The body of the second loop: the join of thread [h]. *)
Definition recolectar_hilo (e : entorno) (hs : list (option retorno))
           (h : Z) (suma_global : float) : M float :=
  let codigo := codigo_unir e h in
  emitir (Unir h) ;;
  if negb (codigo =? 0) then
    emitir (Stderr_error_join h codigo) ;; ret suma_global
  else
    match leer_retorno hs h with
    | Some suma_parcial => ret (suma_global + suma_parcial)%float
    | None => emitir (Stderr_retorno_null h) ;; ret suma_global
    end.

Definition recolectar (combustible : nat) (e : entorno)
           (hs : list (option retorno)) (numero_hilos : Z) : M float :=
  para_M combustible 0 numero_hilos (recolectar_hilo e hs) 0%float.

Definition calcular_pi_paralelo (combustible : nat) (e : entorno)
           (numero_intervalos numero_hilos : Z) : M float :=
  let paso := (1 / C.double_de_int numero_intervalos)%float in
  if negb (reserva_hilos e) || negb (reserva_datos e) then
    emitir Stderr_fallo_reserva ;; salir C.EXIT_FAILURE
  else
    a <- lanzar combustible e numero_intervalos numero_hilos ;;
    suma_global <- recolectar combustible e (hilos a) numero_hilos ;;
    ret (paso * suma_global)%float.

Definition obtener_tiempo (instante : timespec) : float :=
  (C.double_de_long (tv_sec instante)
   + C.double_de_long (tv_nsec instante) * 1e-9)%float.

Definition argumento (argv : list string) (k : nat) : string :=
  nth k argv EmptyString.

Definition mostrar_uso (nombre_programa : string) : M unit :=
  emitir (Stderr_uso nombre_programa).

Definition main (combustible : nat) (e : entorno) (argv : list string)
  : M Z :=
  let argc := Z.of_nat (length argv) in
  let numero_hilos := HILOS_POR_DEFECTO in
  let numero_intervalos := N_INTERVALOS_POR_DEFECTO in
  let numero_hilos :=
    if argc >=? 2 then Libc.atoi (argumento argv 1) else numero_hilos in
  let numero_intervalos :=
    if argc >=? 3 then Libc.atoi (argumento argv 2)
    else numero_intervalos in
  numero_hilos <-
    (if numero_hilos <=? 0 then
       emitir (Stderr_hilos_invalido numero_hilos) ;; ret 1
     else ret numero_hilos) ;;
  if (numero_intervalos <=? 0) || (numero_intervalos >? 2147483647) then
    emitir Stderr_n_fuera_de_rango ;;
    mostrar_uso (argumento argv 0) ;;
    ret C.EXIT_FAILURE
  else
    let tiempo_inicio := obtener_tiempo (instante_inicio e) in
    pi_aproximado <-
      calcular_pi_paralelo combustible e numero_intervalos numero_hilos ;;
    let tiempo_fin := obtener_tiempo (instante_fin e) in
    emitir (Stdout_n numero_intervalos) ;;
    emitir (Stdout_H numero_hilos) ;;
    emitir (Stdout_pi pi_aproximado) ;;
    emitir (Stdout_error_absoluto
              (PrimFloat.abs (pi_aproximado - PI_REFERENCIA))) ;;
    emitir (Stdout_tiempo (tiempo_fin - tiempo_inicio)) ;;
    ret C.EXIT_SUCCESS.

(** A run of the program: the exit status and everything it did, or
    [None] when a loop ran out of fuel. *)
Definition programa (combustible : nat) (e : entorno) (argv : list string)
  : option (Z * list evento) :=
  match main combustible e argv [] with
  | (Retorna codigo, t) => Some (codigo, t)
  | (Sale codigo, t) => Some (codigo, t)
  | (Agotado, _) => None
  end.

End PiP.

(** ** pi.c: [main] *)

Module PiMain.

Definition N_INTERVALOS_POR_DEFECTO : Z := 2000000000.
Definition PI_REFERENCIA : float := 3.141592653589793238462643%float.

(** The clock before and after the computation. *)
Record entorno := {
  instante_inicio : PiP.timespec;
  instante_fin : PiP.timespec
}.

Inductive evento : Type :=
| Stderr_n_fuera_de_rango
| Stdout_n (numero_intervalos : Z)
| Stdout_pi (pi_aproximado : float)
| Stdout_error_absoluto (error : float)
| Stdout_tiempo (segundos : float).

Definition obtener_tiempo (instante : PiP.timespec) : float :=
  (C.double_de_long (PiP.tv_sec instante)
   + C.double_de_long (PiP.tv_nsec instante) * 1e-9)%float.

(** The exit status and what was written; [None] is a loop that ran out
    of fuel. *)
Definition main (combustible : nat) (e : entorno) (argv : list string)
  : option (Z * list evento) :=
  let argc := Z.of_nat (length argv) in
  let numero_intervalos := N_INTERVALOS_POR_DEFECTO in
  let numero_intervalos :=
    if argc >=? 2 then Libc.atoi (PiP.argumento argv 1)
    else numero_intervalos in
  if (numero_intervalos <=? 0) || (numero_intervalos >? 2147483647) then
    Some (C.EXIT_FAILURE, [Stderr_n_fuera_de_rango])
  else
    let tiempo_inicio := obtener_tiempo (instante_inicio e) in
    match Pi.calcular_pi_secuencial combustible numero_intervalos with
    | Some pi_aproximado =>
        let tiempo_fin := obtener_tiempo (instante_fin e) in
        Some (C.EXIT_SUCCESS,
              [Stdout_n numero_intervalos;
               Stdout_pi pi_aproximado;
               Stdout_error_absoluto
                 (PrimFloat.abs (pi_aproximado - PI_REFERENCIA)%float);
               Stdout_tiempo (tiempo_fin - tiempo_inicio)%float])
    | None => None
    end.

End PiMain.

(** ** fibonacci.c: [main] *)

Module FibonacciMain.

Record entorno := {
  (** does [malloc] of [secuencia] succeed? of [argumentos]? *)
  reserva_secuencia : bool;
  reserva_argumentos : bool;
  (** the contents of element [i] of [secuencia] as [malloc] returns it *)
  basura : nat -> Z;
  (** the codes [pthread_create] and [pthread_join] return *)
  codigo_crear : Z;
  codigo_unir : Z
}.

Inductive evento : Type :=
| Stderr_uso (nombre_programa : string)
| Stderr_uso_N
| Stderr_n_negativo
| Perror_secuencia
| Perror_argumentos
| Stderr_error_crear (codigo : Z)
| Stderr_error_join (codigo : Z)
| Crear (codigo : Z)
| Unir (codigo : Z)
| Stdout_espacio
| Stdout_numero (v : Z)
| Stdout_nueva_linea.

Definition mostrar_uso (nombre_programa : string) : list evento :=
  [Stderr_uso nombre_programa; Stderr_uso_N].

(** The loop that prints the sequence; its state is what has been
    written. *)
Definition imprimir (combustible : nat) (secuencia : list Z) (cantidad : Z)
  : option (list evento) :=
  C.para_int combustible 0 cantidad
    (fun i t =>
       let t := if i >? 0 then t ++ [Stdout_espacio] else t in
       t ++ [Stdout_numero (Fibonacci.leer secuencia i)])
    [].

(** The exit status and what was done; [None] is a loop that ran out of
    fuel.  The thread writes the array; [main] reads it only after a join
    that succeeded. *)
Definition main (combustible : nat) (e : entorno) (argv : list string)
  : option (Z * list evento) :=
  let argc := Z.of_nat (length argv) in
  if argc <? 2 then
    Some (C.EXIT_FAILURE, mostrar_uso (PiP.argumento argv 0))
  else
    let cantidad := Libc.atoi (PiP.argumento argv 1) in
    if cantidad <? 0 then Some (C.EXIT_FAILURE, [Stderr_n_negativo])
    else if cantidad =? 0 then Some (C.EXIT_SUCCESS, [])
    else if negb (reserva_secuencia e) then
      Some (C.EXIT_FAILURE, [Perror_secuencia])
    else
      let secuencia := basura e <$> seq 0 (Z.to_nat cantidad) in
      if negb (reserva_argumentos e) then
        Some (C.EXIT_FAILURE, [Perror_argumentos])
      else
        let argumentos :=
          {| Fibonacci.arreglo := secuencia;
             Fibonacci.cantidad := cantidad |} in
        let codigo := codigo_crear e in
        if negb (codigo =? 0) then
          Some (C.EXIT_FAILURE, [Crear codigo; Stderr_error_crear codigo])
        else
          let codigo := codigo_unir e in
          if negb (codigo =? 0) then
            Some (C.EXIT_FAILURE,
                  [Crear 0; Unir codigo; Stderr_error_join codigo])
          else
            match Fibonacci.trabajador_fibonacci combustible argumentos with
            | Some secuencia =>
                match imprimir combustible secuencia cantidad with
                | Some t =>
                    Some (C.EXIT_SUCCESS,
                          [Crear 0; Unir 0] ++ t ++ [Stdout_nueva_linea])
                | None => None
                end
            | None => None
            end.

End FibonacciMain.

(** ** Definitions used by the statements *)

(** The Fibonacci numbers: [F(0) = 0], [F(1) = 1],
    [F(i) = F(i - 1) + F(i - 2)]. *)
Fixpoint fib (n : nat) : Z :=
  match n with
  | O => 0
  | S m => match m with
           | O => 1
           | S k => fib m + fib k
           end
  end.

(** The integrand, [f(x) = 4 / (1 + x^2)]. *)
Definition integrando (x : float) : float := (4 / (1 + x * x))%float.

(** The sum, over [i] from [a] to [b - 1] in increasing order, of the
    integrand at [paso * (i + 0.5)], accumulated from [0.0]. *)
Definition suma_puntos_medios (paso : float) (a b : Z) : float :=
  fold_left
    (fun suma i => (suma + integrando (paso * (C.double_de_int i + 0.5)))%float)
    (seqZ a (b - a)) 0%float.

(** Where the range of worker [k] starts when [0 .. n - 1] is split among
    [h] workers: the first [n mod h] ranges have [n / h + 1] indices, the
    others [n / h]. *)
Definition inicio_de (n h k : Z) : Z := k * (n / h) + Z.min k (n mod h).

Definition elemento (n h k : Z) : PiP.DatosHilo :=
  {| PiP.indice_inicio := inicio_de n h k;
     PiP.indice_fin := inicio_de n h (k + 1);
     PiP.paso := (1 / C.double_de_int n)%float |}.

Definition en_rango (d : PiP.DatosHilo) (i : Z) : Prop :=
  PiP.indice_inicio d <= i < PiP.indice_fin d.

Definition tamano (d : PiP.DatosHilo) : Z :=
  PiP.indice_fin d - PiP.indice_inicio d.

(** The partial sum of worker [k]. *)
Definition parcial (n h k : Z) : float :=
  suma_puntos_medios (1 / C.double_de_int n)%float
                     (inicio_de n h k) (inicio_de n h (k + 1)).

(** What thread [k] returns. *)
Definition retorno_de (e : PiP.entorno) (n h k : Z) : PiP.retorno :=
  if PiP.reserva_resultado e k then Some (parcial n h k) else None.

(** The result of worker [k] is absent when its join reports an error or
    when the thread returned [NULL]. *)
Definition ausente (e : PiP.entorno) (k : Z) : bool :=
  negb (PiP.codigo_unir e k =? 0) || negb (PiP.reserva_resultado e k).

(** The partial sums that are present among those of the workers before
    [k], in the order of the workers. *)
Definition aportes_hasta (e : PiP.entorno) (n h k : Z) : list float :=
  parcial n h <$> filter (fun j => ausente e j = false) (seqZ 0 k).

Definition aportes (e : PiP.entorno) (n h : Z) : list float :=
  aportes_hasta e n h h.

(** The sum of a list of partial sums, folded from [0.0] in order. *)
Definition suma_en_orden (l : list float) : float :=
  fold_left PrimFloat.add l 0%float.

(** What the collection of worker [k] adds to the trace: the join, and a
    diagnostic when the result is absent. *)
Definition recoleccion (e : PiP.entorno) (k : Z) : list PiP.evento :=
  PiP.Unir k ::
    (if negb (PiP.codigo_unir e k =? 0)
     then [PiP.Stderr_error_join k (PiP.codigo_unir e k)]
     else if PiP.reserva_resultado e k then []
          else [PiP.Stderr_retorno_null k]).

(** The collection of the workers before [k]. *)
Definition recolecciones (e : PiP.entorno) (k : Z) : list PiP.evento :=
  concat (recoleccion e <$> seqZ 0 k).

(** The launches of threads [0 .. k - 1]. *)
Definition lanzamientos (k : Z) : list PiP.evento :=
  (fun j => PiP.Crear j 0) <$> seqZ 0 k.

(** What the loop keeps true: the first [i] elements are Fibonacci
    numbers modulo [2^64], the others are as they were. *)
Definition fib_inv (inicial : list Z) (i : Z) (a : list Z) : Prop :=
  length a = length inicial
  /\ (forall k : nat, (k < Z.to_nat i)%nat ->
                      a !! k = Some (fib k mod 2 ^ 64))
  /\ (forall k : nat, (Z.to_nat i <= k)%nat -> a !! k = inicial !! k).

(** The arrays of [calcular_pi_paralelo] before iteration [k] of the
    first loop, when the threads before [k] were created. *)
Definition arreglos_en (e : PiP.entorno) (n h k : Z) : PiP.arreglos :=
  {| PiP.inicio_actual := inicio_de n h k;
     PiP.hilos :=
       ((fun j => Some (retorno_de e n h j)) <$> seqZ 0 k)
         ++ replicate (Z.to_nat (h - k)) None;
     PiP.datos_hilos :=
       (elemento n h <$> seqZ 0 k)
         ++ replicate (Z.to_nat (h - k)) (PiP.basura e) |}.

(** The running sum before iteration [k] of the second loop. *)
Definition suma_hasta (e : PiP.entorno) (n h k : Z) : float :=
  suma_en_orden (aportes_hasta e n h k).

(** A computation is uniform in the trace when what it does depends on the
    trace it starts from only by extending it. *)
Definition prefijar {A : Type} (t0 : list PiP.evento)
           (r : PiP.resultado A * list PiP.evento)
  : PiP.resultado A * list PiP.evento := (fst r, t0 ++ snd r).

Definition uniforme {A : Type} (m : PiP.M A) : Prop :=
  forall t0 t, m (t0 ++ t) = prefijar t0 (m t).

(** [main] of [pi_p.c] from the point where [numero_hilos] has been
    validated. *)
Definition main_desde_n (combustible : nat) (e : PiP.entorno)
           (argv : list string) (numero_intervalos numero_hilos : Z)
  : PiP.M Z :=
  PiP.ligar
    (if (numero_intervalos <=? 0) || (numero_intervalos >? 2147483647) then
       PiP.ret None
     else
       PiP.ligar
         (PiP.calcular_pi_paralelo combustible e numero_intervalos
                                   numero_hilos)
         (fun v => PiP.ret (Some v)))
    (fun r =>
       match r with
       | None =>
           PiP.ligar (PiP.emitir PiP.Stderr_n_fuera_de_rango) (fun _ =>
           PiP.ligar (PiP.emitir (PiP.Stderr_uso (PiP.argumento argv 0)))
                     (fun _ => PiP.ret C.EXIT_FAILURE))
       | Some pi_aproximado =>
           PiP.ligar (PiP.emitir (PiP.Stdout_n numero_intervalos)) (fun _ =>
           PiP.ligar (PiP.emitir (PiP.Stdout_H numero_hilos)) (fun _ =>
           PiP.ligar (PiP.emitir (PiP.Stdout_pi pi_aproximado)) (fun _ =>
           PiP.ligar
             (PiP.emitir
                (PiP.Stdout_error_absoluto
                   (PrimFloat.abs (pi_aproximado - PiP.PI_REFERENCIA)%float)))
             (fun _ =>
           PiP.ligar
             (PiP.emitir
                (PiP.Stdout_tiempo
                   (PiP.obtener_tiempo (PiP.instante_fin e)
                    - PiP.obtener_tiempo (PiP.instante_inicio e))%float))
             (fun _ => PiP.ret C.EXIT_SUCCESS)))))
       end).

(** What [main] reads from the command line. *)
Definition hilos_pedidos (argv : list string) : Z :=
  if Z.of_nat (length argv) >=? 2 then Libc.atoi (PiP.argumento argv 1)
  else PiP.HILOS_POR_DEFECTO.

Definition intervalos_pedidos (argv : list string) : Z :=
  if Z.of_nat (length argv) >=? 3 then Libc.atoi (PiP.argumento argv 2)
  else PiP.N_INTERVALOS_POR_DEFECTO.

(** What the program writes once the approximation [v] is known. *)
Definition informe (e : PiP.entorno) (n h : Z) (v : float)
  : list PiP.evento :=
  [PiP.Stdout_n n; PiP.Stdout_H h; PiP.Stdout_pi v;
   PiP.Stdout_error_absoluto (PrimFloat.abs (v - PiP.PI_REFERENCIA)%float);
   PiP.Stdout_tiempo
     (PiP.obtener_tiempo (PiP.instante_fin e)
      - PiP.obtener_tiempo (PiP.instante_inicio e))%float].

(** An environment in which nothing fails. *)
Definition entorno_sin_fallos : PiP.entorno :=
  {| PiP.reserva_hilos := true;
     PiP.reserva_datos := true;
     PiP.basura := {| PiP.indice_inicio := 0; PiP.indice_fin := 0;
                      PiP.paso := 0%float |};
     PiP.codigo_crear := fun _ => 0;
     PiP.reserva_resultado := fun _ => true;
     PiP.codigo_unir := fun _ => 0;
     PiP.instante_inicio := {| PiP.tv_sec := 10; PiP.tv_nsec := 0 |};
     PiP.instante_fin := {| PiP.tv_sec := 11; PiP.tv_nsec := 500000000 |} |}.

(** An environment in which the join of worker 0 reports an error and the
    thread of worker 2 returns [NULL]. *)
Definition entorno_con_ausentes : PiP.entorno :=
  {| PiP.reserva_hilos := true;
     PiP.reserva_datos := true;
     PiP.basura := {| PiP.indice_inicio := 0; PiP.indice_fin := 0;
                      PiP.paso := 0%float |};
     PiP.codigo_crear := fun _ => 0;
     PiP.reserva_resultado := fun k => negb (k =? 2);
     PiP.codigo_unir := fun k => if k =? 0 then 22 else 0;
     PiP.instante_inicio := {| PiP.tv_sec := 10; PiP.tv_nsec := 0 |};
     PiP.instante_fin := {| PiP.tv_sec := 11; PiP.tv_nsec := 500000000 |} |}.

(** An environment in which the creation of thread 2 fails. *)
Definition entorno_sin_hilo_2 : PiP.entorno :=
  {| PiP.reserva_hilos := true;
     PiP.reserva_datos := true;
     PiP.basura := {| PiP.indice_inicio := 0; PiP.indice_fin := 0;
                      PiP.paso := 0%float |};
     PiP.codigo_crear := fun k => if k =? 2 then 11 else 0;
     PiP.reserva_resultado := fun _ => true;
     PiP.codigo_unir := fun _ => 0;
     PiP.instante_inicio := {| PiP.tv_sec := 10; PiP.tv_nsec := 0 |};
     PiP.instante_fin := {| PiP.tv_sec := 11; PiP.tv_nsec := 500000000 |} |}.

(** ** Binary64 numbers

    The exponent of the last place of a binary64 number of magnitude [x],
    the function [fexp] of the specification of the primitive floats at
    precision 53 and maximal exponent 1024. *)
Definition fexp64 (x : Z) : Z := Z.max (x - 53) (-1074).

(** What [shr_fexp] does to a non-negative mantissa [m] with exponent [e]:
    the bits below the exponent of the last place are dropped. *)
Definition desplazar (m e : Z) : Z * Z :=
  let p := Z.max (fexp64 (Zdigits2 m + e) - e) 0 in (m / 2 ^ p, e + p).

(** The end of [binary_round_aux] on a non-negative rounded mantissa. *)
Definition terminar (m2 e1 : Z) : spec_float :=
  let '(m3, e3) := desplazar m2 e1 in
  match m3 with
  | Z0 => S754_zero false
  | Zpos p => if e3 <=? 971 then S754_finite false p e3
              else S754_infinity false
  | Zneg _ => S754_nan
  end.

(** Zero or a finite positive number below [2^B]. *)
Definition mag_max (B : Z) (x : spec_float) : Prop :=
  match x with
  | S754_zero false => True
  | S754_finite false m e => Z.pos (digits2_pos m) + e <= B
  | _ => False
  end.

(** A finite positive number that is at least [2^(B-1)], or [+oo]. *)
Definition mag_min (B : Z) (x : spec_float) : Prop :=
  match x with
  | S754_finite false m e => B <= Z.pos (digits2_pos m) + e
  | S754_infinity false => True
  | _ => False
  end.

(** Zero or a finite positive number that is at most the integer [K]. *)
Definition valor_max (K : Z) (x : spec_float) : Prop :=
  match x with
  | S754_zero false => True
  | S754_finite false m e =>
      -1074 <= e /\ Z.pos m * 2 ^ (e + 1074) <= K * 2 ^ 1074
  | _ => False
  end.

(** Not a NaN, not negative, not [-0]. *)
Definition no_negativo (x : spec_float) : Prop :=
  match x with
  | S754_zero false | S754_finite false _ _ | S754_infinity false => True
  | _ => False
  end.

(** The same properties of the primitive floats. *)
Definition magnitud_max (B : Z) (x : float) : Prop := mag_max B (Prim2SF x).
Definition magnitud_min (B : Z) (x : float) : Prop := mag_min B (Prim2SF x).
Definition acotado (K : Z) (x : float) : Prop := valor_max K (Prim2SF x).

(** ** Definitions used by the further statements *)

(** The threads a trace shows created ([pthread_create] returned 0), and
    the threads on which it shows [pthread_join] called, whatever the call
    returned. *)
Definition creados (t : list PiP.evento) : list Z :=
  omap (fun ev => match ev with
                  | PiP.Crear h codigo => if codigo =? 0 then Some h else None
                  | _ => None
                  end) t.

Definition unidos (t : list PiP.evento) : list Z :=
  omap (fun ev => match ev with PiP.Unir h => Some h | _ => None end) t.

(** The threads whose join a trace shows diagnosed as failed. *)
Definition uniones_fallidas (t : list PiP.evento) : list Z :=
  omap (fun ev => match ev with
                  | PiP.Stderr_error_join h _ => Some h
                  | _ => None
                  end) t.

(** What a trace shows written to the standard output. *)
Definition es_stdout (ev : PiP.evento) : bool :=
  match ev with
  | PiP.Stdout_n _ | PiP.Stdout_H _ | PiP.Stdout_pi _
  | PiP.Stdout_error_absoluto _ | PiP.Stdout_tiempo _ => true
  | _ => false
  end.

Definition salida (t : list PiP.evento) : list PiP.evento :=
  List.filter es_stdout t.

(** The worker count [main] of [pi_p.c] computes with. *)
Definition hilos_usados (argv : list string) : Z :=
  if hilos_pedidos argv <=? 0 then 1 else hilos_pedidos argv.

(** Nothing stands in the way of the parallel computation. *)
Definition sin_fallo_fatal (e : PiP.entorno) (h : Z) : Prop :=
  PiP.reserva_hilos e = true /\ PiP.reserva_datos e = true
  /\ forall k, 0 <= k < h -> PiP.codigo_crear e k = 0.

(** The Fibonacci numbers two at a time. *)
Fixpoint fib_par (n : nat) : Z * Z :=
  match n with
  | O => (0, 1)
  | S n => let '(a, b) := fib_par n in (b, a + b)
  end.

(** The first [N] Fibonacci numbers as [unsigned long long] holds them. *)
Definition secuencia_fib (N : Z) : list Z :=
  (fun i => fib i mod 2 ^ 64) <$> seq 0 (Z.to_nat N).

(** A line of numbers separated by single spaces. *)
Definition linea (l : list Z) : list FibonacciMain.evento :=
  match l with
  | [] => []
  | v :: r =>
      FibonacciMain.Stdout_numero v
        :: concat ((fun w => [FibonacciMain.Stdout_espacio;
                              FibonacciMain.Stdout_numero w]) <$> r)
  end.

Definition fib_es_stdout (ev : FibonacciMain.evento) : bool :=
  match ev with
  | FibonacciMain.Stdout_espacio | FibonacciMain.Stdout_numero _
  | FibonacciMain.Stdout_nueva_linea => true
  | _ => false
  end.

(** What [main] of [fibonacci.c] reads from the command line. *)
Definition cantidad_pedida (argv : list string) : Z :=
  Libc.atoi (PiP.argumento argv 1).

(** Nothing stands in the way of the Fibonacci thread. *)
Definition fib_sin_fallo (e : FibonacciMain.entorno) : Prop :=
  FibonacciMain.reserva_secuencia e = true
  /\ FibonacciMain.reserva_argumentos e = true
  /\ FibonacciMain.codigo_crear e = 0
  /\ FibonacciMain.codigo_unir e = 0.

(** What [main] of [pi.c] reads from the command line. *)
Definition intervalos_secuencial (argv : list string) : Z :=
  if Z.of_nat (length argv) >=? 2 then Libc.atoi (PiP.argumento argv 1)
  else PiMain.N_INTERVALOS_POR_DEFECTO.

(** Environments for the examples. *)
Definition fib_entorno_sin_fallos : FibonacciMain.entorno :=
  {| FibonacciMain.reserva_secuencia := true;
     FibonacciMain.reserva_argumentos := true;
     FibonacciMain.basura := fun i => 7 + Z.of_nat i;
     FibonacciMain.codigo_crear := 0;
     FibonacciMain.codigo_unir := 0 |}.

Definition pi_entorno : PiMain.entorno :=
  {| PiMain.instante_inicio := {| PiP.tv_sec := 10; PiP.tv_nsec := 0 |};
     PiMain.instante_fin :=
       {| PiP.tv_sec := 11; PiP.tv_nsec := 500000000 |} |}.

(** * Machine integers and loops *)

Section Enteros.

Import C.

Lemma a_int_id (z : Z) : es_int z -> a_int z = z.
Proof.
  unfold es_int, a_int, INT_MIN, INT_MAX. intros Hz.
  rewrite Z.mod_small; lia.
Qed.

Lemma suma_int_id (a b : Z) : es_int (a + b) -> suma_int a b = a + b.
Proof. apply a_int_id. Qed.

(** The rule of the [for] loop: an invariant [P i s] of the counter and
    the state, kept by the body on every index of [i0 .. fin - 1], holds
    of the final state at [fin], and the loop needs [fin - i0 + 1] units
    of fuel. *)
Lemma para_int_inv {S : Type} (P : Z -> S -> Prop) (cuerpo : Z -> S -> S)
      (fin : Z) (combustible : nat) :
  forall (i : Z) (s : S),
    INT_MIN <= i <= fin -> fin <= INT_MAX ->
    (Z.to_nat (fin - i) < combustible)%nat ->
    P i s ->
    (forall k s, i <= k < fin -> P k s -> P (k + 1) (cuerpo k s)) ->
    exists s', para_int combustible i fin cuerpo s = Some s' /\ P fin s'.
Proof.
  induction combustible as [|c IH]; intros i s Hi Hfin Hc HP Hpaso;
    [lia|].
  simpl. destruct (Z.ltb_spec i fin) as [Hlt|Hge].
  - rewrite suma_int_id by (unfold es_int; lia).
    apply IH; [lia | lia | lia | apply Hpaso; [lia | exact HP] |].
    intros k s0 Hk. apply Hpaso. lia.
  - exists s. split; [reflexivity|].
    replace fin with i by lia. exact HP.
Qed.

(** The loop computes the left fold of its body over the indices in
    increasing order. *)
Lemma para_int_fold {S : Type} (cuerpo : Z -> S -> S) (fin : Z)
      (combustible : nat) (i : Z) (s : S) :
  INT_MIN <= i <= fin -> fin <= INT_MAX ->
  (Z.to_nat (fin - i) < combustible)%nat ->
  para_int combustible i fin cuerpo s
  = Some (fold_left (fun s k => cuerpo k s) (seqZ i (fin - i)) s).
Proof.
  intros Hi Hfin Hc.
  destruct (para_int_inv
              (fun k s' =>
                 s' = fold_left (fun s k => cuerpo k s) (seqZ i (k - i)) s)
              cuerpo fin combustible i s Hi Hfin Hc) as (s' & -> & ->).
  - rewrite Z.sub_diag. reflexivity.
  - intros k s0 Hk ->.
    replace (k + 1 - i) with ((k - i) + 1) by lia.
    rewrite seqZ_app by lia. rewrite fold_left_app.
    replace (i + (k - i)) with k by lia. reflexivity.
  - reflexivity.
Qed.

End Enteros.

(** * fibonacci.c *)

Section Fibonacci_correcto.

Import Fibonacci.

Lemma fib_suma (n : nat) : fib (S (S n)) = fib (S n) + fib n.
Proof. reflexivity. Qed.

Lemma fib_inv_paso (inicial : list Z) (i : Z) (a : list Z) :
  2 <= i -> i < Z.of_nat (length inicial) ->
  fib_inv inicial i a ->
  fib_inv inicial (i + 1)
    (escribir a i (C.suma_ull (leer a (i - 1)) (leer a (i - 2)))).
Proof.
  intros Hi Hlen (Hl & Hpre & Hpost). unfold escribir, leer.
  rewrite (Hpre (Z.to_nat (i - 1))), (Hpre (Z.to_nat (i - 2))) by lia.
  simpl. repeat split.
  - rewrite length_insert. exact Hl.
  - intros k Hk. destruct (decide (k = Z.to_nat i)) as [->|Hne].
    + rewrite list_lookup_insert_eq by lia. f_equal.
      unfold C.suma_ull, C.a_ull. rewrite <- Zplus_mod.
      replace (Z.to_nat i) with (S (S (Z.to_nat (i - 2)))) by lia.
      rewrite fib_suma.
      replace (Z.to_nat (i - 1)) with (S (Z.to_nat (i - 2))) by lia.
      reflexivity.
    + rewrite list_lookup_insert_ne by congruence. apply Hpre. lia.
  - intros k Hk. rewrite list_lookup_insert_ne by lia. apply Hpost. lia.
Qed.

(** C10: for every [N >= 1] the worker leaves in the first [N] elements of
    the array the Fibonacci numbers modulo [2^64], in order: element 0 is
    0, element 1 is 1 when [N >= 2], every element [i] with [2 <= i < N]
    is the sum modulo [2^64] of the two before it; the array keeps its
    length and every element from [N] on is as it was. *)
Theorem trabajador_fibonacci_correcto
        (combustible : nat) (inicial : list Z) (N : Z) :
  1 <= N <= C.INT_MAX ->
  N <= Z.of_nat (length inicial) ->
  (Z.to_nat N < combustible)%nat ->
  exists final : list Z,
    trabajador_fibonacci combustible
      {| arreglo := inicial; cantidad := N |} = Some final
    /\ length final = length inicial
    /\ (forall i : nat, (i < Z.to_nat N)%nat ->
                        final !! i = Some (fib i mod 2 ^ 64))
    /\ final !! 0%nat = Some 0
    /\ (2 <= N -> final !! 1%nat = Some 1)
    /\ (forall i : Z, 2 <= i < N ->
                      leer final i
                      = (leer final (i - 1) + leer final (i - 2)) mod 2 ^ 64)
    /\ (forall i : nat, (Z.to_nat N <= i)%nat -> final !! i = inicial !! i).
Proof.
  intros HN Hlen Hc. unfold trabajador_fibonacci; simpl.
  destruct (Z.leb_spec N 0) as [?|_]; [lia|].
  destruct (Z.geb_spec N 1) as [_|?]; [|lia].
  assert (Hfin : forall final, fib_inv inicial N final ->
    length final = length inicial
    /\ (forall i : nat, (i < Z.to_nat N)%nat ->
                        final !! i = Some (fib i mod 2 ^ 64))
    /\ final !! 0%nat = Some 0
    /\ (2 <= N -> final !! 1%nat = Some 1)
    /\ (forall i : Z, 2 <= i < N ->
                      leer final i
                      = (leer final (i - 1) + leer final (i - 2)) mod 2 ^ 64)
    /\ (forall i : nat, (Z.to_nat N <= i)%nat -> final !! i = inicial !! i)).
  { intros final (Hl & Hpre & Hpost). repeat split; try assumption.
    - rewrite Hpre by lia. reflexivity.
    - intros H2. rewrite Hpre by lia. reflexivity.
    - intros i Hi. unfold leer.
      rewrite (Hpre (Z.to_nat i)), (Hpre (Z.to_nat (i - 1))),
        (Hpre (Z.to_nat (i - 2))) by lia.
      simpl. rewrite <- Zplus_mod.
      replace (Z.to_nat i) with (S (S (Z.to_nat (i - 2)))) by lia.
      rewrite fib_suma.
      replace (Z.to_nat (i - 1)) with (S (Z.to_nat (i - 2))) by lia.
      reflexivity. }
  destruct (Z.geb_spec N 2) as [H2|H1].
  - destruct (para_int_inv (fib_inv inicial)
                (fun i arreglo =>
                   escribir arreglo i
                     (C.suma_ull (leer arreglo (i - 1))
                                 (leer arreglo (i - 2))))
                N combustible 2
                (escribir (escribir inicial 0 0) 1 1))
      as (final & Hrun & Hinv).
    + unfold C.INT_MIN. lia.
    + lia.
    + lia.
    + unfold escribir. repeat split.
      * rewrite !length_insert. reflexivity.
      * intros k Hk. destruct k as [|[|k]]; [| |lia].
        -- rewrite list_lookup_insert_ne by lia.
           rewrite list_lookup_insert_eq by lia. reflexivity.
        -- rewrite list_lookup_insert_eq by (rewrite length_insert; lia).
           reflexivity.
      * intros k Hk. rewrite !list_lookup_insert_ne by lia. reflexivity.
    + intros k s Hk. apply fib_inv_paso; lia.
    + exists final. split; [exact Hrun | apply Hfin, Hinv].
  - assert (N = 1) as -> by lia.
    destruct combustible as [|c]; [lia|]. simpl.
    exists (escribir inicial 0 0). split; [reflexivity|].
    apply Hfin. unfold escribir. repeat split.
    + rewrite length_insert. reflexivity.
    + intros k Hk. destruct k; [|lia].
      rewrite list_lookup_insert_eq by lia. reflexivity.
    + intros k Hk. rewrite list_lookup_insert_ne by lia. reflexivity.
Qed.

End Fibonacci_correcto.

(** * pi_p.c: loops with effects *)

Section Bucles.

Import C PiP.

(** A loop whose body returns at every index: [St k] and [Tr k] are the
    state and the trace before iteration [k]. *)
Lemma para_M_retorna {S : Type} (St : Z -> S) (Tr : Z -> list evento)
      (cuerpo : Z -> S -> M S) (fin : Z) (combustible : nat) :
  forall i : Z,
    INT_MIN <= i <= fin -> fin <= INT_MAX ->
    (Z.to_nat (fin - i) < combustible)%nat ->
    (forall k, i <= k < fin ->
               cuerpo k (St k) (Tr k) = (Retorna (St (k + 1)), Tr (k + 1))) ->
    para_M combustible i fin cuerpo (St i) (Tr i)
    = (Retorna (St fin), Tr fin).
Proof.
  induction combustible as [|c IH]; intros i Hi Hfin Hc Hpaso; [lia|].
  simpl. destruct (Z.ltb_spec i fin) as [Hlt|Hge].
  - unfold ligar at 1. rewrite Hpaso by lia.
    rewrite suma_int_id by (unfold es_int; lia).
    apply IH; [lia | lia | lia |]. intros k Hk. apply Hpaso. lia.
  - replace fin with i by lia. reflexivity.
Qed.

(** A loop whose body returns at every index before [kf] and ends the
    process at [kf]. *)
Lemma para_M_sale {S : Type} (St : Z -> S) (Tr : Z -> list evento)
      (cuerpo : Z -> S -> M S) (fin kf codigo : Z) (t' : list evento)
      (combustible : nat) :
  forall i : Z,
    INT_MIN <= i <= kf -> kf < fin -> fin <= INT_MAX ->
    (Z.to_nat (kf - i) < combustible)%nat ->
    (forall k, i <= k < kf ->
               cuerpo k (St k) (Tr k) = (Retorna (St (k + 1)), Tr (k + 1))) ->
    cuerpo kf (St kf) (Tr kf) = (Sale codigo, t') ->
    para_M combustible i fin cuerpo (St i) (Tr i) = (Sale codigo, t').
Proof.
  induction combustible as [|c IH]; intros i Hi Hkf Hfin Hc Hpaso Hsale;
    [lia|].
  simpl. destruct (Z.ltb_spec i fin) as [Hlt|Hge]; [|lia].
  unfold ligar at 1. destruct (Z.eq_dec i kf) as [->|Hne].
  - rewrite Hsale. reflexivity.
  - rewrite Hpaso by lia.
    rewrite suma_int_id by (unfold es_int; lia).
    apply IH; [lia | lia | lia | lia | | exact Hsale].
    intros k Hk. apply Hpaso. lia.
Qed.

End Bucles.

(** * pi_p.c: the partition *)

Section Particion.

Import C PiP.

Variables n h : Z.
Hypothesis Hn : 0 < n <= INT_MAX.
Hypothesis Hh : 0 < h <= INT_MAX.

Lemma div_int_positivo : div_int n h = n / h.
Proof.
  unfold div_int. rewrite Z.quot_div_nonneg by lia.
  apply a_int_id. unfold es_int, INT_MIN, INT_MAX in *.
  assert (0 <= n / h) by (apply Z.div_pos; lia).
  assert (n / h <= n) by (apply Z.div_le_upper_bound; nia).
  lia.
Qed.

Lemma resto_int_positivo : resto_int n h = n mod h.
Proof.
  unfold resto_int. rewrite Z.rem_mod_nonneg by lia.
  apply a_int_id. unfold es_int, INT_MIN, INT_MAX in *.
  pose proof (Z.mod_pos_bound n h). lia.
Qed.

Lemma inicio_de_0 : inicio_de n h 0 = 0.
Proof.
  unfold inicio_de. pose proof (Z.mod_pos_bound n h). lia.
Qed.

Lemma inicio_de_h : inicio_de n h h = n.
Proof.
  unfold inicio_de. pose proof (Z.mod_pos_bound n h).
  pose proof (Z.div_mod n h). lia.
Qed.

Lemma inicio_de_siguiente (k : Z) :
  inicio_de n h (k + 1)
  = inicio_de n h k + n / h + (if k <? n mod h then 1 else 0).
Proof.
  unfold inicio_de. destruct (Z.ltb_spec k (n mod h)); lia.
Qed.

Lemma inicio_de_monotono (j k : Z) :
  0 <= j <= k -> inicio_de n h j <= inicio_de n h k.
Proof.
  intros Hjk. unfold inicio_de.
  assert (0 <= n / h) by (apply Z.div_pos; lia).
  assert (j * (n / h) <= k * (n / h)) by nia. lia.
Qed.

Lemma inicio_de_cotas (k : Z) : 0 <= k <= h -> 0 <= inicio_de n h k <= n.
Proof.
  intros Hk.
  pose proof (inicio_de_monotono 0 k). pose proof (inicio_de_monotono k h).
  rewrite inicio_de_0 in *. rewrite inicio_de_h in *. lia.
Qed.

Lemma tamano_elemento (k : Z) :
  tamano (elemento n h k) = n / h + (if k <? n mod h then 1 else 0).
Proof.
  unfold tamano, elemento; simpl. rewrite inicio_de_siguiente. lia.
Qed.

(** With at most [n] workers no range is empty. *)
Lemma elemento_no_vacio (k : Z) :
  h <= n -> 0 <= k < h -> 0 < tamano (elemento n h k).
Proof.
  intros Hle Hk. rewrite tamano_elemento.
  assert (1 <= n / h) by (apply Z.div_le_lower_bound; lia).
  destruct (k <? n mod h); lia.
Qed.

(** With more than [n] workers the ranges from [n] on are empty and the
    ranges before are not. *)
Lemma elemento_vacio (k : Z) :
  n < h -> 0 <= k -> (tamano (elemento n h k) = 0 <-> n <= k).
Proof.
  intros Hlt Hk. rewrite tamano_elemento.
  rewrite Z.div_small, Z.mod_small by lia.
  destruct (Z.ltb_spec k n); lia.
Qed.

End Particion.

(** * pi_p.c: the two loops of [calcular_pi_paralelo] *)

Section Coordinador.

Import C PiP.

Lemma seqZ_siguiente (k : Z) : 0 <= k -> seqZ 0 (k + 1) = seqZ 0 k ++ [k].
Proof.
  intros Hk. rewrite seqZ_app by lia. rewrite (seqZ_cons _ 1) by lia.
  rewrite (seqZ_nil _ (Z.pred 1)) by lia. reflexivity.
Qed.

Lemma insertar_siguiente {A : Type} (f : Z -> A) (x : A) (h k : Z) :
  0 <= k < h ->
  <[Z.to_nat k := f k]>
    ((f <$> seqZ 0 k) ++ replicate (Z.to_nat (h - k)) x)
  = (f <$> seqZ 0 (k + 1)) ++ replicate (Z.to_nat (h - (k + 1))) x.
Proof.
  intros Hk.
  replace (Z.to_nat k) with (length (f <$> seqZ 0 k) + 0)%nat
    by (rewrite length_fmap, length_seqZ; lia).
  rewrite insert_app_r.
  replace (Z.to_nat (h - k)) with (S (Z.to_nat (h - (k + 1)))) by lia.
  simpl. rewrite seqZ_siguiente by lia. rewrite fmap_app.
  rewrite <- app_assoc. reflexivity.
Qed.

Lemma buscar_siguiente {A : Type} (f : Z -> A) (x : A) (h k : Z) :
  0 <= k < h ->
  ((f <$> seqZ 0 (k + 1)) ++ replicate (Z.to_nat (h - (k + 1))) x)
    !! Z.to_nat k = Some (f k).
Proof.
  intros Hk. rewrite lookup_app_l by (rewrite length_fmap, length_seqZ; lia).
  rewrite list_lookup_fmap, lookup_seqZ_lt by lia. simpl. f_equal. f_equal.
  lia.
Qed.

Lemma aportes_hasta_siguiente (e : entorno) (n h k : Z) :
  0 <= k ->
  aportes_hasta e n h (k + 1)
  = aportes_hasta e n h k ++ (if ausente e k then [] else [parcial n h k]).
Proof.
  intros Hk. unfold aportes_hasta. rewrite seqZ_siguiente by lia.
  rewrite filter_app, fmap_app. f_equal.
  destruct (ausente e k) eqn:Ha.
  - rewrite filter_cons_False by congruence. reflexivity.
  - rewrite filter_cons_True by assumption. reflexivity.
Qed.

Lemma suma_hasta_siguiente (e : entorno) (n h k : Z) :
  0 <= k ->
  suma_hasta e n h (k + 1)
  = if ausente e k then suma_hasta e n h k
    else (suma_hasta e n h k + parcial n h k)%float.
Proof.
  intros Hk. unfold suma_hasta, suma_en_orden.
  rewrite aportes_hasta_siguiente by lia. rewrite fold_left_app.
  destruct (ausente e k); reflexivity.
Qed.

Lemma recolecciones_siguiente (e : entorno) (k : Z) :
  0 <= k -> recolecciones e (k + 1) = recolecciones e k ++ recoleccion e k.
Proof.
  intros Hk. unfold recolecciones. rewrite seqZ_siguiente by lia.
  rewrite fmap_app, concat_app. simpl. rewrite app_nil_r. reflexivity.
Qed.

Variable e : entorno.
Variables n h : Z.
Variable combustible : nat.
Hypothesis Hn : 0 < n <= INT_MAX.
Hypothesis Hh : 0 < h <= INT_MAX.
Hypothesis Hcn : (Z.to_nat n < combustible)%nat.
Hypothesis Hch : (Z.to_nat h < combustible)%nat.

(** The thread function on the range of worker [k]. *)
Lemma trabajo_suma_parcial_elemento (k : Z) (reserva : bool) :
  0 <= k < h ->
  trabajo_suma_parcial combustible reserva (elemento n h k)
  = Some (if reserva then Some (parcial n h k) else None).
Proof.
  intros Hk. unfold trabajo_suma_parcial; simpl.
  pose proof (inicio_de_cotas n h Hn Hh k ltac:(lia)).
  pose proof (inicio_de_cotas n h Hn Hh (k + 1) ltac:(lia)).
  pose proof (inicio_de_monotono n h Hn Hh k (k + 1) ltac:(lia)).
  rewrite para_int_fold by (unfold INT_MIN, INT_MAX in *; lia).
  reflexivity.
Qed.

(** One iteration of the first loop when the thread is created. *)
Lemma lanzar_hilo_exito (k : Z) (t : list evento) :
  0 <= k < h -> codigo_crear e k = 0 ->
  lanzar_hilo combustible e (div_int n h) (resto_int n h)
              (1 / double_de_int n)%float k (arreglos_en e n h k) t
  = (Retorna (arreglos_en e n h (k + 1)), t ++ [Crear k 0]).
Proof.
  intros Hk Hcrear. unfold lanzar_hilo, arreglos_en; simpl.
  rewrite div_int_positivo, resto_int_positivo by assumption.
  pose proof (inicio_de_cotas n h Hn Hh k ltac:(lia)) as Hk0.
  pose proof (inicio_de_cotas n h Hn Hh (k + 1) ltac:(lia)) as Hk1.
  pose proof (inicio_de_siguiente n h k) as Hsig.
  assert (0 <= n / h) by (apply Z.div_pos; lia).
  assert (Hfin : suma_int (suma_int (inicio_de n h k) (n / h))
                          (if k <? n mod h then 1 else 0)
                 = inicio_de n h (k + 1)).
  { rewrite (suma_int_id (inicio_de n h k)).
    - rewrite suma_int_id; [lia|]. unfold es_int, INT_MIN, INT_MAX in *.
      lia.
    - unfold es_int, INT_MIN, INT_MAX in *.
      destruct (k <? n mod h); lia. }
  rewrite Hfin. fold (elemento n h k).
  rewrite !insertar_siguiente by lia.
  unfold leer_datos. rewrite buscar_siguiente by lia. simpl.
  rewrite Hcrear. unfold ligar, emitir; simpl.
  rewrite trabajo_suma_parcial_elemento by lia.
  unfold ret. f_equal. f_equal. f_equal.
  rewrite <- (insertar_siguiente (fun j => Some (retorno_de e n h j))) by lia.
  reflexivity.
Qed.

(** The first loop when every thread is created. *)
Lemma lanzar_exito (t : list evento) :
  (forall k, 0 <= k < h -> codigo_crear e k = 0) ->
  lanzar combustible e n h t
  = (Retorna (arreglos_en e n h h), t ++ lanzamientos h).
Proof.
  intros Hcrear. unfold lanzar.
  assert (Hini : {| inicio_actual := 0;
                    hilos := replicate (Z.to_nat h) None;
                    datos_hilos := replicate (Z.to_nat h) (basura e) |}
                 = arreglos_en e n h 0).
  { unfold arreglos_en. rewrite inicio_de_0, Z.sub_0_r by lia.
    reflexivity. }
  rewrite Hini.
  replace t with (t ++ lanzamientos 0) at 1 by apply app_nil_r.
  apply (para_M_retorna (arreglos_en e n h) (fun k => t ++ lanzamientos k)).
  - unfold INT_MIN. lia.
  - lia.
  - lia.
  - intros k Hk. rewrite lanzar_hilo_exito by auto.
    f_equal. unfold lanzamientos. rewrite seqZ_siguiente by lia.
    rewrite fmap_app, app_assoc. reflexivity.
Qed.

Lemma leer_retorno_lanzado (k : Z) :
  0 <= k < h ->
  leer_retorno (hilos (arreglos_en e n h h)) k = retorno_de e n h k.
Proof.
  intros Hk. unfold leer_retorno, arreglos_en; simpl.
  rewrite lookup_app_l by (rewrite length_fmap, length_seqZ; lia).
  rewrite list_lookup_fmap, lookup_seqZ_lt by lia. simpl.
  replace (0 + Z.of_nat (Z.to_nat k)) with k by lia. reflexivity.
Qed.

(** One iteration of the second loop. *)
Lemma recolectar_hilo_paso (k : Z) (t : list evento) :
  0 <= k < h ->
  recolectar_hilo e (hilos (arreglos_en e n h h)) k (suma_hasta e n h k) t
  = (Retorna (suma_hasta e n h (k + 1)), t ++ recoleccion e k).
Proof.
  intros Hk. unfold recolectar_hilo.
  rewrite leer_retorno_lanzado, suma_hasta_siguiente by lia.
  unfold ausente, recoleccion, retorno_de, ligar, emitir, ret.
  destruct (codigo_unir e k =? 0); simpl.
  - destruct (reserva_resultado e k); simpl.
    + reflexivity.
    + rewrite <- app_assoc. reflexivity.
  - rewrite <- app_assoc. reflexivity.
Qed.

(** The second loop. *)
Lemma recolectar_exito (t : list evento) :
  recolectar combustible e (hilos (arreglos_en e n h h)) h t
  = (Retorna (suma_en_orden (aportes e n h)), t ++ recolecciones e h).
Proof.
  unfold recolectar.
  replace t with (t ++ recolecciones e 0) at 1 by apply app_nil_r.
  change 0%float with (suma_hasta e n h 0).
  apply (para_M_retorna (suma_hasta e n h)
                        (fun k => t ++ recolecciones e k)).
  - unfold INT_MIN. lia.
  - lia.
  - lia.
  - intros k Hk. rewrite recolectar_hilo_paso by lia.
    rewrite recolecciones_siguiente, app_assoc by lia. reflexivity.
Qed.

(** The whole function when the arrays are allocated and every thread is
    created: whatever the joins report and whatever the threads return, it
    returns [paso] times the sum of the partial sums that are present. *)
Lemma calcular_pi_paralelo_retorna (t : list evento) :
  reserva_hilos e = true -> reserva_datos e = true ->
  (forall k, 0 <= k < h -> codigo_crear e k = 0) ->
  calcular_pi_paralelo combustible e n h t
  = (Retorna (1 / double_de_int n * suma_en_orden (aportes e n h))%float,
     t ++ lanzamientos h ++ recolecciones e h).
Proof.
  intros Hrh Hrd Hcrear. unfold calcular_pi_paralelo.
  rewrite Hrh, Hrd. simpl. unfold ligar at 1.
  rewrite lanzar_exito by assumption.
  unfold ligar. rewrite recolectar_exito. unfold ret.
  rewrite app_assoc. reflexivity.
Qed.

(** The joins of the threads before [k] when the launch of [k] fails. *)
Lemma unir_lanzados (k : Z) (t : list evento) :
  0 <= k < h ->
  para_M combustible 0 k (fun j _ => emitir (Unir j)) tt t
  = (Retorna tt, t ++ (Unir <$> seqZ 0 k)).
Proof.
  intros Hk.
  replace t with (t ++ (Unir <$> seqZ 0 0)) at 1 by apply app_nil_r.
  apply (para_M_retorna (fun _ => tt) (fun j => t ++ (Unir <$> seqZ 0 j))).
  - unfold INT_MIN. lia.
  - lia.
  - lia.
  - intros j Hj. unfold emitir. rewrite seqZ_siguiente by lia.
    rewrite fmap_app, app_assoc. reflexivity.
Qed.

(** The first loop when the launch of thread [k] fails and the launches
    before it succeed. *)
Lemma lanzar_fallo (k : Z) (t : list evento) :
  0 <= k < h ->
  (forall j, 0 <= j < k -> codigo_crear e j = 0) ->
  codigo_crear e k <> 0 ->
  lanzar combustible e n h t
  = (Sale EXIT_FAILURE,
     t ++ lanzamientos k
       ++ [Crear k (codigo_crear e k);
           Stderr_error_crear k (codigo_crear e k)]
       ++ (Unir <$> seqZ 0 k)).
Proof.
  intros Hk Hantes Hfallo. unfold lanzar.
  assert (Hini : {| inicio_actual := 0;
                    hilos := replicate (Z.to_nat h) None;
                    datos_hilos := replicate (Z.to_nat h) (basura e) |}
                 = arreglos_en e n h 0).
  { unfold arreglos_en. rewrite inicio_de_0, Z.sub_0_r by lia.
    reflexivity. }
  rewrite Hini.
  replace t with (t ++ lanzamientos 0) at 1 by apply app_nil_r.
  apply (para_M_sale (arreglos_en e n h) (fun j => t ++ lanzamientos j)
                     _ h k).
  - unfold INT_MIN. lia.
  - lia.
  - lia.
  - lia.
  - intros j Hj. rewrite lanzar_hilo_exito by (auto; lia).
    f_equal. unfold lanzamientos. rewrite seqZ_siguiente by lia.
    rewrite fmap_app, app_assoc. reflexivity.
  - unfold lanzar_hilo. unfold ligar at 1. unfold emitir at 1.
    destruct (Z.eqb_spec (codigo_crear e k) 0) as [?|_]; [contradiction|].
    simpl. unfold ligar at 1. unfold emitir at 1.
    unfold ligar at 1. rewrite unir_lanzados by lia.
    unfold salir. rewrite <- !app_assoc. reflexivity.
Qed.

End Coordinador.

(** * pi_p.c: the partition that [calcular_pi_paralelo] builds *)

Section Particion_completa.

Import C PiP.

Lemma filtrar_todos {A : Type} (P : A -> Prop) `{forall x, Decision (P x)}
      (l : list A) : Forall P l -> filter P l = l.
Proof.
  induction 1 as [|x l Hx _ IH]; [reflexivity|].
  rewrite filter_cons_True by assumption. f_equal. exact IH.
Qed.

Lemma filtrar_ninguno {A : Type} (P : A -> Prop) `{forall x, Decision (P x)}
      (l : list A) : Forall (fun x => ~ P x) l -> filter P l = [].
Proof.
  induction 1 as [|x l Hx _ IH]; [reflexivity|].
  rewrite filter_cons_False by assumption. exact IH.
Qed.

Lemma buscar_elemento (n h : Z) (k : nat) (d : DatosHilo) :
  (elemento n h <$> seqZ 0 h) !! k = Some d
  <-> Z.of_nat k < h /\ d = elemento n h (Z.of_nat k).
Proof.
  rewrite list_lookup_fmap. split.
  - intros Hd. destruct (seqZ 0 h !! k) as [j|] eqn:Hj; [|discriminate].
    apply lookup_seqZ in Hj as [-> Hk]. simpl in Hd.
    inversion Hd. split; [lia | reflexivity].
  - intros [Hk ->]. rewrite lookup_seqZ_lt by lia. reflexivity.
Qed.

(** Every index of [0 .. n - 1] lies in the range of some worker. *)
Lemma indice_cubierto (n h i : Z) :
  0 < n <= INT_MAX -> 0 < h <= INT_MAX -> 0 <= i < n ->
  exists k, 0 <= k < h /\ en_rango (elemento n h k) i.
Proof.
  intros Hn Hh Hi.
  assert (Hm : forall m : nat,
             Z.of_nat m <= h -> i < inicio_de n h (Z.of_nat m) ->
             exists k, 0 <= k < Z.of_nat m /\ en_rango (elemento n h k) i).
  { induction m as [|m IH]; intros Hmh Him.
    - simpl in Him. rewrite inicio_de_0 in Him by lia. lia.
    - destruct (Z_lt_le_dec i (inicio_de n h (Z.of_nat m))) as [Hlt|Hge].
      + destruct IH as (k & Hk & Hr); [lia | exact Hlt |].
        exists k. split; [lia | exact Hr].
      + exists (Z.of_nat m). split; [lia|].
        unfold en_rango, elemento; simpl.
        replace (Z.of_nat m + 1) with (Z.of_nat (S m)) by lia. lia. }
  destruct (Hm (Z.to_nat h)) as (k & Hk & Hr).
  - lia.
  - rewrite Z2Nat.id by lia. rewrite inicio_de_h by lia. lia.
  - exists k. split; [lia | exact Hr].
Qed.

(** C1: for [n > 0] and [h > 0] (and every thread created) the first loop
    of [calcular_pi_paralelo] fills [datos_hilos] with [h] ranges that are
    contiguous, start at 0 and end at [n], are pairwise disjoint and cover
    exactly [0 .. n - 1]; range [k] has [n / h + 1] indices when
    [k < n mod h] and [n / h] otherwise; no range is empty when [h <= n],
    and exactly [h - n] ranges are empty when [h > n]; the loop returns,
    an empty range is no error. *)
Theorem particion_completa (e : entorno) (combustible : nat) (n h : Z)
        (t : list evento) :
  0 < n <= INT_MAX -> 0 < h <= INT_MAX ->
  (Z.to_nat n < combustible)%nat -> (Z.to_nat h < combustible)%nat ->
  (forall k, 0 <= k < h -> codigo_crear e k = 0) ->
  exists (a : arreglos) (t' : list evento),
    lanzar combustible e n h t = (Retorna a, t')
    /\ length (datos_hilos a) = Z.to_nat h
    /\ (forall (k : nat) d,
           datos_hilos a !! k = Some d ->
           paso d = (1 / double_de_int n)%float
           /\ 0 <= indice_inicio d <= indice_fin d
           /\ tamano d = n / h + (if Z.of_nat k <? n mod h then 1 else 0))
    /\ (exists d, datos_hilos a !! 0%nat = Some d /\ indice_inicio d = 0)
    /\ (exists d, datos_hilos a !! Z.to_nat (h - 1) = Some d
                  /\ indice_fin d = n)
    /\ (forall (k : nat) d d',
           datos_hilos a !! k = Some d -> datos_hilos a !! S k = Some d' ->
           indice_fin d = indice_inicio d')
    /\ (forall (j k : nat) dj dk,
           j <> k ->
           datos_hilos a !! j = Some dj -> datos_hilos a !! k = Some dk ->
           forall i, ~ (en_rango dj i /\ en_rango dk i))
    /\ (forall i, 0 <= i < n
                  <-> exists (k : nat) d,
                        datos_hilos a !! k = Some d /\ en_rango d i)
    /\ (h <= n -> forall (k : nat) d,
           datos_hilos a !! k = Some d -> 0 < tamano d)
    /\ (n < h ->
        length (filter (fun d => tamano d = 0) (datos_hilos a))
        = Z.to_nat (h - n)).
Proof.
  intros Hn Hh Hcn Hch Hcrear.
  exists (arreglos_en e n h h), (t ++ lanzamientos h).
  split; [apply lanzar_exito; assumption|].
  unfold arreglos_en; simpl. rewrite Z.sub_diag; simpl.
  rewrite app_nil_r.
  assert (Hcotas := inicio_de_cotas n h Hn Hh).
  assert (Hmono := inicio_de_monotono n h Hn Hh).
  split; [rewrite length_fmap, length_seqZ; reflexivity|].
  split.
  { intros k d [Hk ->]%buscar_elemento. split; [reflexivity|]. split.
    - simpl. specialize (Hcotas (Z.of_nat k)).
      specialize (Hmono (Z.of_nat k) (Z.of_nat k + 1)). lia.
    - apply tamano_elemento; assumption. }
  split.
  { exists (elemento n h 0). split.
    - apply buscar_elemento. split; [lia | reflexivity].
    - apply inicio_de_0; assumption. }
  split.
  { exists (elemento n h (h - 1)). split.
    - apply buscar_elemento. split; [lia | f_equal; lia].
    - simpl. replace (h - 1 + 1) with h by lia.
      apply inicio_de_h; assumption. }
  split.
  { intros k d d' [Hk ->]%buscar_elemento [Hk' ->]%buscar_elemento.
    simpl. f_equal. lia. }
  split.
  { intros j k dj dk Hjk [Hj ->]%buscar_elemento [Hk ->]%buscar_elemento i.
    unfold en_rango; simpl. intros [Hij Hik].
    destruct (Nat.lt_ge_cases j k) as [Hlt|Hge].
    - specialize (Hmono (Z.of_nat j + 1) (Z.of_nat k)). lia.
    - specialize (Hmono (Z.of_nat k + 1) (Z.of_nat j)). lia. }
  split.
  { intros i. split.
    - intros Hi. destruct (indice_cubierto n h i Hn Hh Hi) as (k & Hk & Hr).
      exists (Z.to_nat k), (elemento n h k). split; [|exact Hr].
      apply buscar_elemento. split; [lia | f_equal; lia].
    - intros (k & d & [Hk ->]%buscar_elemento & Hr).
      unfold en_rango in Hr; simpl in Hr.
      pose proof (Hcotas (Z.of_nat k)). pose proof (Hcotas (Z.of_nat k + 1)).
      lia. }
  split.
  { intros Hle k d [Hk ->]%buscar_elemento.
    apply elemento_no_vacio; lia. }
  intros Hlt.
  replace (seqZ 0 h) with (seqZ 0 (n + (h - n))) by (f_equal; lia).
  rewrite seqZ_app, fmap_app, filter_app, length_app by lia.
  rewrite filtrar_ninguno, filtrar_todos.
  - rewrite length_fmap, length_seqZ. reflexivity.
  - apply Forall_fmap, Forall_seqZ. intros k Hk. simpl.
    apply elemento_vacio; lia.
  - apply Forall_fmap, Forall_seqZ. intros k Hk. simpl.
    rewrite elemento_vacio by lia. lia.
Qed.

End Particion_completa.

(** * pi_p.c: the worker *)

Section Trabajador.

Import C PiP.

Lemma suma_puntos_medios_vacia (paso : float) (a : Z) :
  suma_puntos_medios paso a a = 0%float.
Proof.
  unfold suma_puntos_medios. rewrite seqZ_nil by lia. reflexivity.
Qed.

Lemma suma_puntos_medios_siguiente (paso : float) (a b : Z) :
  a <= b ->
  suma_puntos_medios paso a (b + 1)
  = (suma_puntos_medios paso a b
     + integrando (paso * (double_de_int b + 0.5)))%float.
Proof.
  intros Hab. unfold suma_puntos_medios.
  replace (b + 1 - a) with ((b - a) + 1) by lia.
  rewrite seqZ_app by lia. rewrite fold_left_app.
  rewrite (seqZ_cons _ 1) by lia. rewrite (seqZ_nil _ (Z.pred 1)) by lia.
  simpl. replace (a + (b - a)) with b by lia. reflexivity.
Qed.

(** C3: on a range with [indice_inicio <= indice_fin], the thread function
    whose allocation succeeds returns a pointer to the sum, accumulated
    from [0.0] in increasing order of [i], of [4 / (1 + x^2)] at
    [x = paso * (i + 0.5)] for [i] from [indice_inicio] to
    [indice_fin - 1]; on an empty range the sum is [0.0].  The accumulator
    is the state of the thread's own loop. *)
Theorem trabajo_suma_parcial_correcto (combustible : nat) (d : DatosHilo) :
  INT_MIN <= indice_inicio d -> indice_inicio d <= indice_fin d ->
  indice_fin d <= INT_MAX ->
  (Z.to_nat (indice_fin d - indice_inicio d) < combustible)%nat ->
  trabajo_suma_parcial combustible true d
  = Some (Some (fold_left
                  (fun suma i =>
                     (suma + integrando (paso d * (double_de_int i + 0.5)))
                       %float)
                  (seqZ (indice_inicio d) (indice_fin d - indice_inicio d))
                  0%float))
  /\ (indice_inicio d = indice_fin d ->
      trabajo_suma_parcial combustible true d = Some (Some 0%float))
  /\ suma_puntos_medios (paso d) (indice_inicio d) (indice_inicio d)
     = 0%float
  /\ (forall b, indice_inicio d <= b ->
                suma_puntos_medios (paso d) (indice_inicio d) (b + 1)
                = (suma_puntos_medios (paso d) (indice_inicio d) b
                   + 4 / (1 + paso d * (double_de_int b + 0.5)
                                * (paso d * (double_de_int b + 0.5))))%float).
Proof.
  intros Hmin Hle Hmax Hc.
  assert (Hrun : trabajo_suma_parcial combustible true d
                 = Some (Some (suma_puntos_medios (paso d) (indice_inicio d)
                                                  (indice_fin d)))).
  { unfold trabajo_suma_parcial. rewrite para_int_fold by lia.
    reflexivity. }
  split; [exact Hrun|]. split.
  - intros Heq. rewrite Hrun, <- Heq, suma_puntos_medios_vacia.
    reflexivity.
  - split; [apply suma_puntos_medios_vacia|].
    intros b Hb. apply suma_puntos_medios_siguiente. exact Hb.
Qed.

End Trabajador.

(** * pi_p.c: the result of [calcular_pi_paralelo] *)

Section Resultado.

Import C PiP.

Lemma aportes_todos (e : entorno) (n h : Z) :
  (forall k, 0 <= k < h -> ausente e k = false) ->
  aportes e n h = parcial n h <$> seqZ 0 h.
Proof.
  intros Hok. unfold aportes, aportes_hasta. f_equal.
  apply filtrar_todos, Forall_seqZ. intros k Hk. apply Hok. lia.
Qed.

(** When nothing fails, the value is [paso] times the sum of all the
    partial sums, and the trace is the launches followed by the joins. *)
Lemma calcular_pi_paralelo_todos (e : entorno) (combustible : nat)
      (n h : Z) (t : list evento) :
  0 < n <= INT_MAX -> 0 < h <= INT_MAX ->
  (Z.to_nat n < combustible)%nat -> (Z.to_nat h < combustible)%nat ->
  reserva_hilos e = true -> reserva_datos e = true ->
  (forall k, 0 <= k < h ->
             codigo_crear e k = 0 /\ reserva_resultado e k = true
             /\ codigo_unir e k = 0) ->
  calcular_pi_paralelo combustible e n h t
  = (Retorna (1 / double_de_int n
              * fold_left PrimFloat.add (parcial n h <$> seqZ 0 h) 0)%float,
     t ++ lanzamientos h ++ (Unir <$> seqZ 0 h)).
Proof.
  intros Hn Hh Hcn Hch Hrh Hrd Hok.
  rewrite (calcular_pi_paralelo_retorna e n h combustible)
    by (try assumption; intros k Hk; apply Hok; exact Hk).
  rewrite aportes_todos.
  - do 3 f_equal. unfold recolecciones.
    assert (Hrec : forall l : list Z,
               Forall (fun k => 0 <= k < h) l ->
               concat (recoleccion e <$> l) = Unir <$> l).
    { induction 1 as [|k l Hk _ IH]; [reflexivity|].
      rewrite !fmap_cons. cbn [concat]. rewrite IH. unfold recoleccion.
      destruct (Hok k Hk) as (_ & -> & ->). reflexivity. }
    apply Hrec, Forall_seqZ. intros k Hk. lia.
  - intros k Hk. unfold ausente.
    destruct (Hok k Hk) as (_ & -> & ->). reflexivity.
Qed.

(** C2: for [n > 0] and [h > 0], when every thread is created, returns a
    value and is joined without error, [calcular_pi_paralelo] returns
    [paso * suma], where [paso = 1.0 / n] and [suma] is the sum of the [h]
    partial sums folded from [0.0] in the order of the workers; the
    partial sum of worker [k] is what its thread computes on its range. *)
Theorem calcular_pi_paralelo_suma (e : entorno) (combustible : nat)
        (n h : Z) (t : list evento) :
  0 < n <= INT_MAX -> 0 < h <= INT_MAX ->
  (Z.to_nat n < combustible)%nat -> (Z.to_nat h < combustible)%nat ->
  reserva_hilos e = true -> reserva_datos e = true ->
  (forall k, 0 <= k < h ->
             codigo_crear e k = 0 /\ reserva_resultado e k = true
             /\ codigo_unir e k = 0) ->
  calcular_pi_paralelo combustible e n h t
  = (Retorna (1 / double_de_int n
              * fold_left PrimFloat.add (parcial n h <$> seqZ 0 h) 0)%float,
     t ++ lanzamientos h ++ (Unir <$> seqZ 0 h))
  /\ forall k, 0 <= k < h ->
               trabajo_suma_parcial combustible true (elemento n h k)
               = Some (Some (parcial n h k)).
Proof.
  intros Hn Hh Hcn Hch Hrh Hrd Hok. split.
  - apply calcular_pi_paralelo_todos; assumption.
  - intros k Hk. apply trabajo_suma_parcial_elemento; assumption.
Qed.

End Resultado.

(** * pi_p.c: one sub-interval *)

Section Un_subintervalo.

Import C PiP.

Lemma inicio_de_uno (h k : Z) :
  0 < h -> 1 <= k <= h -> inicio_de 1 h k = 1.
Proof.
  intros Hh Hk. unfold inicio_de. destruct (Z.eq_dec h 1) as [->|Hne].
  - assert (k = 1) as -> by lia. reflexivity.
  - rewrite Z.div_small, Z.mod_small by lia. lia.
Qed.

Lemma suma_de_ceros (l : list float) (s : float) :
  (s + 0 = s)%float -> Forall (fun v => v = 0%float) l ->
  fold_left PrimFloat.add l s = s.
Proof.
  intros Hs Hl. induction Hl as [|v l -> _ IH]; [reflexivity|].
  simpl. rewrite Hs. exact IH.
Qed.

(** C9: with [n = 1] and any [h >= 1] (every thread created, returning a
    value and joined without error) the first range is [0 .. 0], every
    other range is empty, the only partial sum that is not [0.0] is the
    integrand at the midpoint [0.5], and [calcular_pi_paralelo] returns
    [f(0.5) * 1.0 = 3.2]. *)
Theorem un_subintervalo (e : entorno) (combustible : nat) (h : Z)
        (t : list evento) :
  1 <= h <= INT_MAX ->
  (1 < combustible)%nat -> (Z.to_nat h < combustible)%nat ->
  reserva_hilos e = true -> reserva_datos e = true ->
  (forall k, 0 <= k < h ->
             codigo_crear e k = 0 /\ reserva_resultado e k = true
             /\ codigo_unir e k = 0) ->
  calcular_pi_paralelo combustible e 1 h t
  = (Retorna 3.2%float, t ++ lanzamientos h ++ (Unir <$> seqZ 0 h))
  /\ indice_inicio (elemento 1 h 0) = 0
  /\ indice_fin (elemento 1 h 0) = 1
  /\ (forall k, 1 <= k < h -> tamano (elemento 1 h k) = 0)
  /\ parcial 1 h 0 = integrando 0.5%float
  /\ (forall k, 1 <= k < h -> parcial 1 h k = 0%float)
  /\ (integrando 0.5 * 1 = 3.2)%float.
Proof.
  intros Hh Hc1 Hch Hrh Hrd Hok.
  assert (H0 : inicio_de 1 h 0 = 0) by (apply inicio_de_0; lia).
  assert (H1 : inicio_de 1 h (0 + 1) = 1) by (apply inicio_de_uno; lia).
  assert (Hp0 : parcial 1 h 0 = 3.2%float).
  { unfold parcial. rewrite H0, H1. vm_compute. reflexivity. }
  assert (Hpk : forall k, 1 <= k < h -> parcial 1 h k = 0%float).
  { intros k Hk. unfold parcial.
    rewrite !inicio_de_uno by lia. apply suma_puntos_medios_vacia. }
  split.
  { rewrite (calcular_pi_paralelo_todos e combustible 1 h t
               ltac:(unfold INT_MAX; lia) ltac:(lia) ltac:(lia)
               Hch Hrh Hrd Hok).
    do 2 f_equal.
    rewrite (seqZ_cons 0 h) by lia. rewrite fmap_cons. simpl fold_left.
    rewrite Hp0.
    rewrite suma_de_ceros.
    - vm_compute. reflexivity.
    - vm_compute. reflexivity.
    - apply Forall_fmap, Forall_seqZ. intros k Hk. simpl.
      apply Hpk. lia. }
  split; [exact H0|]. split; [exact H1|]. split.
  { intros k Hk. unfold tamano, elemento; simpl.
    rewrite !inicio_de_uno by lia. reflexivity. }
  split; [rewrite Hp0; vm_compute; reflexivity|].
  split; [exact Hpk|]. vm_compute. reflexivity.
Qed.

End Un_subintervalo.

(** * pi_p.c: [main] *)

Section Principal.

Import C PiP.

Lemma a_int_rango (z : Z) : es_int (a_int z).
Proof.
  unfold es_int, a_int, INT_MIN, INT_MAX.
  pose proof (Z.mod_pos_bound (z - -2147483648) (2 ^ 32)). lia.
Qed.

Lemma main_desde_n_eq (combustible : nat) (e : entorno)
      (argv : list string) (t : list evento) :
  main combustible e argv t
  = if hilos_pedidos argv <=? 0 then
      main_desde_n combustible e argv (intervalos_pedidos argv) 1
                   (t ++ [Stderr_hilos_invalido (hilos_pedidos argv)])
    else
      main_desde_n combustible e argv (intervalos_pedidos argv)
                   (hilos_pedidos argv) t.
Proof.
  unfold main, main_desde_n, hilos_pedidos, intervalos_pedidos.
  destruct (_ <=? 0) eqn:Hh; unfold ligar, ret, emitir; simpl;
    (destruct ((_ <=? 0) || _); simpl; [reflexivity|]);
    destruct (calcular_pi_paralelo _ _ _ _ _) as [[v|c|] t']; reflexivity.
Qed.

(** [main] rejects a non-positive [numero_intervalos]. *)
Lemma main_desde_n_rechaza (combustible : nat) (e : entorno)
      (argv : list string) (n h : Z) (t : list evento) :
  n <= 0 ->
  main_desde_n combustible e argv n h t
  = (Retorna EXIT_FAILURE,
     t ++ [Stderr_n_fuera_de_rango; Stderr_uso (argumento argv 0)]).
Proof.
  intros Hn. unfold main_desde_n.
  destruct (Z.leb_spec n 0) as [_|?]; [|lia]. simpl.
  unfold ligar, ret, emitir; simpl. rewrite <- app_assoc. reflexivity.
Qed.

(** [main] on an accepted [numero_intervalos] when the computation
    returns. *)
Lemma main_desde_n_informa (combustible : nat) (e : entorno)
      (argv : list string) (n h : Z) (t t' : list evento) (v : float) :
  0 < n <= INT_MAX ->
  calcular_pi_paralelo combustible e n h t = (Retorna v, t') ->
  main_desde_n combustible e argv n h t
  = (Retorna EXIT_SUCCESS, t' ++ informe e n h v).
Proof.
  intros Hn Hcalc. unfold main_desde_n.
  destruct (Z.leb_spec n 0) as [?|_]; [lia|].
  destruct (Z.gtb_spec n 2147483647) as [?|_];
    [unfold INT_MAX in Hn; lia|].
  simpl. unfold ligar at 1. unfold ligar at 1. rewrite Hcalc.
  unfold ligar, ret, emitir, informe; simpl.
  rewrite <- !app_assoc. reflexivity.
Qed.

(** [main] when the computation ends the process. *)
Lemma main_desde_n_sale (combustible : nat) (e : entorno)
      (argv : list string) (n h codigo : Z) (t t' : list evento) :
  0 < n <= INT_MAX ->
  calcular_pi_paralelo combustible e n h t = (Sale codigo, t') ->
  main_desde_n combustible e argv n h t = (Sale codigo, t').
Proof.
  intros Hn Hcalc. unfold main_desde_n.
  destruct (Z.leb_spec n 0) as [?|_]; [lia|].
  destruct (Z.gtb_spec n 2147483647) as [?|_];
    [unfold INT_MAX in Hn; lia|].
  simpl. unfold ligar at 1. unfold ligar at 1. rewrite Hcalc. reflexivity.
Qed.

End Principal.

(** * pi_p.c: the computations only extend the trace *)

Section Uniformes.

Import C PiP.

Lemma uniforme_ret {A : Type} (a : A) : uniforme (ret a).
Proof. intros t0 t. reflexivity. Qed.

Lemma uniforme_salir {A : Type} (codigo : Z) : uniforme (@salir A codigo).
Proof. intros t0 t. reflexivity. Qed.

Lemma uniforme_agotado {A : Type} : uniforme (@agotado A).
Proof. intros t0 t. reflexivity. Qed.

Lemma uniforme_emitir (ev : evento) : uniforme (emitir ev).
Proof.
  intros t0 t. unfold emitir, prefijar; simpl. rewrite app_assoc.
  reflexivity.
Qed.

Lemma uniforme_ligar {A B : Type} (m : M A) (k : A -> M B) :
  uniforme m -> (forall a, uniforme (k a)) -> uniforme (ligar m k).
Proof.
  intros Hm Hk t0 t. unfold ligar. rewrite Hm.
  destruct (m t) as [[a|c|] t']; simpl; [apply Hk | reflexivity..].
Qed.

Lemma uniforme_para_M {S : Type} (cuerpo : Z -> S -> M S) (fin : Z) :
  (forall i s, uniforme (cuerpo i s)) ->
  forall (combustible : nat) (i : Z) (s : S),
    uniforme (para_M combustible i fin cuerpo s).
Proof.
  intros Hc. induction combustible as [|c IH]; intros i s; simpl.
  - apply uniforme_agotado.
  - destruct (i <? fin); [|apply uniforme_ret].
    apply uniforme_ligar; [apply Hc | intros s'; apply IH].
Qed.

Create HintDb uniformes.
#[local] Hint Resolve uniforme_ret uniforme_salir uniforme_agotado
  uniforme_emitir : uniformes.

Lemma uniforme_lanzar_hilo (combustible : nat) (e : entorno)
      (tam_bloque resto : Z) (paso : float) (h : Z) (a : arreglos) :
  uniforme (lanzar_hilo combustible e tam_bloque resto paso h a).
Proof.
  unfold lanzar_hilo. apply uniforme_ligar; [auto with uniformes|].
  intros _. destruct (negb _).
  - apply uniforme_ligar; [auto with uniformes|]. intros _.
    apply uniforme_ligar; [|auto with uniformes].
    apply uniforme_para_M. auto with uniformes.
  - destruct (trabajo_suma_parcial _ _ _); auto with uniformes.
Qed.

Lemma uniforme_recolectar_hilo (e : entorno) (hs : list (option retorno))
      (h : Z) (suma_global : float) :
  uniforme (recolectar_hilo e hs h suma_global).
Proof.
  unfold recolectar_hilo. apply uniforme_ligar; [auto with uniformes|].
  intros _. destruct (negb _).
  - apply uniforme_ligar; auto with uniformes.
  - destruct (leer_retorno hs h); [auto with uniformes|].
    apply uniforme_ligar; auto with uniformes.
Qed.

Lemma uniforme_calcular_pi_paralelo (combustible : nat) (e : entorno)
      (n h : Z) : uniforme (calcular_pi_paralelo combustible e n h).
Proof.
  unfold calcular_pi_paralelo. destruct (_ || _).
  - apply uniforme_ligar; auto with uniformes.
  - apply uniforme_ligar.
    + apply uniforme_para_M. intros. apply uniforme_lanzar_hilo.
    + intros a. apply uniforme_ligar; [|auto with uniformes].
      apply uniforme_para_M. intros. apply uniforme_recolectar_hilo.
Qed.

Lemma uniforme_main_desde_n (combustible : nat) (e : entorno)
      (argv : list string) (n h : Z) :
  uniforme (main_desde_n combustible e argv n h).
Proof.
  unfold main_desde_n. apply uniforme_ligar.
  - destruct (_ || _); [auto with uniformes|].
    apply uniforme_ligar; [apply uniforme_calcular_pi_paralelo|].
    auto with uniformes.
  - intros [v|]; repeat (apply uniforme_ligar; [auto with uniformes|];
                         intros _); auto with uniformes.
Qed.

End Uniformes.

(** * pi_p.c: the arguments of the command line *)

Section Argumentos.

Import C PiP.

Lemma argumento_insertado (argv : list string) (s : string) (i j : nat) :
  (i < length argv)%nat ->
  argumento (<[i := s]> argv) j = if decide (i = j) then s
                                  else argumento argv j.
Proof.
  intros Hi. unfold argumento. rewrite !nth_lookup.
  destruct (decide (i = j)) as [->|Hne].
  - rewrite list_lookup_insert_eq by exact Hi. reflexivity.
  - rewrite list_lookup_insert_ne by exact Hne. reflexivity.
Qed.

Lemma programa_desde_n (combustible : nat) (e : entorno)
      (argv : list string) :
  programa combustible e argv
  = match
      (if hilos_pedidos argv <=? 0 then
         prefijar [Stderr_hilos_invalido (hilos_pedidos argv)]
           (main_desde_n combustible e argv (intervalos_pedidos argv) 1 [])
       else
         main_desde_n combustible e argv (intervalos_pedidos argv)
                      (hilos_pedidos argv) [])
    with
    | (Retorna codigo, t) => Some (codigo, t)
    | (Sale codigo, t) => Some (codigo, t)
    | (Agotado, _) => None
    end.
Proof.
  unfold programa. rewrite main_desde_n_eq.
  destruct (_ <=? 0); [|reflexivity].
  rewrite <- uniforme_main_desde_n. reflexivity.
Qed.

(** X12: when the worker count that [main] reads, the [int] that [atoi]
    gives for [argv[1]], is [<= 0] (on a text that is no number it is 0),
    the run of the program is the run with the argument ["1"] preceded by
    the warning: the same exit status and the same output.  With an
    accepted [n], arrays allocated and the one thread created, the program
    ends with [EXIT_SUCCESS] and reports [H = 1]. *)
Theorem hilos_no_positivos (combustible : nat) (e : entorno)
        (argv : list string) :
  (2 <= length argv)%nat ->
  hilos_pedidos argv <= 0 ->
  Libc.atoi "abc"%string = 0
  /\ hilos_pedidos (<[1%nat := "1"%string]> argv) = 1
  /\ intervalos_pedidos (<[1%nat := "1"%string]> argv) = intervalos_pedidos argv
  /\ programa combustible e argv
     = (fun r => (fst r, Stderr_hilos_invalido (hilos_pedidos argv) :: snd r))
         <$> programa combustible e (<[1%nat := "1"%string]> argv)
  /\ (0 < intervalos_pedidos argv ->
      (Z.to_nat (intervalos_pedidos argv) < combustible)%nat ->
      (1 < combustible)%nat ->
      reserva_hilos e = true -> reserva_datos e = true ->
      codigo_crear e 0 = 0 ->
      programa combustible e argv
      = Some (EXIT_SUCCESS,
              [Stderr_hilos_invalido (hilos_pedidos argv); Crear 0 0]
                ++ recoleccion e 0
                ++ informe e (intervalos_pedidos argv) 1
                     (1 / double_de_int (intervalos_pedidos argv)
                      * suma_en_orden (aportes e (intervalos_pedidos argv) 1))
                     %float)).
Proof.
  intros Hargc Hh.
  assert (Hh' : hilos_pedidos (<[1%nat := "1"%string]> argv) = 1).
  { unfold hilos_pedidos. rewrite length_insert.
    destruct (Z.geb_spec (Z.of_nat (length argv)) 2) as [_|?]; [|lia].
    rewrite argumento_insertado by lia. reflexivity. }
  assert (Hn' : intervalos_pedidos (<[1%nat := "1"%string]> argv)
                = intervalos_pedidos argv).
  { unfold intervalos_pedidos. rewrite length_insert.
    destruct (_ >=? 3) eqn:H3; [|reflexivity].
    rewrite argumento_insertado by lia. reflexivity. }
  assert (Hm : forall n h,
             main_desde_n combustible e (<[1%nat := "1"%string]> argv) n h
             = main_desde_n combustible e argv n h).
  { intros n h. unfold main_desde_n.
    rewrite argumento_insertado by lia. reflexivity. }
  split; [reflexivity|]. split; [exact Hh'|]. split; [exact Hn'|]. split.
  - rewrite !programa_desde_n. rewrite Hh', Hn', Hm.
    destruct (Z.leb_spec (hilos_pedidos argv) 0) as [_|?]; [|lia].
    simpl.
    destruct (main_desde_n combustible e argv (intervalos_pedidos argv) 1 [])
      as [[c|c|] t]; reflexivity.
  - intros Hn Hcn Hc1 Hrh Hrd Hcrear.
    rewrite programa_desde_n.
    destruct (Z.leb_spec (hilos_pedidos argv) 0) as [_|?]; [|lia].
    assert (Hint : 0 < intervalos_pedidos argv <= INT_MAX).
    { split; [exact Hn|]. unfold intervalos_pedidos.
      destruct (_ >=? 3).
      - apply a_int_rango.
      - unfold N_INTERVALOS_POR_DEFECTO, INT_MAX. lia. }
    rewrite (main_desde_n_informa combustible e argv _ 1 []
               ([] ++ lanzamientos 1 ++ recolecciones e 1)
               (1 / double_de_int (intervalos_pedidos argv)
                * suma_en_orden (aportes e (intervalos_pedidos argv) 1))
               Hint).
    + unfold prefijar, lanzamientos, recolecciones.
      change (seqZ 0 1) with [0]. cbn [fmap list_fmap concat fst snd app].
      rewrite app_nil_r. reflexivity.
    + apply calcular_pi_paralelo_retorna; try assumption.
      * unfold INT_MAX. lia.
      * intros k Hk. assert (k = 0) as -> by lia. exact Hcrear.
Qed.

(** A count of sub-intervals that [atoi] reads as [<= 0] is rejected
    before anything is computed: the program writes the diagnostic and the
    usage and ends with [EXIT_FAILURE].  So are ["0"], ["-5"] and
    ["2147483648"], which [atoi] reads as [INT_MIN]. *)
Lemma n_no_positivo_rechazado (combustible : nat) (e : entorno)
      (argv : list string) :
  intervalos_pedidos argv <= 0 ->
  programa combustible e argv
  = Some (EXIT_FAILURE,
          (if hilos_pedidos argv <=? 0
           then [Stderr_hilos_invalido (hilos_pedidos argv)] else [])
            ++ [Stderr_n_fuera_de_rango; Stderr_uso (argumento argv 0)]).
Proof.
  intros Hn. rewrite programa_desde_n.
  rewrite !main_desde_n_rechaza by exact Hn.
  destruct (_ <=? 0); reflexivity.
Qed.

Lemma atoi_ejemplos :
  Libc.atoi "0"%string = 0 /\ Libc.atoi "-5"%string = -5
  /\ Libc.atoi "2147483648"%string = INT_MIN
  /\ Libc.atoi "4294967297"%string = 1.
Proof. repeat split. Qed.

(** C4, where the program departs from it: the count of sub-intervals
    ["4294967297"] is greater than [2^31 - 1], and the program does not
    reject it.  [atoi] reads it as 1, the test [n > 2147483647] on an [int]
    never holds, and the program computes with [n = 1] and ends with
    [EXIT_SUCCESS], reporting 3.2. *)
Theorem n_mayor_que_int_max_aceptado :
  programa 5 entorno_sin_fallos ["pi_p"%string; "4"%string; "4294967297"%string]
  = Some (EXIT_SUCCESS,
          lanzamientos 4 ++ (Unir <$> seqZ 0 4)
            ++ informe entorno_sin_fallos 1 4 3.2%float).
Proof. vm_compute. reflexivity. Qed.

(** C5, where the program departs from it: the worker count
    ["-4294967294"] is [<= 0], and the program neither warns nor falls back
    to one thread.  [atoi] reads it as 2 (the low 32 bits), the test
    [numero_hilos <= 0] sees 2, and the run is the run with the argument
    ["2"]: no warning is written, two threads are created and joined, and
    [H = 2] is reported. *)
Theorem hilos_no_positivos_aceptados :
  Libc.atoi "-4294967294"%string = 2
  /\ programa 12 entorno_sin_fallos
              ["pi_p"%string; "-4294967294"%string; "10"%string]
     = Some (EXIT_SUCCESS,
             [Crear 0 0; Crear 1 0; Unir 0; Unir 1]
               ++ informe entorno_sin_fallos 10 2
                    (1 / double_de_int 10
                     * suma_en_orden (aportes entorno_sin_fallos 10 2))%float)
  /\ programa 12 entorno_sin_fallos
              ["pi_p"%string; "-4294967294"%string; "10"%string]
     = programa 12 entorno_sin_fallos
                ["pi_p"%string; "2"%string; "10"%string].
Proof. repeat split; vm_compute; reflexivity. Qed.

End Argumentos.

(** * pi_p.c: a thread that cannot be created *)

Section Fallo_al_lanzar.

Import C PiP.

(** C6: when the launch of thread [k] fails, after the launches of the
    threads before it succeeded, [calcular_pi_paralelo] writes the
    diagnostic, joins the threads [0 .. k - 1] in order and ends the process
    with [EXIT_FAILURE]: it returns no value, and nothing after the joins is
    done.  So the program run with these [n] and [h] ends with
    [EXIT_FAILURE] having written no result. *)
Theorem fallo_al_lanzar (e : entorno) (combustible : nat) (n h k : Z)
        (t : list evento) :
  0 < n <= INT_MAX -> 0 < h <= INT_MAX ->
  (Z.to_nat n < combustible)%nat -> (Z.to_nat h < combustible)%nat ->
  reserva_hilos e = true -> reserva_datos e = true ->
  0 <= k < h ->
  (forall j, 0 <= j < k -> codigo_crear e j = 0) ->
  codigo_crear e k <> 0 ->
  let traza :=
    lanzamientos k
      ++ [Crear k (codigo_crear e k);
          Stderr_error_crear k (codigo_crear e k)]
      ++ (Unir <$> seqZ 0 k) in
  calcular_pi_paralelo combustible e n h t = (Sale EXIT_FAILURE, t ++ traza)
  /\ forall argv : list string,
       hilos_pedidos argv = h -> intervalos_pedidos argv = n ->
       programa combustible e argv = Some (EXIT_FAILURE, traza).
Proof.
  intros Hn Hh Hcn Hch Hrh Hrd Hk Hantes Hfallo traza.
  assert (Hcalc : forall t',
             calcular_pi_paralelo combustible e n h t'
             = (Sale EXIT_FAILURE, t' ++ traza)).
  { intros t'. unfold calcular_pi_paralelo. rewrite Hrh, Hrd. simpl.
    unfold ligar at 1.
    rewrite (lanzar_fallo e n h combustible Hn Hh Hcn Hch k t' Hk Hantes
                          Hfallo).
    reflexivity. }
  split; [apply Hcalc|].
  intros argv Hargh Hargn. rewrite programa_desde_n, Hargh, Hargn.
  destruct (Z.leb_spec h 0) as [?|_]; [lia|].
  rewrite (main_desde_n_sale combustible e argv n h EXIT_FAILURE [] traza Hn
                             (Hcalc [])).
  reflexivity.
Qed.

End Fallo_al_lanzar.

(** * Binary64 arithmetic: digits, shifts and rounding *)

Section Digitos.

Lemma fexp_fexp64 (x : Z) : SpecFloat.fexp prec emax x = fexp64 x.
Proof. reflexivity. Qed.

Lemma digits2_pos_cotas (p : positive) :
  2 ^ (Z.pos (digits2_pos p) - 1) <= Z.pos p < 2 ^ Z.pos (digits2_pos p).
Proof.
  induction p as [p IH|p IH|]; simpl digits2_pos.
  - rewrite Pos2Z.inj_succ.
    replace (Z.succ (Z.pos (digits2_pos p)) - 1)
      with (Z.succ (Z.pos (digits2_pos p) - 1)) by lia.
    rewrite !Z.pow_succ_r by lia. lia.
  - rewrite Pos2Z.inj_succ.
    replace (Z.succ (Z.pos (digits2_pos p)) - 1)
      with (Z.succ (Z.pos (digits2_pos p) - 1)) by lia.
    rewrite !Z.pow_succ_r by lia. lia.
  - simpl. lia.
Qed.

Lemma Zdigits2_cotas (m : Z) :
  0 < m -> 2 ^ (Zdigits2 m - 1) <= m < 2 ^ Zdigits2 m.
Proof.
  destruct m as [|p|p]; try lia. intros _. apply digits2_pos_cotas.
Qed.

Lemma Zdigits2_pos (m : Z) : 0 < m -> 0 < Zdigits2 m.
Proof. destruct m; simpl; lia. Qed.

Lemma Zdigits2_no_negativo (m : Z) : 0 <= Zdigits2 m.
Proof. destruct m; simpl; lia. Qed.

(** [m < 2^d] bounds the number of digits by [d]. *)
Lemma Zdigits2_le (m d : Z) : 0 <= d -> 0 <= m < 2 ^ d -> Zdigits2 m <= d.
Proof.
  intros Hd Hm. destruct (Z.eq_dec m 0) as [->|Hne]; [simpl; lia|].
  destruct (Z_le_gt_dec (Zdigits2 m) d) as [Hle|Hgt]; [exact Hle|].
  pose proof (Zdigits2_cotas m ltac:(lia)) as [Hlo _].
  assert (2 ^ d <= 2 ^ (Zdigits2 m - 1)) by (apply Z.pow_le_mono_r; lia).
  lia.
Qed.

(** [2^(d-1) <= m] bounds the number of digits from below by [d]. *)
Lemma Zdigits2_ge (m d : Z) : 0 < d -> 2 ^ (d - 1) <= m -> d <= Zdigits2 m.
Proof.
  intros Hd Hm.
  assert (0 < m) by (pose proof (Z.pow_pos_nonneg 2 (d - 1)); lia).
  destruct (Z_le_gt_dec d (Zdigits2 m)) as [Hle|Hgt]; [exact Hle|].
  pose proof (Zdigits2_cotas m ltac:(lia)) as [_ Hhi].
  assert (2 ^ Zdigits2 m <= 2 ^ (d - 1)) by (apply Z.pow_le_mono_r; lia).
  lia.
Qed.

Lemma Zdigits2_monotono (a b : Z) : 0 <= a <= b -> Zdigits2 a <= Zdigits2 b.
Proof.
  intros Hab. destruct (Z.eq_dec a 0) as [->|Ha].
  - apply Zdigits2_no_negativo.
  - apply Zdigits2_le; [apply Zdigits2_no_negativo|].
    pose proof (Zdigits2_cotas b ltac:(lia)). lia.
Qed.

End Digitos.

Section Desplazamiento.

Lemma iter_pos_nat {A : Type} (f : A -> A) (p : positive) (x : A) :
  SpecFloat.iter_pos f p x = Nat.iter (Pos.to_nat p) f x.
Proof.
  revert x. induction p as [p IH|p IH|]; intros x; simpl SpecFloat.iter_pos.
  - rewrite !IH. rewrite Pos2Nat.inj_xI.
    replace (S (2 * Pos.to_nat p)) with (Pos.to_nat p + S (Pos.to_nat p))%nat
      by lia.
    rewrite Nat.iter_add. f_equal. symmetry. apply Nat.iter_succ_r.
  - rewrite !IH. rewrite Pos2Nat.inj_xO.
    replace (2 * Pos.to_nat p)%nat with (Pos.to_nat p + Pos.to_nat p)%nat
      by lia.
    rewrite Nat.iter_add. reflexivity.
  - reflexivity.
Qed.

Lemma shr_1_m (mrs : shr_record) :
  0 <= shr_m mrs -> shr_m (shr_1 mrs) = shr_m mrs / 2.
Proof.
  destruct mrs as [[|[p|p|]|p] r s]; simpl; intros Hm; try lia;
    try reflexivity.
  - rewrite Pos2Z.inj_xI. apply (Z.div_unique _ _ _ 1); lia.
  - rewrite Pos2Z.inj_xO. apply (Z.div_unique _ _ _ 0); lia.
Qed.

Lemma shr_1_r (mrs : shr_record) :
  0 <= shr_m mrs -> shr_r (shr_1 mrs) = Z.odd (shr_m mrs).
Proof.
  destruct mrs as [[|[p|p|]|p] r s]; simpl; intros Hm; try lia;
    reflexivity.
Qed.

Lemma shr_1_s (mrs : shr_record) :
  shr_s (shr_1 mrs) = shr_r mrs || shr_s mrs.
Proof. destruct mrs as [[|[p|p|]|[p|p|]] r s]; reflexivity. Qed.

Lemma iter_shr_1_m (k : nat) (mrs : shr_record) :
  0 <= shr_m mrs ->
  shr_m (Nat.iter k shr_1 mrs) = shr_m mrs / 2 ^ Z.of_nat k.
Proof.
  intros Hm. induction k as [|k IH].
  - simpl. rewrite Z.div_1_r. reflexivity.
  - rewrite Nat.iter_succ. rewrite shr_1_m.
    + rewrite IH. rewrite Nat2Z.inj_succ, Z.pow_succ_r by lia.
      rewrite Z.div_div by (try apply Z.pow_pos_nonneg; lia).
      f_equal. lia.
    + rewrite IH. apply Z.div_pos; [lia|]. apply Z.pow_pos_nonneg; lia.
Qed.

Lemma iter_shr_1_exacto (k : nat) (mrs : shr_record) :
  0 <= shr_m mrs -> shr_r mrs = false -> shr_s mrs = false ->
  shr_m mrs mod 2 ^ Z.of_nat k = 0 ->
  shr_r (Nat.iter k shr_1 mrs) = false
  /\ shr_s (Nat.iter k shr_1 mrs) = false.
Proof.
  intros Hm Hr Hs. induction k as [|k IH]; intros Hmod.
  - simpl. auto.
  - rewrite Nat.iter_succ.
    assert (Hpos : 0 < 2 ^ Z.of_nat k) by (apply Z.pow_pos_nonneg; lia).
    rewrite Nat2Z.inj_succ, Z.pow_succ_r in Hmod by lia.
    apply Z.mod_divide in Hmod; [|lia]. destruct Hmod as [q Hq].
    destruct IH as [IHr IHs].
    { apply Z.mod_divide; [lia|]. exists (q * 2). lia. }
    rewrite shr_1_s, IHr, IHs. split; [|reflexivity].
    rewrite shr_1_r.
    + rewrite iter_shr_1_m by exact Hm.
      replace (shr_m mrs) with ((q * 2) * 2 ^ Z.of_nat k) by lia.
      rewrite Z.div_mul by lia. rewrite Z.mul_comm. apply Z.odd_even.
    + rewrite iter_shr_1_m by exact Hm. apply Z.div_pos; lia.
Qed.

(** [shr_fexp] on a non-negative mantissa divides it by the power of two
    that [desplazar] names; an exact mantissa all of whose dropped bits are
    zero stays exact. *)
Lemma shr_fexp_desplazar (m e : Z) (l : location) :
  0 <= m ->
  (shr_m (fst (shr_fexp prec emax m e l)), snd (shr_fexp prec emax m e l))
  = desplazar m e
  /\ (l = loc_Exact ->
      m mod 2 ^ Z.max (fexp64 (Zdigits2 m + e) - e) 0 = 0 ->
      loc_of_shr_record (fst (shr_fexp prec emax m e l)) = loc_Exact).
Proof.
  intros Hm. unfold shr_fexp, desplazar. rewrite fexp_fexp64.
  set (n := fexp64 (Zdigits2 m + e) - e).
  assert (Hrec : shr_m (shr_record_of_loc m l) = m)
    by (destruct l as [|[]]; reflexivity).
  destruct n as [|p|p] eqn:Hn; simpl shr.
  - simpl. rewrite Hrec, Z.div_1_r, Z.add_0_r. split; [reflexivity|].
    intros -> _. reflexivity.
  - rewrite iter_pos_nat. simpl fst. simpl snd.
    rewrite iter_shr_1_m by (rewrite Hrec; exact Hm).
    rewrite Hrec, positive_nat_Z.
    replace (Z.max (Z.pos p) 0) with (Z.pos p) by lia.
    split; [reflexivity|]. intros -> Hmod.
    destruct (iter_shr_1_exacto (Pos.to_nat p)
                (shr_record_of_loc m loc_Exact)) as [Hr Hs];
      try reflexivity; try assumption.
    + rewrite positive_nat_Z. exact Hmod.
    + destruct (Nat.iter _ _ _) as [m' r s]. simpl in Hr, Hs.
      subst r s. reflexivity.
  - simpl. rewrite Hrec, Z.div_1_r, Z.add_0_r. split; [reflexivity|].
    intros -> _. reflexivity.
Qed.

Lemma round_nearest_even_cotas (m : Z) (l : location) :
  (round_nearest_even m l = m \/ round_nearest_even m l = m + 1)
  /\ (l = loc_Exact -> round_nearest_even m l = m).
Proof.
  split; [|intros ->; reflexivity].
  destruct l as [|[]]; simpl; [auto | | auto | auto].
  destruct (Z.even m); auto.
Qed.

End Desplazamiento.

Section Redondeo.

Lemma pot2_pos (k : Z) : 0 <= k -> 0 < 2 ^ k.
Proof. intros Hk. apply Z.pow_pos_nonneg; lia. Qed.

Lemma pot2_suma (a b : Z) : 0 <= a -> 0 <= b -> 2 ^ (a + b) = 2 ^ a * 2 ^ b.
Proof. intros. apply Z.pow_add_r; assumption. Qed.

(** The digits of a quotient by a power of two. *)
Lemma Zdigits2_cociente (m p : Z) :
  0 <= m -> 0 <= p -> 0 < m / 2 ^ p ->
  Zdigits2 (m / 2 ^ p) = Zdigits2 m - p.
Proof.
  intros Hm Hp Hq.
  assert (H2p := pot2_pos p Hp).
  assert (Hmp : 2 ^ p <= m).
  { destruct (Z_lt_le_dec m (2 ^ p)) as [Hlt|Hle]; [|exact Hle].
    rewrite Z.div_small in Hq by lia. lia. }
  assert (Hm0 : 0 < m) by lia.
  destruct (Zdigits2_cotas m Hm0) as [Hlo Hhi].
  assert (Hd : p < Zdigits2 m).
  { destruct (Z_lt_le_dec p (Zdigits2 m)) as [Hlt|Hle]; [exact Hlt|].
    pose proof (Zdigits2_no_negativo m).
    assert (2 ^ Zdigits2 m <= 2 ^ p) by (apply Z.pow_le_mono_r; lia). lia. }
  apply Z.le_antisymm.
  - apply Zdigits2_le; [lia|]. split; [lia|].
    apply Z.div_lt_upper_bound; [lia|].
    rewrite <- pot2_suma by lia.
    replace (p + (Zdigits2 m - p)) with (Zdigits2 m) by lia. exact Hhi.
  - apply Zdigits2_ge; [lia|].
    apply Z.div_le_lower_bound; [lia|].
    rewrite <- pot2_suma by lia.
    replace (p + (Zdigits2 m - p - 1)) with (Zdigits2 m - 1) by lia.
    exact Hlo.
Qed.

Lemma Zdigits2_producto (m k : Z) :
  0 < m -> 0 <= k -> Zdigits2 (m * 2 ^ k) = Zdigits2 m + k.
Proof.
  intros Hm Hk. assert (H2k := pot2_pos k Hk).
  destruct (Zdigits2_cotas m Hm) as [Hlo Hhi].
  pose proof (Zdigits2_pos m Hm).
  apply Z.le_antisymm.
  - apply Zdigits2_le; [lia|]. split; [nia|].
    rewrite pot2_suma by lia. nia.
  - apply Zdigits2_ge; [lia|].
    replace (Zdigits2 m + k - 1) with ((Zdigits2 m - 1) + k) by lia.
    rewrite pot2_suma by lia. nia.
Qed.

Lemma Zdigits2_sucesor (m : Z) : 0 <= m -> Zdigits2 (m + 1) <= Zdigits2 m + 1.
Proof.
  intros Hm. destruct (Z.eq_dec m 0) as [->|Hne]; [simpl; lia|].
  destruct (Zdigits2_cotas m ltac:(lia)) as [_ Hhi].
  pose proof (Zdigits2_pos m ltac:(lia)).
  apply Zdigits2_le; [lia|].
  rewrite pot2_suma by lia. change (2 ^ 1) with 2. lia.
Qed.

(** What [desplazar] does to a non-negative mantissa. *)
Lemma desplazar_props (m e : Z) :
  0 <= m ->
  0 <= fst (desplazar m e)
  /\ snd (desplazar m e) = Z.max e (fexp64 (Zdigits2 m + e))
  /\ (0 < fst (desplazar m e) ->
      Zdigits2 (fst (desplazar m e)) + snd (desplazar m e) = Zdigits2 m + e)
  /\ fst (desplazar m e) * 2 ^ (snd (desplazar m e) - e) <= m.
Proof.
  intros Hm. unfold desplazar; simpl.
  set (p := Z.max (fexp64 (Zdigits2 m + e) - e) 0).
  assert (Hp : 0 <= p) by lia. assert (H2p := pot2_pos p Hp).
  split; [apply Z.div_pos; lia|]. split; [lia|]. split.
  - intros Hq. rewrite Zdigits2_cociente by assumption. lia.
  - replace (e + p - e) with p by lia.
    rewrite Z.mul_comm. apply Z.mul_div_le. lia.
Qed.

(** A mantissa in the normal range is not shifted out. *)
Lemma desplazar_positivo (m e : Z) :
  0 < m -> -1021 <= Zdigits2 m + e -> 0 < fst (desplazar m e).
Proof.
  intros Hm Hmag. unfold desplazar; simpl.
  set (p := Z.max (fexp64 (Zdigits2 m + e) - e) 0).
  assert (Hp : 0 <= p) by lia. assert (H2p := pot2_pos p Hp).
  destruct (Zdigits2_cotas m Hm) as [Hlo _].
  pose proof (Zdigits2_pos m Hm).
  assert (p <= Zdigits2 m - 1) by (unfold p, fexp64; lia).
  assert (2 ^ p <= 2 ^ (Zdigits2 m - 1)) by (apply Z.pow_le_mono_r; lia).
  apply Z.div_str_pos. lia.
Qed.

(** [binary_round_aux] on a non-negative mantissa: shift, round to [m2],
    shift again. *)
Lemma binary_round_aux_forma (m e : Z) (l : location) :
  0 <= m ->
  exists m2,
    (m2 = fst (desplazar m e) \/ m2 = fst (desplazar m e) + 1)
    /\ (l = loc_Exact ->
        m mod 2 ^ Z.max (fexp64 (Zdigits2 m + e) - e) 0 = 0 ->
        m2 = fst (desplazar m e))
    /\ binary_round_aux prec emax false m e l
       = terminar m2 (snd (desplazar m e)).
Proof.
  intros Hm. unfold binary_round_aux.
  destruct (shr_fexp_desplazar m e l Hm) as [Hd Hex].
  destruct (shr_fexp prec emax m e l) as [mrs' e'] eqn:Hshr.
  simpl in Hd, Hex.
  set (m2 := round_nearest_even (shr_m mrs') (loc_of_shr_record mrs')).
  destruct (round_nearest_even_cotas (shr_m mrs') (loc_of_shr_record mrs'))
    as [Hm2 Hm2ex].
  fold m2 in Hm2, Hm2ex.
  assert (Hm1 : shr_m mrs' = fst (desplazar m e))
    by (rewrite <- Hd; reflexivity).
  assert (He1 : e' = snd (desplazar m e)) by (rewrite <- Hd; reflexivity).
  exists m2. rewrite <- Hm1, <- He1. split; [exact Hm2|]. split.
  - intros Hl Hmod. apply Hm2ex. apply Hex; assumption.
  - assert (Hm2pos : 0 <= m2).
    { pose proof (desplazar_props m e Hm) as [H0 _]. lia. }
    destruct (shr_fexp_desplazar m2 e' loc_Exact Hm2pos) as [Hd2 _].
    destruct (shr_fexp prec emax m2 e' loc_Exact) as [mrs'' e''].
    simpl in Hd2. unfold terminar. rewrite <- Hd2.
    destruct (shr_m mrs''); reflexivity.
Qed.

End Redondeo.

Section Cotas_del_redondeo.

Lemma terminar_mag_max (m2 e1 B : Z) :
  0 <= m2 -> Zdigits2 m2 + e1 <= B -> e1 <= 971 -> B <= 1024 ->
  mag_max B (terminar m2 e1).
Proof.
  intros Hm He HB1 HB2. unfold terminar.
  destruct (desplazar_props m2 e1 Hm) as (H0 & Hsnd & Hdig & _).
  destruct (desplazar m2 e1) as [m3 e3]. simpl in *.
  destruct m3 as [|p|p]; [exact I | | lia].
  specialize (Hdig ltac:(lia)). simpl in Hdig.
  destruct (Z.leb_spec e3 971) as [_|Hgt]; simpl.
  - lia.
  - unfold fexp64 in Hsnd. lia.
Qed.

Lemma terminar_mag_min (m2 e1 B : Z) :
  0 < m2 -> B <= Zdigits2 m2 + e1 -> -1021 <= B ->
  mag_min B (terminar m2 e1).
Proof.
  intros Hm HB HB1. unfold terminar.
  destruct (desplazar_props m2 e1 ltac:(lia)) as (H0 & Hsnd & Hdig & _).
  pose proof (desplazar_positivo m2 e1 Hm ltac:(lia)) as Hpos.
  destruct (desplazar m2 e1) as [m3 e3]. simpl in *.
  destruct m3 as [|p|p]; [lia | | lia].
  specialize (Hdig ltac:(lia)). simpl in Hdig.
  destruct (e3 <=? 971); simpl; [lia | exact I].
Qed.

Lemma terminar_valor_max (m2 e1 K : Z) :
  0 <= m2 -> -1074 <= e1 <= 971 -> 0 <= K <= 2 ^ 52 ->
  m2 * 2 ^ (e1 + 1074) <= K * 2 ^ 1074 ->
  valor_max K (terminar m2 e1).
Proof.
  intros Hm He HK Hcota. unfold terminar.
  destruct (desplazar_props m2 e1 Hm) as (H0 & Hsnd & Hdig & Hval).
  destruct (desplazar m2 e1) as [m3 e3]. simpl in *.
  destruct m3 as [|p|p]; [exact I | | lia].
  specialize (Hdig ltac:(lia)). simpl in Hdig.
  assert (He3 : e1 <= e3) by lia.
  assert (Hv : Z.pos p * 2 ^ (e3 + 1074) <= K * 2 ^ 1074).
  { replace (e3 + 1074) with ((e3 - e1) + (e1 + 1074)) by lia.
    rewrite pot2_suma by lia.
    pose proof (pot2_pos (e1 + 1074) ltac:(lia)). nia. }
  assert (He3' : e3 <= 971).
  { (* the mantissa is at least 1, so [2^(e3+1074) <= 2^(52+1074)] *)
    assert (Hle : 2 ^ (e3 + 1074) <= 2 ^ (52 + 1074)).
    { rewrite (pot2_suma 52) by lia.
      pose proof (pot2_pos (e3 + 1074) ltac:(lia)).
      pose proof (pot2_pos 1074 ltac:(lia)).
      apply Z.le_trans with (Z.pos p * 2 ^ (e3 + 1074)); [nia|].
      apply Z.le_trans with (K * 2 ^ 1074); [exact Hv|].
      apply Z.mul_le_mono_nonneg_r; lia. }
    apply Z.pow_le_mono_r_iff in Hle; lia. }
  destruct (Z.leb_spec e3 971) as [_|?]; [|lia]. simpl. split; [lia|exact Hv].
Qed.

(** The result of rounding is below [2^(B+1)] when the mantissa and the
    exponent say the number is below [2^B]. *)
Lemma binary_round_aux_mag_max (m e B : Z) (l : location) :
  0 <= m -> Zdigits2 m + e <= B -> e <= 971 -> -1074 <= B <= 1023 ->
  mag_max (B + 1) (binary_round_aux prec emax false m e l).
Proof.
  intros Hm Hmag He HB.
  destruct (binary_round_aux_forma m e l Hm) as (m2 & Hm2 & _ & ->).
  destruct (desplazar_props m e Hm) as (H0 & Hsnd & Hdig & _).
  pose proof (Zdigits2_no_negativo m).
  apply terminar_mag_max; [lia | | unfold fexp64 in Hsnd; lia | lia].
  destruct (Z.eq_dec (fst (desplazar m e)) 0) as [Hz|Hnz].
  - rewrite Hz in Hm2.
    assert (Zdigits2 m2 <= 1) by (destruct Hm2 as [->| ->]; simpl; lia).
    unfold fexp64 in Hsnd. lia.
  - specialize (Hdig ltac:(lia)).
    assert (Zdigits2 m2 <= Zdigits2 (fst (desplazar m e)) + 1).
    { destruct Hm2 as [->| ->]; [lia|]. apply Zdigits2_sucesor. lia. }
    lia.
Qed.

(** The result of rounding a number that is at least [2^(B-1)], in the
    normal range, is at least [2^(B-1)]. *)
Lemma binary_round_aux_mag_min (m e B : Z) (l : location) :
  0 < m -> B <= Zdigits2 m + e -> -1021 <= B ->
  mag_min B (binary_round_aux prec emax false m e l).
Proof.
  intros Hm Hmag HB.
  destruct (binary_round_aux_forma m e l ltac:(lia)) as (m2 & Hm2 & _ & ->).
  destruct (desplazar_props m e ltac:(lia)) as (H0 & Hsnd & Hdig & _).
  pose proof (desplazar_positivo m e Hm ltac:(lia)) as Hpos.
  specialize (Hdig Hpos).
  assert (Zdigits2 (fst (desplazar m e)) <= Zdigits2 m2).
  { apply Zdigits2_monotono. lia. }
  apply terminar_mag_min; lia.
Qed.

(** The result of rounding an exact number that is at most the integer
    [K <= 2^52] is at most [K]. *)
Lemma binary_round_aux_valor_max (m e K : Z) :
  0 < m -> -1074 <= e -> 0 <= K <= 2 ^ 52 ->
  m * 2 ^ (e + 1074) <= K * 2 ^ 1074 ->
  valor_max K (binary_round_aux prec emax false m e loc_Exact).
Proof.
  intros Hm He HK Hcota.
  destruct (binary_round_aux_forma m e loc_Exact ltac:(lia))
    as (m2 & Hm2 & Hex & ->).
  destruct (desplazar_props m e ltac:(lia)) as (H0 & Hsnd & _ & Hval).
  specialize (Hex eq_refl).
  unfold desplazar in *; simpl in *.
  set (E := fexp64 (Zdigits2 m + e)) in *.
  set (p := Z.max (E - e) 0) in *.
  assert (Hp : 0 <= p) by lia. assert (H2p := pot2_pos p Hp).
  assert (H2e := pot2_pos (e + 1074) ltac:(lia)).
  assert (H2K : K * 2 ^ 1074 <= 2 ^ (52 + 1074)).
  { rewrite (pot2_suma 52) by lia.
    apply Z.mul_le_mono_nonneg_r; [apply Z.lt_le_incl, pot2_pos|]; lia. }
  (* the number is below [2^53] *)
  destruct (Zdigits2_cotas m Hm) as [Hlo _].
  pose proof (Zdigits2_pos m Hm) as Hdpos.
  assert (Hmag : Zdigits2 m + e <= 53).
  { assert (Hle : 2 ^ ((Zdigits2 m - 1) + (e + 1074)) <= 2 ^ (52 + 1074)).
    { rewrite (pot2_suma (Zdigits2 m - 1)) by lia.
      apply Z.le_trans with (m * 2 ^ (e + 1074)); [|lia].
      apply Z.mul_le_mono_nonneg_r; lia. }
    apply Z.pow_le_mono_r_iff in Hle; lia. }
  assert (HE : -1074 <= E <= 0) by (unfold E, fexp64; lia).
  assert (He52 : e <= 52).
  { assert (Hle : 2 ^ (e + 1074) <= 2 ^ (52 + 1074)) by nia.
    apply Z.pow_le_mono_r_iff in Hle; lia. }
  destruct (Z_le_gt_dec (E - e) 0) as [Hno|Hsi].
  { (* nothing is shifted out *)
    assert (Hp0 : p = 0) by lia. rewrite Hp0 in *.
    rewrite Z.div_1_r in *. rewrite Z.add_0_r.
    rewrite Hex by apply Z.mod_1_r.
    apply terminar_valor_max; [lia | lia | lia | exact Hcota]. }
  assert (He1 : e + p <= 0) by lia.
  apply terminar_valor_max; [lia | lia | lia |].
  (* [K * 2^1074 = c * 2^p * 2^(e+1074)] *)
  set (c := K * 2 ^ (- (e + p))).
  assert (H2c := pot2_pos (- (e + p)) ltac:(lia)).
  assert (Hc : K * 2 ^ 1074 = c * 2 ^ ((e + p) + 1074)).
  { unfold c. rewrite <- Z.mul_assoc. rewrite <- pot2_suma by lia.
    f_equal. f_equal. lia. }
  assert (Hc' : K * 2 ^ 1074 = (c * 2 ^ p) * 2 ^ (e + 1074)).
  { rewrite Hc. rewrite <- Z.mul_assoc. rewrite <- pot2_suma by lia.
    f_equal. f_equal. lia. }
  assert (Hmc : m <= c * 2 ^ p) by nia.
  assert (Hq : m / 2 ^ p <= c).
  { apply Z.div_le_upper_bound; [lia|]. lia. }
  rewrite Hc.
  assert (H2ep := pot2_pos (e + p + 1074) ltac:(lia)).
  apply Z.mul_le_mono_nonneg_r; [lia|].
  destruct (Z.eq_dec (m / 2 ^ p) c) as [Heq|Hne].
  - rewrite Hex; [lia|].
    (* [m = c * 2^p]: all the dropped bits are zero *)
    assert (Hm' : m = c * 2 ^ p).
    { pose proof (Z.mul_div_le m (2 ^ p) ltac:(lia)). nia. }
    rewrite Hm' at 1. apply Z.mod_mul. lia.
  - lia.
Qed.

End Cotas_del_redondeo.

Section Operaciones.

Lemma iter_xO (m d : positive) :
  Z.pos (Pos.iter xO m d) = Z.pos m * 2 ^ Z.pos d.
Proof.
  induction d as [|d IH] using Pos.peano_ind.
  - simpl Pos.iter. rewrite Pos2Z.inj_xO. change (2 ^ 1) with 2. lia.
  - rewrite Pos.iter_succ, Pos2Z.inj_xO, IH, Pos2Z.inj_succ.
    rewrite Z.pow_succ_r by lia. lia.
Qed.

Lemma shl_align_spec (mx : positive) (ex ex' : Z) :
  snd (shl_align mx ex ex') = Z.min ex ex'
  /\ Z.pos (fst (shl_align mx ex ex'))
     = Z.pos mx * 2 ^ (ex - Z.min ex ex').
Proof.
  unfold shl_align. destruct (ex' - ex) as [|d|d] eqn:Hd; simpl.
  - replace (Z.min ex ex') with ex by lia.
    rewrite Z.sub_diag. simpl. lia.
  - replace (Z.min ex ex') with ex by lia.
    rewrite Z.sub_diag. simpl. lia.
  - replace (Z.min ex ex') with ex' by lia.
    rewrite iter_xO. split; [reflexivity|]. f_equal. f_equal. lia.
Qed.

Lemma shl_align_digitos (mx : positive) (ex ex' : Z) :
  Zdigits2 (Z.pos (fst (shl_align mx ex ex'))) + snd (shl_align mx ex ex')
  = Z.pos (digits2_pos mx) + ex.
Proof.
  destruct (shl_align_spec mx ex ex') as [-> ->].
  rewrite Zdigits2_producto by lia. simpl. lia.
Qed.

Lemma binary_round_mag_max (mx : positive) (ex B : Z) :
  Z.pos (digits2_pos mx) + ex <= B -> -1074 <= B <= 1023 ->
  mag_max (B + 1) (binary_round prec emax false mx ex).
Proof.
  intros Hmag HB. unfold binary_round.
  pose proof (shl_align_digitos mx ex
                (SpecFloat.fexp prec emax (Z.pos (digits2_pos mx) + ex)))
    as Hdig.
  destruct (shl_align_spec mx ex
              (SpecFloat.fexp prec emax (Z.pos (digits2_pos mx) + ex)))
    as [He _].
  destruct (shl_align _ _ _) as [mz ez]. simpl in *.
  rewrite fexp_fexp64 in He. unfold fexp64 in He.
  apply binary_round_aux_mag_max; simpl; lia.
Qed.

Lemma binary_round_mag_min (mx : positive) (ex B : Z) :
  B <= Z.pos (digits2_pos mx) + ex -> -1021 <= B ->
  mag_min B (binary_round prec emax false mx ex).
Proof.
  intros Hmag HB. unfold binary_round.
  pose proof (shl_align_digitos mx ex
                (SpecFloat.fexp prec emax (Z.pos (digits2_pos mx) + ex)))
    as Hdig.
  destruct (shl_align _ _ _) as [mz ez]. simpl in *.
  apply binary_round_aux_mag_min; simpl; lia.
Qed.

Lemma binary_round_valor_max (mx : positive) (ex K : Z) :
  -1074 <= ex -> 0 <= K <= 2 ^ 52 ->
  Z.pos mx * 2 ^ (ex + 1074) <= K * 2 ^ 1074 ->
  valor_max K (binary_round prec emax false mx ex).
Proof.
  intros Hex HK Hcota. unfold binary_round.
  destruct (shl_align_spec mx ex
              (SpecFloat.fexp prec emax (Z.pos (digits2_pos mx) + ex)))
    as [He Hm].
  destruct (shl_align _ _ _) as [mz ez]. simpl in *.
  rewrite fexp_fexp64 in He, Hm.
  assert (Hez : -1074 <= ez <= ex) by (unfold fexp64 in He; lia).
  apply binary_round_aux_valor_max; [lia | lia | lia |].
  rewrite Hm, <- He. rewrite <- Z.mul_assoc, <- pot2_suma by lia.
  replace (ex - ez + (ez + 1074)) with (ex + 1074) by lia. exact Hcota.
Qed.

Lemma mag_max_monotono (B B' : Z) (x : spec_float) :
  B <= B' -> mag_max B x -> mag_max B' x.
Proof. destruct x as [[]|[]| |[] m e]; simpl; lia. Qed.

Lemma valor_max_monotono (K K' : Z) (x : spec_float) :
  K <= K' -> valor_max K x -> valor_max K' x.
Proof.
  intros HK.
  destruct x as [[]|[]| |[] m e]; cbn [valor_max mag_max valid_binary];
    try tauto.
  intros [He Hv]. split; [exact He|].
  pose proof (pot2_pos 1074 ltac:(lia)). nia.
Qed.

(** A bound on the value bounds the magnitude. *)
Lemma valor_max_mag_max (K B : Z) (x : spec_float) :
  0 <= B -> K <= 2 ^ B -> valor_max K x -> mag_max (B + 1) x.
Proof.
  intros HB HK.
  destruct x as [[]|[]| |[] m e]; cbn [valor_max mag_max valid_binary];
    try tauto.
  intros [He Hv].
  destruct (digits2_pos_cotas m) as [Hlo _].
  assert (0 < Z.pos (digits2_pos m)) by lia.
  assert (Hle : 2 ^ ((Z.pos (digits2_pos m) - 1) + (e + 1074))
                <= 2 ^ (B + 1074)).
  { rewrite (pot2_suma B 1074), (pot2_suma (Z.pos (digits2_pos m) - 1))
      by lia.
    pose proof (pot2_pos (e + 1074) ltac:(lia)).
    pose proof (pot2_pos 1074 ltac:(lia)).
    apply Z.le_trans with (Z.pos m * 2 ^ (e + 1074)); [nia|].
    apply Z.le_trans with (K * 2 ^ 1074); [exact Hv|].
    apply Z.mul_le_mono_nonneg_r; lia. }
  apply Z.pow_le_mono_r_iff in Hle; lia.
Qed.

(** A bound on the magnitude of a number with a valid exponent bounds the
    value. *)
Lemma mag_max_valor_max (B : Z) (x : spec_float) :
  0 <= B -> valid_binary x = true -> mag_max B x -> valor_max (2 ^ B) x.
Proof.
  intros HB.
  destruct x as [[]|[]| |[] m e]; cbn [valor_max mag_max valid_binary];
    try tauto.
  intros Hval Hmag.
  unfold bounded, canonical_mantissa in Hval.
  apply andb_prop in Hval as [Hcan _]. apply Z.eqb_eq in Hcan.
  rewrite fexp_fexp64 in Hcan. unfold fexp64 in Hcan.
  assert (He : -1074 <= e) by lia. split; [exact He|].
  destruct (digits2_pos_cotas m) as [_ Hhi].
  rewrite <- pot2_suma by lia.
  apply Z.le_trans with (2 ^ Z.pos (digits2_pos m) * 2 ^ (e + 1074)).
  - pose proof (pot2_pos (e + 1074) ltac:(lia)). nia.
  - rewrite <- pot2_suma by lia. apply Z.pow_le_mono_r; lia.
Qed.

End Operaciones.

Section Suma.

Lemma SFadd_finitos (mx : positive) (ex : Z) (my : positive) (ey : Z) :
  SFadd prec emax (S754_finite false mx ex) (S754_finite false my ey)
  = binary_round prec emax false
      (fst (shl_align mx ex (Z.min ex ey))
       + fst (shl_align my ey (Z.min ex ey)))%positive
      (Z.min ex ey).
Proof. reflexivity. Qed.

Lemma suma_alineada (mx : positive) (ex : Z) (my : positive) (ey : Z) :
  Z.pos (fst (shl_align mx ex (Z.min ex ey))
         + fst (shl_align my ey (Z.min ex ey)))
  = Z.pos mx * 2 ^ (ex - Z.min ex ey) + Z.pos my * 2 ^ (ey - Z.min ex ey).
Proof.
  rewrite Pos2Z.inj_add.
  destruct (shl_align_spec mx ex (Z.min ex ey)) as [_ ->].
  destruct (shl_align_spec my ey (Z.min ex ey)) as [_ ->].
  replace (Z.min ex (Z.min ex ey)) with (Z.min ex ey) by lia.
  replace (Z.min ey (Z.min ex ey)) with (Z.min ex ey) by lia.
  reflexivity.
Qed.

(** The sum of two numbers below [2^B] is below [2^(B+2)]. *)
Lemma SFadd_mag_max (x y : spec_float) (B : Z) :
  mag_max B x -> mag_max B y -> -1074 <= B <= 1021 ->
  mag_max (B + 2) (SFadd prec emax x y).
Proof.
  intros Hx Hy HB.
  destruct x as [[]|[]| |[] mx ex]; cbn [mag_max] in Hx; try tauto;
    destruct y as [[]|[]| |[] my ey]; cbn [mag_max] in Hy; try tauto.
  - cbn [SFadd mag_max]. lia.
  - cbn [SFadd mag_max]. lia.
  - rewrite SFadd_finitos.
    replace (B + 2) with ((B + 1) + 1) by lia.
    apply binary_round_mag_max; [|lia].
    change (Z.pos (digits2_pos ?p)) with (Zdigits2 (Z.pos p)).
    rewrite suma_alineada. set (ez := Z.min ex ey).
    destruct (digits2_pos_cotas mx) as [_ Hmx].
    destruct (digits2_pos_cotas my) as [_ Hmy].
    assert (0 < Z.pos (digits2_pos mx)) by lia.
    assert (0 < Z.pos (digits2_pos my)) by lia.
    assert (Hpx := pot2_pos (ex - ez) ltac:(lia)).
    assert (Hpy := pot2_pos (ey - ez) ltac:(lia)).
    assert (Hx' : Z.pos mx * 2 ^ (ex - ez) < 2 ^ (B - ez)).
    { apply Z.lt_le_trans with (2 ^ (Z.pos (digits2_pos mx) + (ex - ez))).
      - rewrite pot2_suma by lia. nia.
      - apply Z.pow_le_mono_r; lia. }
    assert (Hy' : Z.pos my * 2 ^ (ey - ez) < 2 ^ (B - ez)).
    { apply Z.lt_le_trans with (2 ^ (Z.pos (digits2_pos my) + (ey - ez))).
      - rewrite pot2_suma by lia. nia.
      - apply Z.pow_le_mono_r; lia. }
    assert (Zdigits2 (Z.pos mx * 2 ^ (ex - ez) + Z.pos my * 2 ^ (ey - ez))
            <= B - ez + 1); [|lia].
    apply Zdigits2_le; [lia|].
    rewrite pot2_suma by lia. change (2 ^ 1) with 2. lia.
Qed.

(** Adding a non-negative number to a finite number that is at least
    [2^(B-1)] gives a number that is at least [2^(B-1)]. *)
Lemma SFadd_mag_min (mx : positive) (ex : Z) (y : spec_float) (B : Z) :
  B <= Z.pos (digits2_pos mx) + ex -> -1021 <= B -> no_negativo y ->
  mag_min B (SFadd prec emax (S754_finite false mx ex) y).
Proof.
  intros Hx HB Hy.
  destruct y as [[]|[]| |[] my ey]; cbn [no_negativo] in Hy; try tauto.
  rewrite SFadd_finitos. apply binary_round_mag_min; [|lia].
  change (Z.pos (digits2_pos ?p)) with (Zdigits2 (Z.pos p)).
  rewrite suma_alineada. set (ez := Z.min ex ey).
  assert (Hpx := pot2_pos (ex - ez) ltac:(lia)).
  assert (Hpy := pot2_pos (ey - ez) ltac:(lia)).
  assert (Zdigits2 (Z.pos mx * 2 ^ (ex - ez))
          <= Zdigits2 (Z.pos mx * 2 ^ (ex - ez)
                       + Z.pos my * 2 ^ (ey - ez)))
    by (apply Zdigits2_monotono; nia).
  rewrite Zdigits2_producto in * by lia. simpl Zdigits2 in *. lia.
Qed.

(** The sum of a number that is at most [A] and one that is at most [B] is
    at most [A + B]: the rounding is monotone and [A + B] is a binary64
    number. *)
Lemma SFadd_valor_max (x y : spec_float) (A B : Z) :
  valor_max A x -> valor_max B y -> 0 <= A -> 0 <= B -> A + B <= 2 ^ 52 ->
  valor_max (A + B) (SFadd prec emax x y).
Proof.
  intros Hx Hy HA HB HAB.
  destruct x as [[]|[]| |[] mx ex]; cbn [valor_max] in Hx; try tauto;
    destruct y as [[]|[]| |[] my ey]; cbn [valor_max] in Hy; try tauto.
  - apply (valor_max_monotono B); [lia | exact Hy].
  - apply (valor_max_monotono A); [lia | exact Hx].
  - destruct Hx as [Hex Hx], Hy as [Hey Hy].
    rewrite SFadd_finitos. apply binary_round_valor_max; [lia | lia |].
    rewrite suma_alineada. set (ez := Z.min ex ey).
    rewrite Z.mul_add_distr_r, <- !Z.mul_assoc, <- !pot2_suma by lia.
    replace (ex - ez + (ez + 1074)) with (ex + 1074) by lia.
    replace (ey - ez + (ez + 1074)) with (ey + 1074) by lia. lia.
Qed.

End Suma.

Section Producto_y_cociente.

(** The product of a number below [2^Bx] and a number below [2^By] is
    below [2^(Bx + By + 1)]. *)
Lemma SFmul_mag_max (x y : spec_float) (Bx By : Z) :
  mag_max Bx x -> mag_max By y -> -1074 <= Bx + By <= 973 ->
  mag_max (Bx + By + 1) (SFmul prec emax x y).
Proof.
  intros Hx Hy HB.
  destruct x as [[]|[]| |[] mx ex]; cbn [mag_max] in Hx; try tauto;
    destruct y as [[]|[]| |[] my ey]; cbn [mag_max] in Hy; try tauto.
  cbn [SFmul xorb].
  destruct (digits2_pos_cotas mx) as [_ Hmx].
  destruct (digits2_pos_cotas my) as [_ Hmy].
  assert (0 < Z.pos (digits2_pos mx)) by lia.
  assert (0 < Z.pos (digits2_pos my)) by lia.
  apply binary_round_aux_mag_max; [lia | | lia | lia].
  assert (Zdigits2 (Z.pos (mx * my))
          <= Z.pos (digits2_pos mx) + Z.pos (digits2_pos my)); [|lia].
  apply Zdigits2_le; [lia|]. rewrite Pos2Z.inj_mul.
  rewrite pot2_suma by lia. nia.
Qed.

Lemma SFdiv_core_binary_cotas (mx : positive) (ex : Z) (my : positive)
      (ey : Z) :
  let magx := Z.pos (digits2_pos mx) + ex in
  let magy := Z.pos (digits2_pos my) + ey in
  let r := SFdiv_core_binary prec emax (Z.pos mx) ex (Z.pos my) ey in
  0 <= fst (fst r)
  /\ snd (fst r) <= fexp64 (magx - magy)
  /\ Zdigits2 (fst (fst r)) + snd (fst r)
     <= Z.max (magx - magy + 1) (fexp64 (magx - magy)).
Proof.
  intros magx magy. unfold SFdiv_core_binary.
  cbn [Zdigits2]. rewrite fexp_fexp64. fold magx magy.
  set (e' := Z.min (fexp64 (magx - magy)) (ex - ey)).
  set (s := ex - ey - e').
  assert (Hs : 0 <= s) by (unfold s, e'; lia).
  set (m' := match s with
             | 0 => Z.pos mx
             | Z.pos _ => Z.shiftl (Z.pos mx) s
             | Z.neg _ => 0
             end).
  assert (Hm' : m' = Z.pos mx * 2 ^ s).
  { unfold m'. destruct s as [|p|p] eqn:Hp; [simpl; lia | | lia].
    rewrite Z.shiftl_mul_pow2 by lia. reflexivity. }
  clearbody m'.
  assert (Hq : fst (Z.div_eucl m' (Z.pos my)) = m' / Z.pos my)
    by reflexivity.
  destruct (Z.div_eucl m' (Z.pos my)) as [q r]. simpl in Hq. subst q.
  cbn [fst snd].
  assert (H2s := pot2_pos s Hs).
  assert (Hq0 : 0 <= m' / Z.pos my) by (apply Z.div_pos; nia).
  split; [exact Hq0|]. split; [unfold e'; lia|].
  destruct (Z.eq_dec (m' / Z.pos my) 0) as [->|Hne].
  - simpl Zdigits2. unfold e'. lia.
  - destruct (digits2_pos_cotas mx) as [_ Hmx].
    destruct (digits2_pos_cotas my) as [Hmy _].
    assert (0 < Z.pos (digits2_pos mx)) by lia.
    assert (0 < Z.pos (digits2_pos my)) by lia.
    set (dx := Z.pos (digits2_pos mx)) in *.
    set (dy := Z.pos (digits2_pos my)) in *.
    assert (H2dy := pot2_pos (dy - 1) ltac:(lia)).
    (* the quotient is below [2^(dx + s - dy + 1)] *)
    assert (Hm'lt : m' < 2 ^ (dx + s)) by (rewrite pot2_suma by lia; nia).
    assert (Hqle : (m' / Z.pos my) * 2 ^ (dy - 1) <= m').
    { pose proof (Z.mul_div_le m' (Z.pos my) ltac:(lia)). nia. }
    assert (Hexp : dy - 1 < dx + s).
    { apply (Z.pow_lt_mono_r_iff 2); [lia | lia | nia]. }
    assert (Zdigits2 (m' / Z.pos my) <= dx + s - dy + 1);
      [|unfold s, magx, magy in *; lia].
    apply Zdigits2_le; [lia|]. split; [lia|].
    assert (H2 : 2 ^ (dx + s) = 2 ^ (dx + s - dy + 1) * 2 ^ (dy - 1)).
    { rewrite <- pot2_suma by lia. f_equal. lia. }
    assert (H2' := pot2_pos (dx + s - dy + 1) ltac:(lia)). nia.
Qed.

(** The quotient of a finite number below [2^Bx] by a number that is at
    least [2^(By-1)] is below [2^(Bx - By + 2)]. *)
Lemma SFdiv_mag_max (mx : positive) (ex : Z) (y : spec_float) (Bx By : Z) :
  Z.pos (digits2_pos mx) + ex <= Bx -> mag_min By y ->
  -1075 <= Bx - By <= 1022 ->
  mag_max (Bx - By + 2) (SFdiv prec emax (S754_finite false mx ex) y).
Proof.
  intros Hx Hy HB.
  destruct y as [[]|[]| |[] my ey]; cbn [mag_min] in Hy; try tauto.
  cbn [SFdiv xorb].
  pose proof (SFdiv_core_binary_cotas mx ex my ey) as Hc.
  cbn zeta in Hc.
  destruct (SFdiv_core_binary prec emax (Z.pos mx) ex (Z.pos my) ey)
    as [[q e'] l].
  cbn [fst snd] in Hc. destruct Hc as (Hq & He' & Hdig).
  unfold fexp64 in *.
  replace (Bx - By + 2) with ((Bx - By + 1) + 1) by lia.
  apply binary_round_aux_mag_max; lia.
Qed.

End Producto_y_cociente.

(** * Binary64 arithmetic: the primitive floats of the programs *)

Section Flotantes.

Import C.

Lemma double_de_int_cotas (z : Z) :
  0 <= z < 2 ^ 31 ->
  magnitud_max 32 (double_de_int z)
  /\ (1 <= z -> magnitud_min 1 (double_de_int z)).
Proof.
  intros Hz. unfold magnitud_max, magnitud_min, double_de_int.
  destruct (Z.ltb_spec z 0) as [?|_]; [lia|].
  rewrite of_uint63_spec, Uint63.of_Z_spec.
  rewrite Z.mod_small
    by (change Uint63Axioms.wB with (2 ^ 63); split; [lia|];
        apply Z.lt_trans with (2 ^ 31); [lia | reflexivity]).
  destruct z as [|p|p]; [split; [exact I | lia] | | lia].
  cbn [binary_normalize]. split.
  - apply (binary_round_mag_max p 0 31); [|lia].
    assert (Zdigits2 (Z.pos p) <= 31) by (apply Zdigits2_le; lia).
    simpl Zdigits2 in *. lia.
  - intros _. apply binary_round_mag_min; lia.
Qed.

Lemma mag_max_no_negativo (B : Z) (x : spec_float) :
  mag_max B x -> no_negativo x.
Proof. destruct x as [[]|[]| |[] m e]; simpl; tauto. Qed.

(** [paso = 1.0 / n] is a finite number below 4. *)
Lemma paso_cotas (n : Z) :
  1 <= n < 2 ^ 31 -> magnitud_max 2 (1 / double_de_int n)%float.
Proof.
  intros Hn. unfold magnitud_max. rewrite div_spec.
  destruct (double_de_int_cotas n ltac:(lia)) as [_ Hmin].
  specialize (Hmin ltac:(lia)).
  change (Prim2SF 1) with (S754_finite false 4503599627370496 (-52)).
  apply (SFdiv_mag_max _ _ _ 1 1); [simpl; lia | exact Hmin | lia].
Qed.

(** Every term of the sums is a finite number that is at most 16. *)
Lemma integrando_acotado (paso : float) (i : Z) :
  magnitud_max 2 paso -> 0 <= i < 2 ^ 31 ->
  acotado 16 (integrando (paso * (double_de_int i + 0.5)))%float.
Proof.
  intros Hpaso Hi. unfold integrando.
  destruct (double_de_int_cotas i Hi) as [Hdi _].
  set (t := (double_de_int i + 0.5)%float).
  assert (Ht : magnitud_max 34 t).
  { unfold magnitud_max, t. rewrite add_spec.
    apply (SFadd_mag_max _ _ 32); [exact Hdi | | lia].
    change (Prim2SF 0.5) with (S754_finite false 4503599627370496 (-53)).
    simpl. lia. }
  set (x := (paso * t)%float).
  assert (Hx : magnitud_max 37 x).
  { unfold magnitud_max, x. rewrite mul_spec.
    apply (SFmul_mag_max _ _ 2 34); [exact Hpaso | exact Ht | lia]. }
  assert (Hxx : magnitud_max 75 (x * x)%float).
  { unfold magnitud_max. rewrite mul_spec.
    apply (SFmul_mag_max _ _ 37 37); [exact Hx | exact Hx | lia]. }
  assert (Hd : magnitud_min 1 (1 + x * x)%float).
  { unfold magnitud_min. rewrite add_spec.
    change (Prim2SF 1) with (S754_finite false 4503599627370496 (-52)).
    apply SFadd_mag_min; [simpl; lia | lia |].
    apply (mag_max_no_negativo 75). exact Hxx. }
  assert (Hy : magnitud_max 4 (4 / (1 + x * x))%float).
  { unfold magnitud_max. rewrite div_spec.
    change (Prim2SF 4) with (S754_finite false 4503599627370496 (-50)).
    apply (SFdiv_mag_max _ _ _ 3 1); [simpl; lia | exact Hd | lia]. }
  apply (mag_max_valor_max 4); [lia | apply Prim2SF_valid | exact Hy].
Qed.

Lemma suma_acotada (s y : float) (A B : Z) :
  acotado A s -> acotado B y -> 0 <= A -> 0 <= B -> A + B <= 2 ^ 52 ->
  acotado (A + B) (s + y)%float.
Proof.
  intros Hs Hy HA HB HAB. unfold acotado. rewrite add_spec.
  apply SFadd_valor_max; assumption.
Qed.

Lemma acotado_monotono (K K' : Z) (x : float) :
  K <= K' -> acotado K x -> acotado K' x.
Proof. apply valor_max_monotono. Qed.

(** Adding [0.0] on the left of a bounded number changes nothing. *)
Lemma cero_mas_acotado (K : Z) (x : float) :
  acotado K x -> (0 + x)%float = x.
Proof.
  unfold acotado. intros Hx. apply Prim2SF_inj. rewrite add_spec.
  change (Prim2SF 0) with (S754_zero false).
  destruct (Prim2SF x) as [[]|[]| |[] m e]; cbn [valor_max] in Hx;
    try tauto; reflexivity.
Qed.

(** A number of bounded magnitude is finite: it is no NaN and no
    infinity. *)
Lemma magnitud_max_finito (B : Z) (x : float) :
  magnitud_max B x -> is_finite x = true.
Proof.
  unfold magnitud_max, is_finite, is_nan, is_infinity. intros Hx.
  rewrite !FloatAxioms.eqb_spec, abs_spec.
  change (Prim2SF infinity) with (S754_infinity false).
  destruct (Prim2SF x) as [[]|[]| |[] m e]; cbn [mag_max] in Hx;
    try tauto; try reflexivity.
  unfold SFeqb; cbn [SFcompare SFabs].
  rewrite Z.compare_refl, Pos.compare_cont_refl. reflexivity.
Qed.

(** The partial sum over [a .. b - 1] is at most [16 * (b - a)]. *)
Lemma suma_puntos_medios_acotada (paso : float) (a b : Z) :
  magnitud_max 2 paso -> 0 <= a <= b -> b <= 2 ^ 31 ->
  acotado (16 * (b - a)) (suma_puntos_medios paso a b).
Proof.
  intros Hpaso Hab Hb.
  assert (Hk : forall k : nat,
             a + Z.of_nat k <= 2 ^ 31 ->
             acotado (16 * Z.of_nat k)
                     (suma_puntos_medios paso a (a + Z.of_nat k))).
  { induction k as [|k IH]; intros Hk.
    - rewrite Z.add_0_r, suma_puntos_medios_vacia. exact I.
    - replace (a + Z.of_nat (S k)) with ((a + Z.of_nat k) + 1) by lia.
      rewrite suma_puntos_medios_siguiente by lia.
      replace (16 * Z.of_nat (S k)) with (16 * Z.of_nat k + 16) by lia.
      apply suma_acotada; [apply IH; lia | | lia | lia |].
      + apply integrando_acotado; [exact Hpaso | lia].
      + apply Z.le_trans with (2 ^ 36); [|apply Z.pow_le_mono_r; lia].
        change (2 ^ 36) with (16 * 2 ^ 31 + 16 * 2 ^ 31). lia. }
  specialize (Hk (Z.to_nat (b - a))).
  replace (a + Z.of_nat (Z.to_nat (b - a))) with b in Hk by lia.
  replace (Z.of_nat (Z.to_nat (b - a))) with (b - a) in Hk by lia.
  apply Hk. lia.
Qed.

End Flotantes.

(** * pi_p.c: the result is a finite number *)

Section Resultado_finito.

Import C PiP.

Variable e : entorno.
Variables n h : Z.
Hypothesis Hn : 0 < n <= INT_MAX.
Hypothesis Hh : 0 < h <= INT_MAX.

Lemma parcial_acotado (k : Z) :
  0 <= k < h ->
  acotado (16 * (inicio_de n h (k + 1) - inicio_de n h k)) (parcial n h k).
Proof.
  intros Hk. unfold parcial.
  pose proof (inicio_de_cotas n h Hn Hh k ltac:(lia)).
  pose proof (inicio_de_cotas n h Hn Hh (k + 1) ltac:(lia)).
  pose proof (inicio_de_monotono n h Hn Hh k (k + 1) ltac:(lia)).
  unfold INT_MAX in *.
  apply suma_puntos_medios_acotada; [apply paso_cotas | |]; lia.
Qed.

Lemma suma_hasta_acotada (k : Z) :
  0 <= k <= h -> acotado (16 * inicio_de n h k) (suma_hasta e n h k).
Proof.
  intros Hk.
  assert (Hnat : forall j : nat,
             Z.of_nat j <= h ->
             acotado (16 * inicio_de n h (Z.of_nat j))
                     (suma_hasta e n h (Z.of_nat j))).
  { induction j as [|j IH]; intros Hj.
    - exact I.
    - replace (Z.of_nat (S j)) with (Z.of_nat j + 1) by lia.
      rewrite suma_hasta_siguiente by lia.
      pose proof (inicio_de_cotas n h Hn Hh (Z.of_nat j) ltac:(lia)).
      pose proof (inicio_de_cotas n h Hn Hh (Z.of_nat j + 1) ltac:(lia)).
      pose proof (inicio_de_monotono n h Hn Hh (Z.of_nat j)
                                     (Z.of_nat j + 1) ltac:(lia)).
      destruct (ausente e (Z.of_nat j)).
      + apply (acotado_monotono (16 * inicio_de n h (Z.of_nat j)));
          [lia | apply IH; lia].
      + replace (16 * inicio_de n h (Z.of_nat j + 1))
          with (16 * inicio_de n h (Z.of_nat j)
                + 16 * (inicio_de n h (Z.of_nat j + 1)
                        - inicio_de n h (Z.of_nat j))) by lia.
        apply suma_acotada; [apply IH; lia | apply parcial_acotado; lia
                             | lia | lia |].
        apply Z.le_trans with (2 ^ 35); [|apply Z.pow_le_mono_r; lia].
        change (2 ^ 35) with (16 * 2 ^ 31). unfold INT_MAX in *. lia. }
  specialize (Hnat (Z.to_nat k)). rewrite Z2Nat.id in Hnat by lia.
  apply Hnat. lia.
Qed.

(** Whatever results are absent, the value [paso * suma] is finite. *)
Lemma resultado_finito :
  is_finite (1 / double_de_int n * suma_en_orden (aportes e n h))%float
  = true.
Proof.
  apply (magnitud_max_finito 39). unfold magnitud_max. rewrite mul_spec.
  apply (SFmul_mag_max _ _ 2 36); [| |lia].
  - apply paso_cotas. unfold INT_MAX in *. lia.
  - apply (valor_max_mag_max (16 * inicio_de n h h) 35); [lia | |].
    + rewrite inicio_de_h by assumption.
      change (2 ^ 35) with (16 * 2 ^ 31). unfold INT_MAX in *. lia.
    + apply suma_hasta_acotada. lia.
Qed.

Lemma en_recolecciones (k : Z) (ev : evento) :
  0 <= k < h -> ev ∈ recoleccion e k -> ev ∈ recolecciones e h.
Proof.
  intros Hk Hev. unfold recolecciones.
  replace h with ((k + 1) + (h - (k + 1))) by lia.
  rewrite seqZ_app, fmap_app, concat_app by lia.
  apply elem_of_app. left.
  fold (recolecciones e (k + 1)). rewrite recolecciones_siguiente by lia.
  apply elem_of_app. right. exact Hev.
Qed.

End Resultado_finito.

(** * pi_p.c: failures of single workers; one worker against pi.c *)

Section Fallos_locales.

Import C PiP.

(** C7: once the arrays are allocated and the [h] threads are created,
    nothing that happens to single workers ends the computation.  Whatever
    the set of workers whose result is absent (the join reports an error, or
    the thread returned [NULL]), [calcular_pi_paralelo] returns; it has
    written a diagnostic for each of those workers; the value is [paso]
    times the sum of the partial sums of the other workers, in their order;
    and the value is finite (no NaN, no infinity).  When exactly one worker
    fails, the sum is over the [h - 1] others. *)
Theorem fallos_locales_no_abortan (e : entorno) (combustible : nat)
        (n h : Z) (t : list evento) :
  0 < n <= INT_MAX -> 0 < h <= INT_MAX ->
  (Z.to_nat n < combustible)%nat -> (Z.to_nat h < combustible)%nat ->
  reserva_hilos e = true -> reserva_datos e = true ->
  (forall k, 0 <= k < h -> codigo_crear e k = 0) ->
  let presentes := filter (fun k => ausente e k = false) (seqZ 0 h) in
  let r := (1 / double_de_int n
            * fold_left PrimFloat.add (parcial n h <$> presentes) 0)%float in
  calcular_pi_paralelo combustible e n h t
  = (Retorna r, t ++ lanzamientos h ++ recolecciones e h)
  /\ is_finite r = true
  /\ is_nan r = false
  /\ (forall k, 0 <= k < h ->
        (codigo_unir e k <> 0 ->
         Stderr_error_join k (codigo_unir e k) ∈ recolecciones e h)
        /\ (codigo_unir e k = 0 -> reserva_resultado e k = false ->
            Stderr_retorno_null k ∈ recolecciones e h))
  /\ (forall f, 0 <= f < h -> ausente e f = true ->
        (forall k, 0 <= k < h -> k <> f -> ausente e k = false) ->
        presentes = seqZ 0 f ++ seqZ (f + 1) (h - (f + 1))
        /\ length presentes = Z.to_nat (h - 1)).
Proof.
  intros Hn Hh Hcn Hch Hrh Hrd Hcrear presentes r.
  assert (Hfin : is_finite r = true)
    by (apply (resultado_finito e n h Hn Hh)).
  split; [apply calcular_pi_paralelo_retorna; assumption|].
  split; [exact Hfin|]. split.
  { unfold is_finite in Hfin. destruct (is_nan r); [discriminate|].
    reflexivity. }
  split.
  { intros k Hk. split.
    - intros Hne. apply (en_recolecciones e h k); [exact Hk|].
      unfold recoleccion.
      destruct (Z.eqb_spec (codigo_unir e k) 0) as [?|_]; [contradiction|].
      simpl. rewrite !elem_of_cons. auto.
    - intros Heq Hres. apply (en_recolecciones e h k); [exact Hk|].
      unfold recoleccion. rewrite Heq, Hres. simpl.
      rewrite !elem_of_cons. auto. }
  intros f Hf Haus Hotros.
  assert (Hpres : presentes = seqZ 0 f ++ seqZ (f + 1) (h - (f + 1))).
  { unfold presentes.
    replace (seqZ 0 h) with (seqZ 0 (f + (1 + (h - (f + 1)))))
      by (f_equal; lia).
    rewrite seqZ_app, (seqZ_app _ 1) by lia. rewrite !filter_app.
    rewrite (seqZ_cons _ 1), (seqZ_nil _ (Z.pred 1)) by lia.
    rewrite filter_cons_False, filter_nil
      by (replace (0 + f) with f by lia; congruence).
    simpl. f_equal.
    - apply filtrar_todos, Forall_seqZ. intros k Hk. apply Hotros; lia.
    - replace (0 + f + 1) with (f + 1) by lia.
      apply filtrar_todos, Forall_seqZ. intros k Hk. apply Hotros; lia. }
  split; [exact Hpres|].
  rewrite Hpres, length_app, !length_seqZ. lia.
Qed.

End Fallos_locales.

Section Un_hilo.

Import C PiP.

(** A finite number is within any relative tolerance of itself. *)
Lemma tolerancia_reflexiva (r : float) :
  magnitud_max 39 r ->
  (PrimFloat.abs (r - r) <=? 1e-9 * PrimFloat.abs r)%float = true.
Proof.
  unfold magnitud_max. intros Hr.
  rewrite leb_spec, abs_spec, sub_spec, mul_spec, abs_spec.
  unfold SF64sub, SF64mul.
  assert (Hprod : mag_max 11
                    (SFmul prec emax (Prim2SF 1e-9) (SFabs (Prim2SF r)))).
  { apply (SFmul_mag_max _ _ (-29) 39); [| |lia].
    - vm_compute. discriminate.
    - destruct (Prim2SF r) as [[]|[]| |[] m ex]; cbn [mag_max] in Hr;
        try tauto; assumption. }
  assert (Hresta : SFabs (SFsub prec emax (Prim2SF r) (Prim2SF r))
                   = S754_zero false).
  { destruct (Prim2SF r) as [[]|[]| |[] m ex]; cbn [mag_max] in Hr;
      try tauto; try reflexivity.
    cbn [SFsub cond_Zopp]. rewrite Z.sub_diag. reflexivity. }
  rewrite Hresta.
  destruct (SFmul _ _ _ _) as [[]|[]| |[] m ex]; cbn [mag_max] in Hprod;
    try tauto; reflexivity.
Qed.

(** C8: with one worker the partition is the single range [0 .. n - 1],
    and (the thread created, returning a value and joined without error)
    [calcular_pi_paralelo] returns the very number that
    [calcular_pi_secuencial] of [pi.c] returns for the same [n]: both add
    the same terms in the same order, and adding the one partial sum to
    [0.0] changes nothing.  So the two agree within the relative tolerance
    [1e-9]. *)
Theorem un_hilo_igual_secuencial (e : entorno) (combustible : nat) (n : Z)
        (t : list evento) :
  0 < n <= INT_MAX ->
  (Z.to_nat n < combustible)%nat -> (1 < combustible)%nat ->
  reserva_hilos e = true -> reserva_datos e = true ->
  codigo_crear e 0 = 0 -> reserva_resultado e 0 = true ->
  codigo_unir e 0 = 0 ->
  exists (a : arreglos) (r_par r_seq : float),
    lanzar combustible e n 1 t = (Retorna a, t ++ [Crear 0 0])
    /\ datos_hilos a
       = [{| indice_inicio := 0; indice_fin := n;
             paso := (1 / double_de_int n)%float |}]
    /\ calcular_pi_paralelo combustible e n 1 t
       = (Retorna r_par, t ++ [Crear 0 0; Unir 0])
    /\ Pi.calcular_pi_secuencial combustible n = Some r_seq
    /\ r_par = r_seq
    /\ (PrimFloat.abs (r_par - r_seq) <=? 1e-9 * PrimFloat.abs r_seq)%float
       = true.
Proof.
  intros Hn Hcn Hc1 Hrh Hrd Hcrear Hres Hunir.
  assert (H1 : 0 < 1 <= INT_MAX) by (unfold INT_MAX; lia).
  assert (Hcrear' : forall k, 0 <= k < 1 -> codigo_crear e k = 0)
    by (intros k Hk; assert (k = 0) as -> by lia; exact Hcrear).
  set (s := suma_puntos_medios (1 / double_de_int n)%float 0 n).
  assert (Hs : acotado (16 * (n - 0)) s).
  { apply suma_puntos_medios_acotada; [apply paso_cotas | |];
      unfold INT_MAX in *; lia. }
  assert (Hparcial : parcial n 1 0 = s).
  { unfold parcial, s. rewrite inicio_de_0 by lia.
    change (0 + 1) with 1. rewrite inicio_de_h by lia. reflexivity. }
  exists (arreglos_en e n 1 1), (1 / double_de_int n * s)%float,
    (1 / double_de_int n * s)%float.
  split; [apply (lanzar_exito e n 1 combustible); assumption || lia|].
  split.
  { unfold arreglos_en; simpl. change (seqZ 0 1) with [0]. simpl.
    unfold elemento. rewrite inicio_de_0 by lia.
    change (0 + 1) with 1. rewrite inicio_de_h by lia. reflexivity. }
  split.
  { rewrite (calcular_pi_paralelo_retorna e n 1 combustible)
      by (assumption || lia).
    unfold aportes, aportes_hasta, lanzamientos, recolecciones,
      suma_en_orden.
    change (seqZ 0 1) with [0].
    rewrite filter_cons_True
      by (unfold ausente; rewrite Hres, Hunir; reflexivity).
    rewrite filter_nil. cbn [fmap list_fmap fold_left concat app].
    unfold recoleccion. rewrite Hres, Hunir. cbn [Z.eqb negb app].
    rewrite Hparcial, (cero_mas_acotado _ _ Hs). reflexivity. }
  split.
  { unfold Pi.calcular_pi_secuencial.
    rewrite para_int_fold by (unfold INT_MIN, INT_MAX in *; lia).
    reflexivity. }
  split; [reflexivity|].
  apply tolerancia_reflexiva. unfold magnitud_max. rewrite mul_spec.
  apply (SFmul_mag_max _ _ 2 36); [| |lia].
  - apply paso_cotas. unfold INT_MAX in *. lia.
  - apply (valor_max_mag_max (16 * (n - 0)) 35); [lia | | exact Hs].
    change (2 ^ 35) with (16 * 2 ^ 31). unfold INT_MAX in *. lia.
Qed.

End Un_hilo.

(** * The theorems on concrete runs *)

Section Ejemplos.

Import C PiP.

Lemma trabajador_fibonacci_correcto_ejemplo :
  exists final : list Z,
    Fibonacci.trabajador_fibonacci 8
      {| Fibonacci.arreglo := [7; 7; 7; 7; 7; 7]; Fibonacci.cantidad := 5 |}
    = Some final
    /\ final !! 4%nat = Some 3
    /\ final !! 5%nat = Some 7.
Proof.
  destruct (trabajador_fibonacci_correcto 8 [7; 7; 7; 7; 7; 7] 5)
    as (final & Hrun & _ & Hfib & _ & _ & _ & Hresto).
  - unfold INT_MAX. lia.
  - simpl. lia.
  - simpl. lia.
  - exists final. split; [exact Hrun|]. split.
    + apply (Hfib 4%nat). simpl. lia.
    + rewrite (Hresto 5%nat) by (simpl; lia). reflexivity.
Defined.

Lemma particion_completa_ejemplo :
  exists (a : arreglos) (t' : list evento),
    lanzar 12 entorno_sin_fallos 10 3 [] = (Retorna a, t')
    /\ length (datos_hilos a) = 3%nat.
Proof.
  destruct (particion_completa entorno_sin_fallos 12 10 3 [])
    as (a & t' & Hrun & Hlen & _).
  - unfold INT_MAX. lia.
  - unfold INT_MAX. lia.
  - simpl. lia.
  - simpl. lia.
  - intros k Hk. reflexivity.
  - exists a, t'. split; [exact Hrun | exact Hlen].
Defined.

Lemma calcular_pi_paralelo_suma_ejemplo :
  calcular_pi_paralelo 12 entorno_sin_fallos 10 3 []
  = (Retorna (1 / double_de_int 10
              * fold_left PrimFloat.add (parcial 10 3 <$> seqZ 0 3) 0)%float,
     [] ++ lanzamientos 3 ++ (Unir <$> seqZ 0 3)).
Proof.
  apply (calcular_pi_paralelo_suma entorno_sin_fallos 12 10 3 []).
  - unfold INT_MAX. lia.
  - unfold INT_MAX. lia.
  - simpl. lia.
  - simpl. lia.
  - reflexivity.
  - reflexivity.
  - intros k Hk. repeat split.
Defined.

Lemma trabajo_suma_parcial_correcto_ejemplo :
  trabajo_suma_parcial 5 true
    {| indice_inicio := 4; indice_fin := 7; paso := 0.1%float |}
  = Some (Some (suma_puntos_medios 0.1%float 4 7)).
Proof.
  apply (trabajo_suma_parcial_correcto 5
           {| indice_inicio := 4; indice_fin := 7; paso := 0.1%float |}).
  - unfold INT_MIN. simpl. lia.
  - simpl. lia.
  - unfold INT_MAX. simpl. lia.
  - simpl. lia.
Defined.

Lemma hilos_no_positivos_ejemplo :
  programa 3 entorno_sin_fallos ["pi_p"%string; "-3"%string; "1"%string]
  = (fun r => (fst r, Stderr_hilos_invalido (-3) :: snd r))
      <$> programa 3 entorno_sin_fallos
            ["pi_p"%string; "1"%string; "1"%string].
Proof.
  destruct (hilos_no_positivos 3 entorno_sin_fallos
              ["pi_p"%string; "-3"%string; "1"%string])
    as (_ & _ & _ & Hrun & _).
  - simpl. lia.
  - vm_compute. discriminate.
  - exact Hrun.
Defined.

Lemma fallo_al_lanzar_ejemplo :
  calcular_pi_paralelo 12 entorno_sin_hilo_2 10 4 []
  = (Sale EXIT_FAILURE,
     [Crear 0 0; Crear 1 0; Crear 2 11; Stderr_error_crear 2 11;
      Unir 0; Unir 1]).
Proof.
  destruct (fallo_al_lanzar entorno_sin_hilo_2 12 10 4 2 []) as [Hrun _].
  - unfold INT_MAX. lia.
  - unfold INT_MAX. lia.
  - simpl. lia.
  - simpl. lia.
  - reflexivity.
  - reflexivity.
  - lia.
  - intros j Hj. simpl. destruct (Z.eqb_spec j 2); [lia | reflexivity].
  - simpl. lia.
  - exact Hrun.
Defined.

Lemma fallos_locales_no_abortan_ejemplo :
  exists r : float,
    calcular_pi_paralelo 12 entorno_con_ausentes 10 4 []
    = (Retorna r,
       [Crear 0 0; Crear 1 0; Crear 2 0; Crear 3 0;
        Unir 0; Stderr_error_join 0 22; Unir 1; Unir 2;
        Stderr_retorno_null 2; Unir 3])
    /\ is_finite r = true.
Proof.
  pose proof (fallos_locales_no_abortan entorno_con_ausentes 12 10 4 [])
    as H.
  cbv zeta in H. destruct H as (Hrun & Hfin & _).
  - unfold INT_MAX. lia.
  - unfold INT_MAX. lia.
  - simpl. lia.
  - simpl. lia.
  - reflexivity.
  - reflexivity.
  - intros k Hk. reflexivity.
  - eexists. split; [exact Hrun | exact Hfin].
Defined.

Lemma un_hilo_igual_secuencial_ejemplo :
  exists r : float,
    calcular_pi_paralelo 12 entorno_sin_fallos 10 1 []
    = (Retorna r, [Crear 0 0; Unir 0])
    /\ Pi.calcular_pi_secuencial 12 10 = Some r.
Proof.
  destruct (un_hilo_igual_secuencial entorno_sin_fallos 12 10 [])
    as (a & r_par & r_seq & _ & _ & Hpar & Hseq & Heq & _).
  - unfold INT_MAX. lia.
  - simpl. lia.
  - lia.
  - reflexivity.
  - reflexivity.
  - reflexivity.
  - reflexivity.
  - reflexivity.
  - exists r_par. split; [exact Hpar | rewrite Heq; exact Hseq].
Defined.

Lemma un_subintervalo_ejemplo :
  calcular_pi_paralelo 7 entorno_sin_fallos 1 5 []
  = (Retorna 3.2%float, [] ++ lanzamientos 5 ++ (Unir <$> seqZ 0 5)).
Proof.
  apply (un_subintervalo entorno_sin_fallos 7 5 []).
  - unfold INT_MAX. lia.
  - lia.
  - simpl. lia.
  - reflexivity.
  - reflexivity.
  - intros k Hk. repeat split.
Defined.

End Ejemplos.

(** * pi_p.c: every thread that is created is joined *)

Section Hilos_creados_y_unidos.

Import C PiP.

Lemma creados_app (t1 t2 : list evento) :
  creados (t1 ++ t2) = creados t1 ++ creados t2.
Proof. apply omap_app. Qed.

Lemma unidos_app (t1 t2 : list evento) :
  unidos (t1 ++ t2) = unidos t1 ++ unidos t2.
Proof. apply omap_app. Qed.

Lemma creados_lanzamientos (k : Z) : creados (lanzamientos k) = seqZ 0 k.
Proof.
  unfold lanzamientos. induction (seqZ 0 k) as [|j l IH]; [reflexivity|].
  rewrite fmap_cons. cbn. f_equal. exact IH.
Qed.

Lemma unidos_lanzamientos (k : Z) : unidos (lanzamientos k) = [].
Proof.
  unfold lanzamientos. induction (seqZ 0 k) as [|j l IH]; [reflexivity|].
  rewrite fmap_cons. cbn. exact IH.
Qed.

Lemma creados_uniones (l : list Z) : creados (Unir <$> l) = [].
Proof. induction l as [|j l IH]; [reflexivity|]. cbn. exact IH. Qed.

Lemma unidos_uniones (l : list Z) : unidos (Unir <$> l) = l.
Proof.
  induction l as [|j l IH]; [reflexivity|]. cbn. f_equal. exact IH.
Qed.

Lemma creados_recoleccion (e : entorno) (k : Z) :
  creados (recoleccion e k) = [].
Proof.
  unfold recoleccion.
  destruct (negb _); [reflexivity|]. destruct (reserva_resultado e k);
    reflexivity.
Qed.

Lemma unidos_recoleccion (e : entorno) (k : Z) :
  unidos (recoleccion e k) = [k].
Proof.
  unfold recoleccion.
  destruct (negb _); [reflexivity|]. destruct (reserva_resultado e k);
    reflexivity.
Qed.

Lemma creados_recolecciones (e : entorno) (k : Z) :
  creados (recolecciones e k) = [].
Proof.
  unfold recolecciones. induction (seqZ 0 k) as [|j l IH]; [reflexivity|].
  rewrite fmap_cons. cbn [concat]. rewrite creados_app, IH.
  rewrite creados_recoleccion. reflexivity.
Qed.

Lemma unidos_recolecciones (e : entorno) (k : Z) :
  unidos (recolecciones e k) = seqZ 0 k.
Proof.
  unfold recolecciones. induction (seqZ 0 k) as [|j l IH]; [reflexivity|].
  rewrite fmap_cons. cbn [concat]. rewrite unidos_app, IH.
  rewrite unidos_recoleccion. reflexivity.
Qed.

(** Either every launch succeeds or there is a first one that fails. *)
Lemma primer_fallo (f : Z -> Z) (h : Z) :
  0 <= h ->
  (forall k, 0 <= k < h -> f k = 0)
  \/ exists k, 0 <= k < h /\ f k <> 0
               /\ forall j, 0 <= j < k -> f j = 0.
Proof.
  intros Hh.
  assert (Hnat : forall m : nat,
             (forall k, 0 <= k < Z.of_nat m -> f k = 0)
             \/ exists k, 0 <= k < Z.of_nat m /\ f k <> 0
                          /\ forall j, 0 <= j < k -> f j = 0).
  { induction m as [|m [IH|(k & Hk & Hf & Hantes)]].
    - left. intros k Hk. lia.
    - destruct (Z.eq_dec (f (Z.of_nat m)) 0) as [Hz|Hnz].
      + left. intros k Hk.
        destruct (Z.eq_dec k (Z.of_nat m)) as [->|Hne]; [exact Hz|].
        apply IH. lia.
      + right. exists (Z.of_nat m). split; [lia|]. split; [exact Hnz|].
        exact IH.
    - right. exists k. split; [lia|]. split; assumption. }
  specialize (Hnat (Z.to_nat h)). rewrite Z2Nat.id in Hnat by lia.
  exact Hnat.
Qed.

(** When one of the two arrays cannot be allocated, the function ends the
    process after the diagnostic. *)
Lemma calcular_pi_paralelo_sin_reserva (e : entorno) (combustible : nat)
      (n h : Z) (t : list evento) :
  reserva_hilos e = false \/ reserva_datos e = false ->
  calcular_pi_paralelo combustible e n h t
  = (Sale EXIT_FAILURE, t ++ [Stderr_fallo_reserva]).
Proof.
  intros Hres. unfold calcular_pi_paralelo.
  assert (negb (reserva_hilos e) || negb (reserva_datos e) = true) as ->.
  { destruct Hres as [-> | ->]; [reflexivity|].
    destruct (reserva_hilos e); reflexivity. }
  reflexivity.
Qed.

Lemma uniones_fallidas_app (t1 t2 : list evento) :
  uniones_fallidas (t1 ++ t2) = uniones_fallidas t1 ++ uniones_fallidas t2.
Proof. apply omap_app. Qed.

Lemma uniones_fallidas_lanzamientos (k : Z) :
  uniones_fallidas (lanzamientos k) = [].
Proof.
  unfold lanzamientos. induction (seqZ 0 k) as [|j l IH]; [reflexivity|].
  rewrite fmap_cons. cbn. exact IH.
Qed.

Lemma uniones_fallidas_uniones (l : list Z) :
  uniones_fallidas (Unir <$> l) = [].
Proof. induction l as [|j l IH]; [reflexivity|]. cbn. exact IH. Qed.

(** The second loop writes the diagnostic of a failed join for exactly the
    threads whose join reports an error. *)
Lemma uniones_fallidas_recolecciones (e : entorno) (k : Z) :
  uniones_fallidas (recolecciones e k)
  = filter (fun j => codigo_unir e j <> 0) (seqZ 0 k).
Proof.
  unfold recolecciones. induction (seqZ 0 k) as [|j l IH]; [reflexivity|].
  rewrite fmap_cons. cbn [concat]. rewrite uniones_fallidas_app, IH.
  unfold recoleccion.
  destruct (Z.eqb_spec (codigo_unir e j) 0) as [Hcero|Hfalla]; cbn [negb].
  - rewrite filter_cons_False by (intros Hno; exact (Hno Hcero)).
    destruct (reserva_resultado e j); reflexivity.
  - rewrite filter_cons_True by exact Hfalla. reflexivity.
Qed.

(** X1: whatever the environment does (allocations, launches, joins and
    results of the threads), [calcular_pi_paralelo] with enough fuel ends,
    by returning or by [exit], and it has called [pthread_join] exactly once
    on each thread it created, in the order of creation, whatever those
    calls returned.  One of three cases holds.  Both arrays are allocated
    and every thread is created: it returns a value, the threads created
    and joined are [0 .. h - 1], and the joins diagnosed as failed are
    exactly those that report an error.  An allocation fails: it writes the
    one diagnostic and ends the process with [EXIT_FAILURE]; no thread is
    created and none is joined.  Both arrays are allocated and thread [k]
    is the first that cannot be created: it ends the process with
    [EXIT_FAILURE], the threads created and joined are [0 .. k - 1], and
    what those joins return is ignored. *)
Theorem hilos_unidos_son_creados (e : entorno) (combustible : nat)
        (n h : Z) (t : list evento) :
  0 < n <= INT_MAX -> 0 < h <= INT_MAX ->
  (Z.to_nat n < combustible)%nat -> (Z.to_nat h < combustible)%nat ->
  exists (r : resultado float) (t' : list evento),
    calcular_pi_paralelo combustible e n h t = (r, t ++ t')
    /\ unidos t' = creados t'
    /\ (sin_fallo_fatal e h
        /\ (exists v, r = Retorna v)
        /\ creados t' = seqZ 0 h
        /\ uniones_fallidas t'
           = filter (fun j => codigo_unir e j <> 0) (seqZ 0 h)
        \/ (reserva_hilos e = false \/ reserva_datos e = false)
           /\ r = Sale EXIT_FAILURE
           /\ t' = [Stderr_fallo_reserva]
           /\ creados t' = [] /\ unidos t' = []
        \/ reserva_hilos e = true /\ reserva_datos e = true
           /\ r = Sale EXIT_FAILURE
           /\ exists k, 0 <= k < h
                        /\ codigo_crear e k <> 0
                        /\ (forall j, 0 <= j < k -> codigo_crear e j = 0)
                        /\ creados t' = seqZ 0 k
                        /\ uniones_fallidas t' = []).
Proof.
  intros Hn Hh Hcn Hch.
  destruct (reserva_hilos e) eqn:Hrh; [destruct (reserva_datos e) eqn:Hrd|].
  - destruct (primer_fallo (codigo_crear e) h ltac:(lia))
      as [Hok|(k & Hk & Hfallo & Hantes)].
    + eexists _, _. split.
      * apply calcular_pi_paralelo_retorna; assumption.
      * rewrite unidos_app, creados_app, unidos_lanzamientos,
          creados_lanzamientos, unidos_recolecciones, creados_recolecciones.
        rewrite app_nil_r. split; [reflexivity|]. left.
        split; [repeat split; assumption|]. split; [eauto|].
        split; [reflexivity|].
        rewrite uniones_fallidas_app, uniones_fallidas_lanzamientos.
        apply uniones_fallidas_recolecciones.
    + exists (Sale EXIT_FAILURE). eexists. split.
      * unfold calcular_pi_paralelo. rewrite Hrh, Hrd. simpl.
        unfold ligar at 1.
        rewrite (lanzar_fallo e n h combustible Hn Hh Hcn Hch k t Hk Hantes
                              Hfallo).
        reflexivity.
      * rewrite !unidos_app, !creados_app, unidos_lanzamientos,
          creados_lanzamientos, unidos_uniones, creados_uniones.
        rewrite !uniones_fallidas_app, uniones_fallidas_lanzamientos,
          uniones_fallidas_uniones.
        cbn. destruct (Z.eqb_spec (codigo_crear e k) 0) as [?|_];
          [contradiction|].
        rewrite !app_nil_r. split; [reflexivity|]. right. right.
        split; [reflexivity|]. split; [reflexivity|].
        split; [reflexivity|]. exists k.
        split; [exact Hk|]. split; [exact Hfallo|].
        split; [exact Hantes|]. split; reflexivity.
  - exists (Sale EXIT_FAILURE), [Stderr_fallo_reserva]. split.
    + apply calcular_pi_paralelo_sin_reserva. auto.
    + split; [reflexivity|]. right. left. repeat split. auto.
  - exists (Sale EXIT_FAILURE), [Stderr_fallo_reserva]. split.
    + apply calcular_pi_paralelo_sin_reserva. auto.
    + split; [reflexivity|]. right. left. repeat split. auto.
Qed.

End Hilos_creados_y_unidos.

(** * pi_p.c: when the program succeeds and what it prints *)

Section Estado_de_salida.

Import C PiP.

Lemma salida_app (t1 t2 : list evento) :
  salida (t1 ++ t2) = salida t1 ++ salida t2.
Proof. apply List.filter_app. Qed.

Lemma salida_lanzamientos (k : Z) : salida (lanzamientos k) = [].
Proof.
  unfold lanzamientos. induction (seqZ 0 k) as [|j l IH]; [reflexivity|].
  rewrite fmap_cons. cbn. exact IH.
Qed.

Lemma salida_uniones (l : list Z) : salida (Unir <$> l) = [].
Proof. induction l as [|j l IH]; [reflexivity|]. cbn. exact IH. Qed.

Lemma salida_recolecciones (e : entorno) (k : Z) :
  salida (recolecciones e k) = [].
Proof.
  unfold recolecciones. induction (seqZ 0 k) as [|j l IH]; [reflexivity|].
  rewrite fmap_cons. cbn [concat]. rewrite salida_app, IH.
  unfold recoleccion. destruct (negb _); [reflexivity|].
  destruct (reserva_resultado e j); reflexivity.
Qed.

Lemma hilos_usados_rango (argv : list string) :
  0 < hilos_usados argv <= INT_MAX.
Proof.
  unfold hilos_usados. destruct (Z.leb_spec (hilos_pedidos argv) 0).
  - unfold INT_MAX. lia.
  - split; [lia|]. unfold hilos_pedidos. destruct (_ >=? 2).
    + apply a_int_rango.
    + unfold HILOS_POR_DEFECTO, INT_MAX. lia.
Qed.

Lemma intervalos_pedidos_rango (argv : list string) :
  intervalos_pedidos argv <= INT_MAX.
Proof.
  unfold intervalos_pedidos. destruct (_ >=? 3).
  - apply a_int_rango.
  - unfold N_INTERVALOS_POR_DEFECTO, INT_MAX. lia.
Qed.

(** The run of the program in terms of the worker count it uses. *)
Lemma programa_con_hilos_usados (combustible : nat) (e : entorno)
      (argv : list string) :
  programa combustible e argv
  = match
      prefijar (if hilos_pedidos argv <=? 0
                then [Stderr_hilos_invalido (hilos_pedidos argv)] else [])
               (main_desde_n combustible e argv (intervalos_pedidos argv)
                             (hilos_usados argv) [])
    with
    | (Retorna codigo, t) => Some (codigo, t)
    | (Sale codigo, t) => Some (codigo, t)
    | (Agotado, _) => None
    end.
Proof.
  rewrite programa_desde_n. unfold hilos_usados.
  destruct (hilos_pedidos argv <=? 0); [reflexivity|].
  destruct (main_desde_n _ _ _ _ _ _) as [[c|c|] t]; reflexivity.
Qed.

(** X2: the program ends with [EXIT_SUCCESS] exactly when the count of
    sub-intervals it reads is positive, both arrays are allocated and every
    thread is created; it then writes to the standard output the count, the
    worker count it used, the approximation, its absolute error and the
    time, in this order.  In every other case it ends with [EXIT_FAILURE]
    and writes nothing to the standard output.  What the joins report and
    what the threads return changes neither the exit status nor the number
    of lines. *)
Theorem programa_estado (combustible : nat) (e : entorno)
        (argv : list string) :
  (Z.to_nat (intervalos_pedidos argv) < combustible)%nat ->
  (Z.to_nat (hilos_usados argv) < combustible)%nat ->
  exists (codigo : Z) (t : list evento),
    programa combustible e argv = Some (codigo, t)
    /\ (0 < intervalos_pedidos argv
        /\ sin_fallo_fatal e (hilos_usados argv)
        /\ codigo = EXIT_SUCCESS
        /\ salida t
           = informe e (intervalos_pedidos argv) (hilos_usados argv)
               (1 / double_de_int (intervalos_pedidos argv)
                * suma_en_orden
                    (aportes e (intervalos_pedidos argv)
                             (hilos_usados argv)))%float
        \/ ~ (0 < intervalos_pedidos argv
              /\ sin_fallo_fatal e (hilos_usados argv))
           /\ codigo = EXIT_FAILURE
           /\ salida t = []).
Proof.
  intros Hcn Hch. rewrite programa_con_hilos_usados.
  set (n := intervalos_pedidos argv) in *.
  set (h := hilos_usados argv) in *.
  set (pre := if hilos_pedidos argv <=? 0
              then [Stderr_hilos_invalido (hilos_pedidos argv)] else []).
  assert (Hpre : salida pre = [])
    by (unfold pre; destruct (_ <=? 0); reflexivity).
  pose proof (hilos_usados_rango argv) as Hh. fold h in Hh.
  pose proof (intervalos_pedidos_rango argv) as Hnmax. fold n in Hnmax.
  destruct (Z_le_gt_dec n 0) as [Hn0|Hn0].
  { rewrite main_desde_n_rechaza by exact Hn0. cbn.
    eexists _, _. split; [reflexivity|]. right.
    split; [lia|]. split; [reflexivity|].
    rewrite salida_app, Hpre. reflexivity. }
  assert (Hn : 0 < n <= INT_MAX) by lia.
  assert (Hfatal : forall t',
             salida t' = [] ->
             ~ sin_fallo_fatal e h ->
             main_desde_n combustible e argv n h [] = (Sale EXIT_FAILURE, t') ->
             exists (codigo : Z) (t : list evento),
               match prefijar pre (main_desde_n combustible e argv n h []) with
               | (Retorna codigo, t) => Some (codigo, t)
               | (Sale codigo, t) => Some (codigo, t)
               | (Agotado, _) => None
               end = Some (codigo, t)
               /\ (0 < n /\ sin_fallo_fatal e h /\ codigo = EXIT_SUCCESS
                   /\ salida t
                      = informe e n h
                          (1 / double_de_int n
                           * suma_en_orden (aportes e n h))%float
                   \/ ~ (0 < n /\ sin_fallo_fatal e h)
                      /\ codigo = EXIT_FAILURE /\ salida t = [])).
  { intros t' Ht' Hno ->. cbn. eexists _, _. split; [reflexivity|].
    right. split; [tauto|]. split; [reflexivity|].
    rewrite salida_app, Hpre, Ht'. reflexivity. }
  destruct (reserva_hilos e) eqn:Hrh; [destruct (reserva_datos e) eqn:Hrd|].
  - destruct (primer_fallo (codigo_crear e) h ltac:(lia))
      as [Hok|(k & Hk & Hfallo & Hantes)].
    + rewrite (main_desde_n_informa combustible e argv n h [] _ _ Hn
                 (calcular_pi_paralelo_retorna e n h combustible Hn Hh Hcn
                    Hch [] Hrh Hrd Hok)).
      cbn. eexists _, _. split; [reflexivity|]. left.
      split; [lia|]. split; [repeat split; assumption|].
      split; [reflexivity|].
      rewrite !salida_app, Hpre, salida_lanzamientos, salida_recolecciones.
      reflexivity.
    + eapply Hfatal; cycle 2.
      * apply (main_desde_n_sale combustible e argv n h EXIT_FAILURE [] _ Hn).
        unfold calcular_pi_paralelo. rewrite Hrh, Hrd. simpl.
        unfold ligar at 1.
        rewrite (lanzar_fallo e n h combustible Hn Hh Hcn Hch k [] Hk Hantes
                              Hfallo).
        reflexivity.
      * rewrite !salida_app, salida_lanzamientos, salida_uniones.
        reflexivity.
      * intros (_ & _ & Hok). apply Hfallo, Hok, Hk.
  - eapply Hfatal; cycle 2.
    + apply (main_desde_n_sale combustible e argv n h EXIT_FAILURE [] _ Hn).
      apply calcular_pi_paralelo_sin_reserva. auto.
    + reflexivity.
    + intros (_ & Hd & _). congruence.
  - eapply Hfatal; cycle 2.
    + apply (main_desde_n_sale combustible e argv n h EXIT_FAILURE [] _ Hn).
      apply calcular_pi_paralelo_sin_reserva. auto.
    + reflexivity.
    + intros (Hd & _). congruence.
Qed.

End Estado_de_salida.

(** * pi_p.c: the thread function on any range; the clock *)

Section Trabajador_total.

Import C PiP.

(** X3: on every range of [int] indices the thread function ends; it
    returns [NULL] exactly when its allocation fails, and otherwise a
    pointer to the sum over the range; on a range whose end is not after
    its start (an empty or a reversed range) the loop body never runs and
    the sum is [0.0]. *)
Theorem trabajo_suma_parcial_total (combustible : nat) (reserva : bool)
        (d : DatosHilo) :
  es_int (indice_inicio d) -> es_int (indice_fin d) ->
  (Z.to_nat (indice_fin d - indice_inicio d) < combustible)%nat ->
  trabajo_suma_parcial combustible reserva d
  = Some (if reserva
          then Some (suma_puntos_medios (paso d) (indice_inicio d)
                                        (indice_fin d))
          else None)
  /\ (indice_fin d <= indice_inicio d ->
      suma_puntos_medios (paso d) (indice_inicio d) (indice_fin d)
      = 0%float).
Proof.
  unfold es_int. intros Hi Hf Hc. split.
  - unfold trabajo_suma_parcial.
    destruct (Z_le_gt_dec (indice_inicio d) (indice_fin d)) as [Hle|Hgt].
    + rewrite para_int_fold by lia. reflexivity.
    + destruct combustible as [|c]; [lia|]. simpl.
      destruct (Z.ltb_spec (indice_inicio d) (indice_fin d)) as [?|_];
        [lia|].
      unfold suma_puntos_medios. rewrite seqZ_nil by lia. reflexivity.
  - intros Hle. unfold suma_puntos_medios. rewrite seqZ_nil by lia.
    reflexivity.
Qed.

Lemma double_de_long_cotas (z : Z) :
  0 <= z < 2 ^ 62 -> magnitud_max 63 (double_de_long z).
Proof.
  intros Hz. unfold magnitud_max, double_de_long.
  destruct (Z.ltb_spec z 0) as [?|_]; [lia|].
  rewrite of_uint63_spec, Uint63.of_Z_spec.
  rewrite Z.mod_small
    by (change Uint63Axioms.wB with (2 ^ 63); split; [lia|];
        apply Z.lt_trans with (2 ^ 62); [lia | reflexivity]).
  destruct z as [|p|p]; [exact I | | lia].
  cbn [binary_normalize].
  apply (binary_round_mag_max p 0 62); [|lia].
  assert (Zdigits2 (Z.pos p) <= 62) by (apply Zdigits2_le; lia).
  simpl Zdigits2 in *. lia.
Qed.

(** A finite number that is not negative compares as at least [0.0]. *)
Lemma magnitud_max_no_negativa (B : Z) (x : float) :
  magnitud_max B x -> (0 <=? x)%float = true.
Proof.
  unfold magnitud_max. intros Hx. rewrite leb_spec.
  change (Prim2SF 0) with (S754_zero false).
  destruct (Prim2SF x) as [[]|[]| |[] m ex]; cbn [mag_max] in Hx;
    try tauto; reflexivity.
Qed.

(** X4: for a reading of the clock with [0 <= tv_sec < 2^62] and
    [0 <= tv_nsec < 10^9], [obtener_tiempo] is a finite number of seconds
    that is not negative (no NaN, no infinity); [pi.c] and [pi_p.c] compute
    it alike. *)
Theorem obtener_tiempo_finito (instante : timespec) :
  0 <= tv_sec instante < 2 ^ 62 ->
  0 <= tv_nsec instante < 1000000000 ->
  is_finite (obtener_tiempo instante) = true
  /\ (0 <=? obtener_tiempo instante)%float = true
  /\ PiMain.obtener_tiempo instante = obtener_tiempo instante.
Proof.
  intros Hs Hns.
  assert (Hmag : magnitud_max 65 (obtener_tiempo instante)).
  { unfold magnitud_max, obtener_tiempo. rewrite add_spec, mul_spec.
    apply (SFadd_mag_max _ _ 63); [| |lia].
    - apply double_de_long_cotas. exact Hs.
    - apply (mag_max_monotono 35); [lia|].
      apply (SFmul_mag_max _ _ 63 (-29)); [| |lia].
      + apply double_de_long_cotas. split; [lia|].
        apply Z.lt_trans with (2 ^ 30); [lia | reflexivity].
      + vm_compute. discriminate. }
  split; [apply (magnitud_max_finito 65), Hmag|].
  split; [apply (magnitud_max_no_negativa 65), Hmag | reflexivity].
Qed.

End Trabajador_total.

(** * pi.c *)

Section Secuencial.

Import C.

Lemma calcular_pi_secuencial_eq (combustible : nat) (n : Z) :
  0 < n <= INT_MAX -> (Z.to_nat n < combustible)%nat ->
  Pi.calcular_pi_secuencial combustible n
  = Some (1 / double_de_int n
          * suma_puntos_medios (1 / double_de_int n) 0 n)%float.
Proof.
  intros Hn Hc. unfold Pi.calcular_pi_secuencial.
  rewrite para_int_fold by (unfold INT_MIN, INT_MAX in *; lia).
  reflexivity.
Qed.

Lemma pi_secuencial_magnitud (n : Z) :
  0 < n <= INT_MAX ->
  magnitud_max 39 (1 / double_de_int n
                   * suma_puntos_medios (1 / double_de_int n) 0 n)%float.
Proof.
  intros Hn. unfold magnitud_max. rewrite mul_spec.
  apply (SFmul_mag_max _ _ 2 36); [| |lia].
  - apply paso_cotas. unfold INT_MAX in *. lia.
  - apply (valor_max_mag_max (16 * (n - 0)) 35); [lia | |].
    + change (2 ^ 35) with (16 * 2 ^ 31). unfold INT_MAX in *. lia.
    + apply suma_puntos_medios_acotada; [apply paso_cotas | |];
        unfold INT_MAX in *; lia.
Qed.

(** X5: for [1 <= n <= INT_MAX], [calcular_pi_secuencial] of [pi.c] returns
    [paso] times the sum, accumulated from [0.0] in increasing order of
    [i], of [funcion_integrando] at [paso * (i + 0.5)] for [i] from 0 to
    [n - 1], with [paso = 1.0 / n]; the value is finite and not negative. *)
Theorem calcular_pi_secuencial_correcto (combustible : nat) (n : Z) :
  0 < n <= INT_MAX -> (Z.to_nat n < combustible)%nat ->
  exists v : float,
    Pi.calcular_pi_secuencial combustible n = Some v
    /\ v = (1 / double_de_int n
            * fold_left
                (fun suma i =>
                   suma
                   + Pi.funcion_integrando
                       (1 / double_de_int n * (double_de_int i + 0.5)))
                (seqZ 0 n) 0)%float
    /\ is_finite v = true
    /\ (0 <=? v)%float = true.
Proof.
  intros Hn Hc. eexists. split; [apply calcular_pi_secuencial_eq; assumption|].
  split.
  - unfold suma_puntos_medios. rewrite Z.sub_0_r. reflexivity.
  - split.
    + apply (magnitud_max_finito 39), pi_secuencial_magnitud, Hn.
    + apply (magnitud_max_no_negativa 39), pi_secuencial_magnitud, Hn.
Qed.

Lemma intervalos_secuencial_rango (argv : list string) :
  intervalos_secuencial argv <= INT_MAX.
Proof.
  unfold intervalos_secuencial. destruct (_ >=? 2).
  - apply a_int_rango.
  - unfold PiMain.N_INTERVALOS_POR_DEFECTO, INT_MAX. lia.
Qed.

(** X6: [main] of [pi.c] ends with [EXIT_FAILURE] exactly when the count of
    sub-intervals it reads is [<= 0]; it has then written one diagnostic
    (and no usage text) and no result.  Otherwise it ends with
    [EXIT_SUCCESS] having written the count, the value of
    [calcular_pi_secuencial], which is finite, its absolute error and the
    time. *)
Theorem pi_main_estado (combustible : nat) (e : PiMain.entorno)
        (argv : list string) :
  (Z.to_nat (intervalos_secuencial argv) < combustible)%nat ->
  (intervalos_secuencial argv <= 0
   /\ PiMain.main combustible e argv
      = Some (EXIT_FAILURE, [PiMain.Stderr_n_fuera_de_rango]))
  \/ (0 < intervalos_secuencial argv
      /\ exists v : float,
           Pi.calcular_pi_secuencial combustible (intervalos_secuencial argv)
           = Some v
           /\ is_finite v = true
           /\ PiMain.main combustible e argv
              = Some (EXIT_SUCCESS,
                      [PiMain.Stdout_n (intervalos_secuencial argv);
                       PiMain.Stdout_pi v;
                       PiMain.Stdout_error_absoluto
                         (PrimFloat.abs (v - PiMain.PI_REFERENCIA)%float);
                       PiMain.Stdout_tiempo
                         (PiMain.obtener_tiempo (PiMain.instante_fin e)
                          - PiMain.obtener_tiempo (PiMain.instante_inicio e))
                         %float])).
Proof.
  intros Hc. pose proof (intervalos_secuencial_rango argv) as Hmax.
  unfold PiMain.main. fold (intervalos_secuencial argv).
  set (n := intervalos_secuencial argv) in *.
  destruct (Z.leb_spec n 0) as [Hle|Hgt].
  - left. split; [exact Hle | reflexivity].
  - right. split; [exact Hgt|].
    destruct (Z.gtb_spec n 2147483647) as [?|_];
      [unfold INT_MAX in Hmax; lia|].
    cbn [orb].
    rewrite (calcular_pi_secuencial_eq combustible n) by lia.
    eexists. split; [reflexivity|]. split; [|reflexivity].
    apply (magnitud_max_finito 39), pi_secuencial_magnitud. lia.
Qed.

End Secuencial.

(** * fibonacci.c: the program *)

Section Fibonacci_programa.

Import C Fibonacci.

(** The worker establishes the invariant of its loop at [N]. *)
Lemma trabajador_fibonacci_inv (combustible : nat) (inicial : list Z)
      (N : Z) :
  1 <= N <= INT_MAX -> N <= Z.of_nat (length inicial) ->
  (Z.to_nat N < combustible)%nat ->
  exists final : list Z,
    trabajador_fibonacci combustible {| arreglo := inicial; cantidad := N |}
    = Some final
    /\ fib_inv inicial N final.
Proof.
  intros HN Hlen Hc. unfold trabajador_fibonacci; simpl.
  destruct (Z.leb_spec N 0) as [?|_]; [lia|].
  destruct (Z.geb_spec N 1) as [_|?]; [|lia].
  destruct (Z.geb_spec N 2) as [H2|H1].
  - apply (para_int_inv (fib_inv inicial)).
    + unfold INT_MIN. lia.
    + lia.
    + lia.
    + unfold escribir. repeat split.
      * rewrite !length_insert. reflexivity.
      * intros k Hk. destruct k as [|[|k]]; [| |lia].
        -- rewrite list_lookup_insert_ne by lia.
           rewrite list_lookup_insert_eq by lia. reflexivity.
        -- rewrite list_lookup_insert_eq by (rewrite length_insert; lia).
           reflexivity.
      * intros k Hk. rewrite !list_lookup_insert_ne by lia. reflexivity.
    + intros k s Hk. apply fib_inv_paso; lia.
  - assert (N = 1) as -> by lia.
    destruct combustible as [|c]; [lia|]. simpl.
    exists (escribir inicial 0 0). split; [reflexivity|].
    unfold escribir. repeat split.
    + rewrite length_insert. reflexivity.
    + intros k Hk. destruct k; [|lia].
      rewrite list_lookup_insert_eq by lia. reflexivity.
    + intros k Hk. rewrite list_lookup_insert_ne by lia. reflexivity.
Qed.

(** An array of exactly [N] elements that satisfies the invariant at [N]
    is the list of the first [N] Fibonacci numbers modulo [2^64]. *)
Lemma fib_inv_completo (inicial final : list Z) (N : Z) :
  Z.of_nat (length inicial) = N -> fib_inv inicial N final ->
  final = secuencia_fib N.
Proof.
  intros Hlen (Hl & Hpre & _). apply list_eq. intros k.
  unfold secuencia_fib. rewrite list_lookup_fmap.
  destruct (Nat.lt_ge_cases k (Z.to_nat N)) as [Hlt|Hge].
  - rewrite Hpre by exact Hlt. rewrite lookup_seq_lt by exact Hlt.
    reflexivity.
  - rewrite lookup_seq_ge by exact Hge.
    apply lookup_ge_None_2. lia.
Qed.

Lemma linea_snoc (l : list Z) (v : Z) :
  linea (l ++ [v])
  = (if Z.of_nat (length l) >? 0
     then linea l ++ [FibonacciMain.Stdout_espacio] else linea l)
    ++ [FibonacciMain.Stdout_numero v].
Proof.
  destruct l as [|w r]; [reflexivity|].
  replace (Z.of_nat (length (w :: r)) >? 0) with true
    by (symmetry; apply Z.gtb_lt; cbn [length]; lia).
  unfold linea. cbn [app]. rewrite fmap_app, concat_app.
  cbn [fmap list_fmap concat app]. rewrite <- !app_assoc. reflexivity.
Qed.

(** The printing loop writes the first [N] elements of the array, with one
    space between consecutive numbers and none before the first. *)
Lemma imprimir_linea (combustible : nat) (secuencia : list Z) (N : Z) :
  0 <= N <= INT_MAX -> N <= Z.of_nat (length secuencia) ->
  (Z.to_nat N < combustible)%nat ->
  FibonacciMain.imprimir combustible secuencia N
  = Some (linea (take (Z.to_nat N) secuencia)).
Proof.
  intros HN Hlen Hc.
  cut (exists t, FibonacciMain.imprimir combustible secuencia N = Some t
                 /\ t = linea (take (Z.to_nat N) secuencia)).
  { intros (t & -> & ->). reflexivity. }
  unfold FibonacciMain.imprimir.
  apply (para_int_inv
           (fun i t => t = linea (take (Z.to_nat i) secuencia))).
  - unfold INT_MIN. lia.
  - lia.
  - lia.
  - reflexivity.
  - intros k t Hk ->. cbv zeta.
    destruct (lookup_lt_is_Some_2 secuencia (Z.to_nat k) ltac:(lia))
      as (x & Hx).
    replace (Z.to_nat (k + 1)) with (S (Z.to_nat k)) by lia.
    rewrite (take_S_r _ _ _ Hx), linea_snoc, length_take.
    unfold leer. rewrite Hx. cbn [default].
    replace (Z.of_nat (Z.to_nat k `min` length secuencia) >? 0)
      with (k >? 0); [reflexivity|].
    destruct (Z.gtb_spec k 0), (Z.gtb_spec (Z.of_nat
      (Z.to_nat k `min` length secuencia)) 0); try reflexivity; lia.
Qed.

Lemma longitud_basura (e : FibonacciMain.entorno) (N : Z) :
  0 <= N ->
  Z.of_nat (length (FibonacciMain.basura e <$> seq 0 (Z.to_nat N))) = N.
Proof. intros HN. rewrite length_fmap, length_seq. lia. Qed.

Lemma longitud_secuencia_fib (N : Z) :
  length (secuencia_fib N) = Z.to_nat N.
Proof. unfold secuencia_fib. rewrite length_fmap, length_seq. reflexivity. Qed.

Lemma cantidad_pedida_rango (argv : list string) :
  cantidad_pedida argv <= INT_MAX.
Proof. apply a_int_rango. Qed.

(** [main] when a thread is due and nothing fails. *)
Lemma fibonacci_main_exito (combustible : nat) (e : FibonacciMain.entorno)
      (argv : list string) :
  (2 <= length argv)%nat -> 1 <= cantidad_pedida argv -> fib_sin_fallo e ->
  (Z.to_nat (cantidad_pedida argv) < combustible)%nat ->
  FibonacciMain.main combustible e argv
  = Some (EXIT_SUCCESS,
          [FibonacciMain.Crear 0; FibonacciMain.Unir 0]
          ++ linea (secuencia_fib (cantidad_pedida argv))
          ++ [FibonacciMain.Stdout_nueva_linea]).
Proof.
  intros Hargc HN (Hrs & Hra & Hcc & Hcu) Hc.
  pose proof (cantidad_pedida_rango argv) as Hmax.
  unfold FibonacciMain.main. fold (cantidad_pedida argv).
  set (N := cantidad_pedida argv) in *.
  destruct (Z.ltb_spec (Z.of_nat (length argv)) 2) as [?|_]; [lia|].
  destruct (Z.ltb_spec N 0) as [?|_]; [lia|].
  destruct (Z.eqb_spec N 0) as [?|_]; [lia|].
  rewrite Hrs, Hra, Hcc, Hcu. cbn [negb Z.eqb].
  destruct (trabajador_fibonacci_inv combustible
              (FibonacciMain.basura e <$> seq 0 (Z.to_nat N)) N)
    as (final & -> & Hinv).
  - lia.
  - rewrite longitud_basura; lia.
  - exact Hc.
  - rewrite (fib_inv_completo _ _ N (longitud_basura e N ltac:(lia)) Hinv).
    rewrite imprimir_linea
      by (rewrite ?longitud_secuencia_fib; (exact Hc || lia)).
    rewrite take_ge by (rewrite longitud_secuencia_fib; lia).
    reflexivity.
Qed.

(** X7: given a count [N >= 1] on the command line, both allocations, the
    creation of the thread and the join succeeding, [main] of [fibonacci.c]
    ends with [EXIT_SUCCESS] having written the first [N] Fibonacci numbers
    modulo [2^64] in order on one line, separated by single spaces and
    followed by a newline, after creating and joining one thread; what the
    allocated array held before plays no part. *)
Theorem fibonacci_main_imprime (combustible : nat)
        (e : FibonacciMain.entorno) (argv : list string) :
  (2 <= length argv)%nat -> 1 <= cantidad_pedida argv -> fib_sin_fallo e ->
  (Z.to_nat (cantidad_pedida argv) < combustible)%nat ->
  exists t : list FibonacciMain.evento,
    FibonacciMain.main combustible e argv = Some (EXIT_SUCCESS, t)
    /\ t = [FibonacciMain.Crear 0; FibonacciMain.Unir 0]
           ++ linea (secuencia_fib (cantidad_pedida argv))
           ++ [FibonacciMain.Stdout_nueva_linea]
    /\ List.filter fib_es_stdout t
       = linea (secuencia_fib (cantidad_pedida argv))
         ++ [FibonacciMain.Stdout_nueva_linea]
    /\ length (secuencia_fib (cantidad_pedida argv))
       = Z.to_nat (cantidad_pedida argv)
    /\ forall i : nat,
         (i < Z.to_nat (cantidad_pedida argv))%nat ->
         secuencia_fib (cantidad_pedida argv) !! i = Some (fib i mod 2 ^ 64).
Proof.
  intros Hargc HN Hsin Hc. eexists.
  split; [apply fibonacci_main_exito; assumption|].
  split; [reflexivity|]. split; [|split].
  - cbn [app List.filter fib_es_stdout]. rewrite List.filter_app.
    cbn [List.filter fib_es_stdout]. f_equal.
    apply forallb_filter_id. unfold linea.
    destruct (secuencia_fib _) as [|v r]; [reflexivity|].
    cbn [forallb fib_es_stdout andb].
    induction r as [|w r IH]; [reflexivity|].
    rewrite fmap_cons. cbn [concat app forallb fib_es_stdout andb].
    exact IH.
  - apply longitud_secuencia_fib.
  - intros i Hi. unfold secuencia_fib. rewrite list_lookup_fmap.
    rewrite lookup_seq_lt by exact Hi. reflexivity.
Qed.

End Fibonacci_programa.

Section Fibonacci_estado.

Import C Fibonacci.

Lemma filtro_de_linea (l : list Z) :
  List.filter fib_es_stdout (linea l) = linea l.
Proof.
  apply forallb_filter_id. unfold linea.
  destruct l as [|v r]; [reflexivity|].
  cbn [forallb fib_es_stdout andb].
  induction r as [|w r IH]; [reflexivity|].
  rewrite fmap_cons. cbn [concat app forallb fib_es_stdout andb].
  exact IH.
Qed.

(** X8: [main] of [fibonacci.c] ends with [EXIT_SUCCESS] exactly when a
    count is given and either it reads as 0, or it is positive and both
    allocations, the creation of the thread and the join succeed; in every
    other case it ends with [EXIT_FAILURE] and has written nothing to the
    standard output.  For a count that reads as 0 it does nothing at all:
    no allocation, no thread, no output, not even a newline. *)
Theorem fibonacci_main_estado (combustible : nat)
        (e : FibonacciMain.entorno) (argv : list string) :
  (Z.to_nat (cantidad_pedida argv) < combustible)%nat ->
  exists (codigo : Z) (t : list FibonacciMain.evento),
    FibonacciMain.main combustible e argv = Some (codigo, t)
    /\ (codigo = EXIT_SUCCESS \/ codigo = EXIT_FAILURE)
    /\ (codigo = EXIT_SUCCESS
        <-> (2 <= length argv)%nat
            /\ (cantidad_pedida argv = 0
                \/ 0 < cantidad_pedida argv /\ fib_sin_fallo e))
    /\ (codigo = EXIT_FAILURE -> List.filter fib_es_stdout t = [])
    /\ ((2 <= length argv)%nat -> cantidad_pedida argv = 0 -> t = []).
Proof.
  intros Hc.
  destruct (le_lt_dec 2 (length argv)) as [Hargc|Hargc]; cycle 1.
  { exists EXIT_FAILURE, (FibonacciMain.mostrar_uso (PiP.argumento argv 0)).
    split.
    { unfold FibonacciMain.main.
      destruct (Z.ltb_spec (Z.of_nat (length argv)) 2); [reflexivity | lia]. }
    split; [right; reflexivity|].
    split; [split; [unfold EXIT_FAILURE, EXIT_SUCCESS; lia | lia]|].
    split; [reflexivity | lia]. }
  assert (Hfallo : forall t,
            List.filter fib_es_stdout t = [] ->
            cantidad_pedida argv < 0
            \/ 0 < cantidad_pedida argv /\ ~ fib_sin_fallo e ->
            FibonacciMain.main combustible e argv = Some (EXIT_FAILURE, t) ->
            exists (codigo : Z) (t : list FibonacciMain.evento),
              FibonacciMain.main combustible e argv = Some (codigo, t)
              /\ (codigo = EXIT_SUCCESS \/ codigo = EXIT_FAILURE)
              /\ (codigo = EXIT_SUCCESS
                  <-> (2 <= length argv)%nat
                      /\ (cantidad_pedida argv = 0
                          \/ 0 < cantidad_pedida argv /\ fib_sin_fallo e))
              /\ (codigo = EXIT_FAILURE -> List.filter fib_es_stdout t = [])
              /\ ((2 <= length argv)%nat -> cantidad_pedida argv = 0
                  -> t = [])).
  { intros t Ht Hmal Hrun. exists EXIT_FAILURE, t.
    split; [exact Hrun|]. split; [right; reflexivity|].
    split; [split; [unfold EXIT_FAILURE, EXIT_SUCCESS; lia|]|].
    - intros (_ & [H0|(Hpos & Hsin)]); [lia|].
      destruct Hmal as [?|(_ & Hno)]; [lia | destruct (Hno Hsin)].
    - split; [intros _; exact Ht | lia]. }
  destruct (Z.lt_trichotomy (cantidad_pedida argv) 0) as [Hneg|[Hcero|Hpos]].
  - apply (Hfallo [FibonacciMain.Stderr_n_negativo]);
      [reflexivity | lia |].
    unfold FibonacciMain.main. fold (cantidad_pedida argv).
    destruct (Z.ltb_spec (Z.of_nat (length argv)) 2) as [?|_]; [lia|].
    destruct (Z.ltb_spec (cantidad_pedida argv) 0) as [_|?]; [|lia].
    reflexivity.
  - exists EXIT_SUCCESS, []. split.
    { unfold FibonacciMain.main. fold (cantidad_pedida argv).
      destruct (Z.ltb_spec (Z.of_nat (length argv)) 2) as [?|_]; [lia|].
      rewrite Hcero. reflexivity. }
    split; [left; reflexivity|].
    split; [split; [intros _; split; [exact Hargc | left; exact Hcero]
                   | reflexivity]|].
    split; reflexivity.
  - assert (Hpre : forall r,
              (if negb (FibonacciMain.reserva_secuencia e) then
                 Some (EXIT_FAILURE, [FibonacciMain.Perror_secuencia])
               else r)
              = Some (EXIT_FAILURE, [FibonacciMain.Perror_secuencia])
              \/ FibonacciMain.reserva_secuencia e = true) by
      (intros r; destruct (FibonacciMain.reserva_secuencia e); auto).
    destruct (FibonacciMain.reserva_secuencia e) eqn:Hrs;
      [destruct (FibonacciMain.reserva_argumentos e) eqn:Hra;
       [destruct (Z.eqb_spec (FibonacciMain.codigo_crear e) 0) as [Hcc|Hcc];
        [destruct (Z.eqb_spec (FibonacciMain.codigo_unir e) 0) as [Hcu|Hcu]
        |]|]|].
    + rewrite (fibonacci_main_exito combustible e argv Hargc ltac:(lia)
                 (conj Hrs (conj Hra (conj Hcc Hcu))) Hc).
      eexists _, _. split; [reflexivity|]. split; [left; reflexivity|].
      split; [split; [intros _; split; [exact Hargc|right]
                     | reflexivity]|].
      * split; [exact Hpos | repeat split; assumption].
      * split; [unfold EXIT_FAILURE, EXIT_SUCCESS; lia | lia].
    + apply (Hfallo [FibonacciMain.Crear 0;
                     FibonacciMain.Unir (FibonacciMain.codigo_unir e);
                     FibonacciMain.Stderr_error_join
                       (FibonacciMain.codigo_unir e)]);
        [reflexivity | right; split; [exact Hpos|]; intros (_ & _ & _ & H);
                       exact (Hcu H) |].
      unfold FibonacciMain.main. fold (cantidad_pedida argv).
      destruct (Z.ltb_spec (Z.of_nat (length argv)) 2) as [?|_]; [lia|].
      destruct (Z.ltb_spec (cantidad_pedida argv) 0) as [?|_]; [lia|].
      destruct (Z.eqb_spec (cantidad_pedida argv) 0) as [?|_]; [lia|].
      rewrite Hrs, Hra, Hcc.
      destruct (Z.eqb_spec (FibonacciMain.codigo_unir e) 0) as [?|_];
        [contradiction | reflexivity].
    + apply (Hfallo [FibonacciMain.Crear (FibonacciMain.codigo_crear e);
                     FibonacciMain.Stderr_error_crear
                       (FibonacciMain.codigo_crear e)]);
        [reflexivity | right; split; [exact Hpos|]; intros (_ & _ & H & _);
                       exact (Hcc H) |].
      unfold FibonacciMain.main. fold (cantidad_pedida argv).
      destruct (Z.ltb_spec (Z.of_nat (length argv)) 2) as [?|_]; [lia|].
      destruct (Z.ltb_spec (cantidad_pedida argv) 0) as [?|_]; [lia|].
      destruct (Z.eqb_spec (cantidad_pedida argv) 0) as [?|_]; [lia|].
      rewrite Hrs, Hra.
      destruct (Z.eqb_spec (FibonacciMain.codigo_crear e) 0) as [?|_];
        [contradiction | reflexivity].
    + apply (Hfallo [FibonacciMain.Perror_argumentos]);
        [reflexivity | right; split; [exact Hpos|]; intros (_ & H & _);
                       congruence |].
      unfold FibonacciMain.main. fold (cantidad_pedida argv).
      destruct (Z.ltb_spec (Z.of_nat (length argv)) 2) as [?|_]; [lia|].
      destruct (Z.ltb_spec (cantidad_pedida argv) 0) as [?|_]; [lia|].
      destruct (Z.eqb_spec (cantidad_pedida argv) 0) as [?|_]; [lia|].
      rewrite Hrs, Hra. reflexivity.
    + apply (Hfallo [FibonacciMain.Perror_secuencia]);
        [reflexivity | right; split; [exact Hpos|]; intros (H & _);
                       congruence |].
      unfold FibonacciMain.main. fold (cantidad_pedida argv).
      destruct (Z.ltb_spec (Z.of_nat (length argv)) 2) as [?|_]; [lia|].
      destruct (Z.ltb_spec (cantidad_pedida argv) 0) as [?|_]; [lia|].
      destruct (Z.eqb_spec (cantidad_pedida argv) 0) as [?|_]; [lia|].
      rewrite Hrs. reflexivity.
Qed.

End Fibonacci_estado.

(** * fibonacci.c: where [unsigned long long] wraps *)

Section Fibonacci_desbordamiento.

Import C Fibonacci.

Lemma fib_par_fib (n : nat) : fib_par n = (fib n, fib (S n)).
Proof.
  induction n as [|n IH]; [reflexivity|].
  cbn [fib_par]. rewrite IH, (fib_suma n). f_equal. lia.
Qed.

Lemma fib_por_pares (n : nat) : fib n = fst (fib_par n).
Proof. rewrite fib_par_fib. reflexivity. Qed.

Lemma fib_no_negativo (n : nat) : 0 <= fib n /\ 0 <= fib (S n).
Proof.
  induction n as [|n [IH1 IH2]]; [cbn; lia|].
  split; [exact IH2|]. rewrite fib_suma. lia.
Qed.

Lemma fib_monotono (n m : nat) : (n <= m)%nat -> fib n <= fib m.
Proof.
  induction 1 as [|m _ IH]; [lia|].
  apply Z.le_trans with (fib m); [exact IH|].
  destruct m as [|m]; [cbn; lia|].
  rewrite fib_suma. pose proof (fib_no_negativo m). lia.
Qed.

Lemma fib_93 : fib 93 < 2 ^ 64.
Proof. rewrite fib_por_pares. vm_compute. reflexivity. Qed.

Lemma fib_94 : 2 ^ 64 <= fib 94.
Proof. rewrite fib_por_pares. vm_compute. discriminate. Qed.

(** X9: the elements the worker writes are the true Fibonacci numbers up to
    index 93 and no further: for every index [i < N], element [i] is
    [F(i)] exactly when [i < 94]; from index 94 on (reached when
    [N >= 95]) the sum has wrapped modulo [2^64], and the worker neither
    detects nor reports it. *)
Theorem fibonacci_exacto_hasta_93 (combustible : nat) (inicial : list Z)
        (N : Z) :
  1 <= N <= INT_MAX -> N <= Z.of_nat (length inicial) ->
  (Z.to_nat N < combustible)%nat ->
  exists final : list Z,
    trabajador_fibonacci combustible {| arreglo := inicial; cantidad := N |}
    = Some final
    /\ forall i : nat,
         (i < Z.to_nat N)%nat ->
         (final !! i = Some (fib i) <-> (i < 94)%nat).
Proof.
  intros HN Hlen Hc.
  destruct (trabajador_fibonacci_inv combustible inicial N HN Hlen Hc)
    as (final & Hrun & _ & Hpre & _).
  exists final. split; [exact Hrun|]. intros i Hi. rewrite (Hpre i Hi).
  pose proof (fib_no_negativo i) as [H0 _].
  pose proof fib_93 as H93. pose proof fib_94 as H94.
  pose proof (Z.mod_pos_bound (fib i) (2 ^ 64) ltac:(lia)) as Hmod.
  split.
  - intros Heq. apply Some_inj in Heq.
    destruct (Nat.lt_ge_cases i 94) as [Hlt|Hge]; [exact Hlt|].
    pose proof (fib_monotono 94 i Hge). lia.
  - intros Hlt. pose proof (fib_monotono i 93 ltac:(lia)).
    rewrite Z.mod_small by lia. reflexivity.
Qed.

End Fibonacci_desbordamiento.

(** * pi.c and pi_p.c side by side *)

Section Un_hilo_en_el_programa.

Import C PiP.

Lemma aportes_un_hilo (e : entorno) (n : Z) :
  0 < n <= INT_MAX ->
  reserva_resultado e 0 = true -> codigo_unir e 0 = 0 ->
  suma_en_orden (aportes e n 1)
  = suma_puntos_medios (1 / double_de_int n)%float 0 n.
Proof.
  intros Hn Hres Hunir.
  set (s := suma_puntos_medios (1 / double_de_int n)%float 0 n).
  assert (Hs : acotado (16 * (n - 0)) s).
  { apply suma_puntos_medios_acotada; [apply paso_cotas | |];
      unfold INT_MAX in *; lia. }
  assert (Hparcial : parcial n 1 0 = s).
  { unfold parcial, s. rewrite inicio_de_0 by lia.
    change (0 + 1) with 1. rewrite inicio_de_h by lia. reflexivity. }
  unfold aportes, aportes_hasta, suma_en_orden.
  change (seqZ 0 1) with [0].
  rewrite filter_cons_True
    by (unfold ausente; rewrite Hres, Hunir; reflexivity).
  rewrite filter_nil. cbn [fmap list_fmap fold_left].
  rewrite Hparcial. apply (cero_mas_acotado _ _ Hs).
Qed.

(** X10: run on the same count of sub-intervals [n >= 1], [pi_p] with one
    thread (asked for, or taken because the thread count read is not
    positive) and [pi] both end with [EXIT_SUCCESS] and print the same
    approximation, bit for bit, and the same absolute error, provided the
    one thread is created, returns a value and is joined. *)
Theorem un_hilo_mismo_informe (combustible : nat) (e : entorno)
        (e_sec : PiMain.entorno) (argv_par argv_sec : list string) :
  hilos_usados argv_par = 1 ->
  intervalos_secuencial argv_sec = intervalos_pedidos argv_par ->
  0 < intervalos_pedidos argv_par ->
  sin_fallo_fatal e 1 ->
  reserva_resultado e 0 = true -> codigo_unir e 0 = 0 ->
  (Z.to_nat (intervalos_pedidos argv_par) < combustible)%nat ->
  (1 < combustible)%nat ->
  exists (v : float) (t_par : list evento),
    programa combustible e argv_par = Some (EXIT_SUCCESS, t_par)
    /\ salida t_par = informe e (intervalos_pedidos argv_par) 1 v
    /\ PiMain.main combustible e_sec argv_sec
       = Some (EXIT_SUCCESS,
               [PiMain.Stdout_n (intervalos_pedidos argv_par);
                PiMain.Stdout_pi v;
                PiMain.Stdout_error_absoluto
                  (PrimFloat.abs (v - PI_REFERENCIA)%float);
                PiMain.Stdout_tiempo
                  (PiMain.obtener_tiempo (PiMain.instante_fin e_sec)
                   - PiMain.obtener_tiempo (PiMain.instante_inicio e_sec))
                  %float])
    /\ Pi.calcular_pi_secuencial combustible (intervalos_pedidos argv_par)
       = Some v.
Proof.
  intros Hh Hsec Hpos (Hrh & Hrd & Hok) Hres Hunir Hcn Hc1.
  pose proof (intervalos_pedidos_rango argv_par) as Hmax.
  set (n := intervalos_pedidos argv_par) in *.
  assert (Hn : 0 < n <= INT_MAX) by lia.
  assert (H1 : 0 < 1 <= INT_MAX) by (unfold INT_MAX; lia).
  exists (1 / double_de_int n
          * suma_puntos_medios (1 / double_de_int n) 0 n)%float.
  eexists. split; [|split; [|split]].
  - rewrite programa_con_hilos_usados. fold n. rewrite Hh.
    rewrite (main_desde_n_informa combustible e argv_par n 1 [] _ _ Hn
               (calcular_pi_paralelo_retorna e n 1 combustible Hn H1 Hcn
                  ltac:(lia) [] Hrh Hrd Hok)).
    rewrite (aportes_un_hilo e n Hn Hres Hunir).
    unfold prefijar. reflexivity.
  - cbn [snd app].
    rewrite !salida_app, salida_lanzamientos, salida_recolecciones.
    destruct (hilos_pedidos argv_par <=? 0); reflexivity.
  - unfold PiMain.main. fold (intervalos_secuencial argv_sec).
    rewrite Hsec. fold n.
    destruct (Z.leb_spec n 0) as [?|_]; [lia|].
    destruct (Z.gtb_spec n 2147483647) as [?|_];
      [unfold INT_MAX in Hn; lia|].
    cbn [orb]. rewrite (calcular_pi_secuencial_eq combustible n Hn Hcn).
    reflexivity.
  - apply calcular_pi_secuencial_eq; assumption.
Qed.

(** X11: a count of sub-intervals that reads as [<= 0] is rejected before
    anything else is done: the run is the same in every environment and
    with any fuel, it ends with [EXIT_FAILURE], creates and joins no
    thread, and the last thing written is the usage text. *)
Theorem rechazo_antes_de_todo (combustible combustible' : nat)
        (e e' : entorno) (argv : list string) :
  intervalos_pedidos argv <= 0 ->
  programa combustible e argv = programa combustible' e' argv
  /\ exists t : list evento,
       programa combustible e argv = Some (EXIT_FAILURE, t)
       /\ creados t = [] /\ unidos t = [] /\ salida t = []
       /\ last t = Some (Stderr_uso (argumento argv 0)).
Proof.
  intros Hn.
  rewrite (n_no_positivo_rechazado combustible e argv Hn),
    (n_no_positivo_rechazado combustible' e' argv Hn).
  split; [reflexivity|]. eexists. split; [reflexivity|].
  destruct (hilos_pedidos argv <=? 0); repeat split.
Qed.

End Un_hilo_en_el_programa.

(** * The further theorems on concrete runs *)

Section Ejemplos_adicionales.

Import C PiP.

Lemma hilos_unidos_son_creados_ejemplo :
  exists (r : resultado float) (t' : list evento),
    calcular_pi_paralelo 12 entorno_sin_hilo_2 10 4 [] = (r, [] ++ t')
    /\ unidos t' = creados t'.
Proof.
  destruct (hilos_unidos_son_creados entorno_sin_hilo_2 12 10 4 [])
    as (r & t' & Hrun & Hunidos & _).
  - unfold INT_MAX. lia.
  - unfold INT_MAX. lia.
  - simpl. lia.
  - simpl. lia.
  - exists r, t'. split; [exact Hrun | exact Hunidos].
Defined.

Lemma programa_estado_ejemplo :
  exists (codigo : Z) (t : list evento),
    programa 12 entorno_sin_fallos
             ["pi_p"%string; "3"%string; "10"%string]
    = Some (codigo, t)
    /\ (codigo = EXIT_SUCCESS \/ codigo = EXIT_FAILURE).
Proof.
  destruct (programa_estado 12 entorno_sin_fallos
              ["pi_p"%string; "3"%string; "10"%string])
    as (codigo & t & Hrun & [(_ & _ & Hcod & _)|(_ & Hcod & _)]).
  - vm_compute. lia.
  - vm_compute. lia.
  - exists codigo, t. split; [exact Hrun | left; exact Hcod].
  - exists codigo, t. split; [exact Hrun | right; exact Hcod].
Defined.

Lemma trabajo_suma_parcial_total_ejemplo :
  trabajo_suma_parcial 3 true
    {| indice_inicio := 5; indice_fin := 2; paso := 0.5%float |}
  = Some (Some 0%float).
Proof.
  destruct (trabajo_suma_parcial_total 3 true
              {| indice_inicio := 5; indice_fin := 2; paso := 0.5%float |})
    as [Hrun Hcero].
  - unfold es_int, INT_MIN, INT_MAX. simpl. lia.
  - unfold es_int, INT_MIN, INT_MAX. simpl. lia.
  - simpl. lia.
  - rewrite Hrun, Hcero by (simpl; lia). reflexivity.
Defined.

Lemma obtener_tiempo_finito_ejemplo :
  is_finite (obtener_tiempo {| tv_sec := 11; tv_nsec := 500000000 |}) = true.
Proof.
  destruct (obtener_tiempo_finito {| tv_sec := 11; tv_nsec := 500000000 |})
    as (Hfin & _).
  - simpl. lia.
  - simpl. lia.
  - exact Hfin.
Defined.

Lemma calcular_pi_secuencial_correcto_ejemplo :
  exists v : float,
    Pi.calcular_pi_secuencial 12 10 = Some v /\ is_finite v = true.
Proof.
  destruct (calcular_pi_secuencial_correcto 12 10)
    as (v & Hrun & _ & Hfin & _).
  - unfold INT_MAX. lia.
  - simpl. lia.
  - exists v. split; [exact Hrun | exact Hfin].
Defined.

Lemma pi_main_estado_ejemplo :
  exists (codigo : Z) (t : list PiMain.evento),
    PiMain.main 12 pi_entorno ["pi"%string; "10"%string] = Some (codigo, t).
Proof.
  destruct (pi_main_estado 12 pi_entorno ["pi"%string; "10"%string])
    as [(_ & Hrun)|(_ & v & _ & _ & Hrun)].
  - vm_compute. lia.
  - eexists _, _. exact Hrun.
  - eexists _, _. exact Hrun.
Defined.

Lemma fibonacci_main_imprime_ejemplo :
  exists t : list FibonacciMain.evento,
    FibonacciMain.main 12 fib_entorno_sin_fallos
                       ["fibonacci"%string; "10"%string]
    = Some (EXIT_SUCCESS, t)
    /\ List.filter fib_es_stdout t
       = linea (secuencia_fib 10) ++ [FibonacciMain.Stdout_nueva_linea].
Proof.
  destruct (fibonacci_main_imprime 12 fib_entorno_sin_fallos
              ["fibonacci"%string; "10"%string])
    as (t & Hrun & _ & Hsalida & _).
  - simpl. lia.
  - vm_compute. discriminate.
  - repeat split.
  - vm_compute. lia.
  - exists t. split; [exact Hrun | exact Hsalida].
Defined.

Lemma fibonacci_main_estado_ejemplo :
  exists (codigo : Z) (t : list FibonacciMain.evento),
    FibonacciMain.main 12 fib_entorno_sin_fallos
                       ["fibonacci"%string; "-2"%string]
    = Some (codigo, t)
    /\ (codigo = EXIT_SUCCESS \/ codigo = EXIT_FAILURE).
Proof.
  destruct (fibonacci_main_estado 12 fib_entorno_sin_fallos
              ["fibonacci"%string; "-2"%string])
    as (codigo & t & Hrun & Hcod & _).
  - vm_compute. lia.
  - exists codigo, t. split; [exact Hrun | exact Hcod].
Defined.

Lemma fibonacci_exacto_hasta_93_ejemplo :
  exists final : list Z,
    Fibonacci.trabajador_fibonacci 8
      {| Fibonacci.arreglo := [7; 7; 7; 7; 7; 7]; Fibonacci.cantidad := 5 |}
    = Some final
    /\ final !! 4%nat = Some (fib 4).
Proof.
  destruct (fibonacci_exacto_hasta_93 8 [7; 7; 7; 7; 7; 7] 5)
    as (final & Hrun & Hexacto).
  - unfold INT_MAX. lia.
  - simpl. lia.
  - simpl. lia.
  - exists final. split; [exact Hrun|].
    apply (Hexacto 4%nat); simpl; lia.
Defined.

Lemma un_hilo_mismo_informe_ejemplo :
  exists (v : float) (t_par : list evento),
    programa 12 entorno_sin_fallos
             ["pi_p"%string; "0"%string; "10"%string]
    = Some (EXIT_SUCCESS, t_par)
    /\ Pi.calcular_pi_secuencial 12 10 = Some v
    /\ salida t_par = informe entorno_sin_fallos 10 1 v.
Proof.
  destruct (un_hilo_mismo_informe 12 entorno_sin_fallos pi_entorno
              ["pi_p"%string; "0"%string; "10"%string]
              ["pi"%string; "10"%string])
    as (v & t_par & Hpar & Hsalida & _ & Hsec).
  - reflexivity.
  - reflexivity.
  - vm_compute. reflexivity.
  - split; [reflexivity | split; [reflexivity | intros k Hk; reflexivity]].
  - reflexivity.
  - reflexivity.
  - vm_compute. lia.
  - lia.
  - exists v, t_par. split; [exact Hpar | split; [exact Hsec | exact Hsalida]].
Defined.

Lemma rechazo_antes_de_todo_ejemplo :
  programa 3 entorno_sin_fallos ["pi_p"%string; "4"%string; "0"%string]
  = programa 5 entorno_sin_hilo_2 ["pi_p"%string; "4"%string; "0"%string].
Proof.
  destruct (rechazo_antes_de_todo 3 5 entorno_sin_fallos entorno_sin_hilo_2
              ["pi_p"%string; "4"%string; "0"%string]) as [Higual _].
  - vm_compute. discriminate.
  - exact Higual.
Defined.

End Ejemplos_adicionales.
